(** * TACSBVec: the distributed block vector of [src/bpmat/BVec.c]

    A shallow embedding of the block vector class and of the boundary
    condition map it applies, followed by the properties of the
    assembly protocol, of the algebraic primitives and of the file
    reader.

    Conventions of the embedding.
    - A C [int] is a [Z].  Every array is a [list]; an access outside
      the array is undefined behaviour in C and is [None] here, so every
      operation that touches memory returns an [option].  An index that
      would overflow [int] is larger than any array length and is
      therefore covered by the same [None].
    - [TacsScalar] is a type class: the code is compiled either for
      [double] or for a complex type, and nothing in the assembly
      protocol depends on which.  The theorems about the protocol are
      proved for every instance, without any law of arithmetic, so the
      sums are stated in the order the loops compute them.
    - A rank is one [TACSBVec] value. A method that reduces over the
      communicator is a function of the values of all ranks, in rank
      order; the other collective methods take what the communicator
      delivers to the rank as an argument.
    - [None] stands for undefined behaviour only: every loop runs for
      the number of iterations its bounds give, so no method runs out
      of steps. *)

From Stdlib Require Import ZArith Lia Reals Lra Floats String.
From stdpp Require Import base option list list_numbers.

Local Open Scope Z_scope.

(** ** Scalars *)

(** The operations of [TacsScalar] the class uses. [of_int] is the
    conversion of an [int] in a mixed expression, [is_zero] the test
    [alpha == 0]. *)
Class TacsScalar (T : Type) := {
  zero : T;
  add : T -> T -> T;
  sub : T -> T -> T;
  mul : T -> T -> T;
  div : T -> T -> T;
  sqrt : T -> T;
  of_int : Z -> T;
  is_zero : T -> bool
}.

(** The [double] build, on the binary64 numbers of the kernel. *)
#[export] Instance double_scalar : TacsScalar float := {|
  zero := 0%float;
  add := PrimFloat.add;
  sub := PrimFloat.sub;
  mul := PrimFloat.mul;
  div := PrimFloat.div;
  sqrt := PrimFloat.sqrt;
  of_int := fun z => if (z <? 0)%Z
                     then PrimFloat.opp (PrimFloat.of_uint63 (Uint63.of_Z (- z)))
                     else PrimFloat.of_uint63 (Uint63.of_Z z);
  is_zero := fun a => PrimFloat.eqb a 0%float
|}.

(** Exact real arithmetic, the reference for the algebraic identities. *)
#[export] Instance real_scalar : TacsScalar R := {|
  zero := 0%R;
  add := Rplus;
  sub := Rminus;
  mul := Rmult;
  div := Rdiv;
  sqrt := R_sqrt.sqrt;
  of_int := IZR;
  is_zero := fun a => if Req_dec_T a 0%R then true else false
|}.

(** ** Arrays and loops *)

(** [a[i]] read and written through a pointer. *)
Definition aget {A} (a : list A) (i : Z) : option A :=
  if decide (0 <= i) then a !! Z.to_nat i else None.

Definition aset {A} (a : list A) (i : Z) (v : A) : option (list A) :=
  if decide (0 <= i < Z.of_nat (length a))
  then Some (<[Z.to_nat i := v]> a) else None.

(** [n] iterations of a body from counter [i], upwards by [step]. *)
Fixpoint for_iter {St} (n : nat) (i step : Z) (body : Z -> St -> option St)
    (s : St) : option St :=
  match n with
  | O => Some s
  | S n' => s' ← body i s; for_iter n' (i + step) step body s'
  end.

(** [for (i = lo; i < hi; i++) body]: the body changes neither [i] nor
    [hi], so the loop runs [hi - lo] times, and not at all when
    [hi <= lo]. *)
Definition for_range {St} (lo hi : Z) (body : Z -> St -> option St) (s : St)
    : option St :=
  for_iter (Z.to_nat (hi - lo)) lo 1 body s.

(** [for ( ; i < hi; i += 4) body] entered with counter [lo]. *)
Definition for_range4 {St} (lo hi : Z) (body : Z -> St -> option St) (s : St)
    : option St :=
  for_iter (Z.to_nat ((hi - lo + 3) / 4)) lo 4 body s.

(** ** Data model *)

(** The two legal values of the operation argument. *)
Inductive TACSBVecOperation := INSERT_VALUES | ADD_VALUES.

(** The communicator, as a rank sees it. *)
Record MPI_Comm := { comm_rank : Z; comm_size : Z }.

(** Modelled from the spec: the owner map ([TACSVarMap], declared in a
    file outside [BVec.c]) is the partition [owner_range[0..P]] of the
    global nodes, rank [r] owning [owner_range[r] .. owner_range[r+1]),
    together with the communicator. *)
Record TACSVarMap := { getMPIComm : MPI_Comm; getOwnerRange : list Z }.

(** Modelled from the spec: the ghost index set ([TACSBVecIndices]) is
    used through [findIndex] only, the offset of a global index in the
    sorted ghost list; nothing is assumed about its value. *)
Record TACSBVecIndices := { findIndex : Z -> Z }.

Section BVec.
Context {T : Type} `{TacsScalar T}.

(** The distribution context, opaque to the vector. *)
Context {TACSBVecDistCtx : Type}.

(** The build option: the complex build computes norms and dot products
    with its own unrolled loops, the real build calls BLAS. *)
Variable TACS_USE_COMPLEX : bool.

(** The C library generator behind [rand()], and [RAND_MAX]. *)
Context {RandState : Type}.
Variable rand : RandState -> Z * RandState.
Variable RAND_MAX : Z.

(** The boundary condition map: [nbcs] records in the parallel arrays
    [local]/[global], record [i] owning the entries
    [var_ptr[i] .. var_ptr[i+1]) of [vars] and [values]. The lists are
    the parts of the arrays that have been written; the capacities and
    the reallocation that keeps them large enough do not change the
    contents and are left out. *)
Record TACSBcMap := {
  nbcs : Z;
  bc_local : list Z;
  bc_global : list Z;
  var_ptr : list Z;
  vars : list Z;
  values : list T
}.

(** Modelled from the spec: the dependent node table
    ([TACSBVecDepNodes]); [getDepNodes] yields the count and the three
    arrays. *)
Record TACSBVecDepNodes := {
  ndep_nodes : Z;
  dep_ptr : list Z;
  dep_conn : list Z;
  dep_weights : list T
}.

(** Modelled from the spec: the distribution plan
    ([TACSBVecDistribute]).  Its four collective operations take the
    context and the two arrays they were handed and leave them in a new
    state; what they compute depends on the other ranks and is not
    constrained here. The forward operations take (context, local,
    ghost) and the reverse ones (context, ghost, local, op), as in the
    calls; all four return (context, local, ghost). *)
Record TACSBVecDistribute := {
  dist_getDim : Z;
  dist_getIndices : TACSBVecIndices;
  createCtx : Z -> TACSBVecDistCtx;
  beginForward : TACSBVecDistCtx -> list T -> list T ->
                 TACSBVecDistCtx * list T * list T;
  endForward : TACSBVecDistCtx -> list T -> list T ->
               TACSBVecDistCtx * list T * list T;
  beginReverse : TACSBVecDistCtx -> list T -> list T -> TACSBVecOperation ->
                 TACSBVecDistCtx * list T * list T;
  endReverse : TACSBVecDistCtx -> list T -> list T -> TACSBVecOperation ->
               TACSBVecDistCtx * list T * list T
}.

(** The vector of one rank. A null pointer is [None]. *)
Record TACSBVec := {
  comm : MPI_Comm;
  var_map : option TACSVarMap;
  bcs : option TACSBcMap;
  bsize : Z;
  size : Z;
  x : list T;
  ext_dist : option TACSBVecDistribute;
  ext_indices : option TACSBVecIndices;
  ext_ctx : option TACSBVecDistCtx;
  ext_size : Z;
  x_ext : option (list T);
  dep_nodes : option TACSBVecDepNodes;
  dep_size : Z;
  x_dep : option (list T)
}.

Definition set_x (v : TACSBVec) (a : list T) : TACSBVec :=
  {| comm := comm v; var_map := var_map v; bcs := bcs v; bsize := bsize v;
     size := size v; x := a; ext_dist := ext_dist v;
     ext_indices := ext_indices v; ext_ctx := ext_ctx v;
     ext_size := ext_size v; x_ext := x_ext v; dep_nodes := dep_nodes v;
     dep_size := dep_size v; x_dep := x_dep v |}.

Definition set_x_ext (v : TACSBVec) (a : list T) : TACSBVec :=
  {| comm := comm v; var_map := var_map v; bcs := bcs v; bsize := bsize v;
     size := size v; x := x v; ext_dist := ext_dist v;
     ext_indices := ext_indices v; ext_ctx := ext_ctx v;
     ext_size := ext_size v; x_ext := Some a; dep_nodes := dep_nodes v;
     dep_size := dep_size v; x_dep := x_dep v |}.

Definition set_x_dep (v : TACSBVec) (a : list T) : TACSBVec :=
  {| comm := comm v; var_map := var_map v; bcs := bcs v; bsize := bsize v;
     size := size v; x := x v; ext_dist := ext_dist v;
     ext_indices := ext_indices v; ext_ctx := ext_ctx v;
     ext_size := ext_size v; x_ext := x_ext v; dep_nodes := dep_nodes v;
     dep_size := dep_size v; x_dep := Some a |}.

Definition set_ext_ctx (v : TACSBVec) (c : TACSBVecDistCtx) : TACSBVec :=
  {| comm := comm v; var_map := var_map v; bcs := bcs v; bsize := bsize v;
     size := size v; x := x v; ext_dist := ext_dist v;
     ext_indices := ext_indices v; ext_ctx := Some c;
     ext_size := ext_size v; x_ext := x_ext v; dep_nodes := dep_nodes v;
     dep_size := dep_size v; x_dep := x_dep v |}.

(** A peer handed over as the abstract [TACSVec]: a block vector, or a
    vector of another class. The methods only read the peer, so it is
    passed by value; when the peer is the vector itself, every entry
    is read before it is written and the result is the same. *)
Inductive TACSVec := BVec (vec : TACSBVec) | ForeignVec.

Definition dynamic_cast (tvec : TACSVec) : option TACSBVec :=
  match tvec with BVec vec => Some vec | ForeignVec => None end.

(** ** Helpers shared by the methods *)

(** [new TacsScalar[n]] followed by [memset(.., 0, ..)]; a negative
    length makes [new] throw. *)
Definition new_zeroed (n : Z) : option (list T) :=
  if decide (0 <= n) then Some (replicate (Z.to_nat n) zero) else None.

(** [memset(a, 0, n*sizeof(TacsScalar))]. *)
Definition memset_zero (a : list T) (n : Z) : option (list T) :=
  if decide (0 <= n <= Z.of_nat (length a))
  then Some (replicate (Z.to_nat n) zero ++ drop (Z.to_nat n) a) else None.

(** [g >= owner_range[rank] && g < owner_range[rank+1]], the second
    bound being read only when the first test passes. *)
Definition owned (owner_range : list Z) (rank g : Z) : option bool :=
  lo ← aget owner_range rank;
  if decide (lo <= g)
  then hi ← aget owner_range (rank + 1); Some (bool_decide (g < hi))
  else Some false.

(** Modelled from the spec: [getDim], the number of nodes the rank
    owns, [owner_range[r+1] - owner_range[r]]. *)
Definition getDim (map : TACSVarMap) : option Z :=
  let rank := comm_rank (getMPIComm map) in
  lo ← aget (getOwnerRange map) rank;
  hi ← aget (getOwnerRange map) (rank + 1);
  Some (hi - lo).

(** [TACSBcMap(num_bcs)]: no record, and [var_ptr[0] = 0]. *)
Definition TACSBcMap_new (num_bcs : Z) : TACSBcMap :=
  {| nbcs := 0; bc_local := []; bc_global := []; var_ptr := [0];
     vars := []; values := [] |}.

(** A write into the written part of an array, or directly behind
    it. *)
Definition awrite {A} (a : list A) (i : Z) (v : A) : option (list A) :=
  if decide (i = Z.of_nat (length a)) then Some (a ++ [v]) else aset a i v.

(** [addBC]; [bc_vals] may be null, and the values are then zero. *)
Definition addBC (local_var global_var : Z) (bc_nums : list Z)
    (bc_vals : option (list T)) (_nvals : Z) (bc : TACSBcMap)
    : option TACSBcMap :=
  local' ← awrite (bc_local bc) (nbcs bc) local_var;
  global' ← awrite (bc_global bc) (nbcs bc) global_var;
  first ← aget (var_ptr bc) (nbcs bc);
  var_ptr' ← awrite (var_ptr bc) (nbcs bc + 1) (first + _nvals);
  '(vars', values') ←
    for_range 0 _nvals (fun k '(vars', values') =>
      let i := first + k in
      num ← aget bc_nums k;
      vars' ← awrite vars' i num;
      val ← match bc_vals with
            | Some vals => aget vals k
            | None => Some zero
            end;
      values' ← awrite values' i val;
      Some (vars', values')) (vars bc, values bc);
  Some {| nbcs := nbcs bc + 1; bc_local := local'; bc_global := global';
          var_ptr := var_ptr'; vars := vars'; values := values' |}.

(** [getBCs]: the arrays, and the count as the result. *)
Definition getBCs (bc : TACSBcMap)
    : list Z * list Z * list Z * list Z * list T * Z :=
  (bc_local bc, bc_global bc, var_ptr bc, vars bc, values bc, nbcs bc).

(** [getDepNodes]. *)
Definition getDepNodes (dn : TACSBVecDepNodes)
    : list Z * list Z * list T * Z :=
  (dep_ptr dn, dep_conn dn, dep_weights dn, ndep_nodes dn).

(** The BLAS level 1 routines the real build calls, with unit strides,
    by their reference semantics on the first [n] entries. *)
Definition BLASdot (n : Z) (a b : list T) : option T :=
  for_range 0 n (fun i res =>
    ai ← aget a i; bi ← aget b i; Some (add res (mul ai bi))) zero.

Definition BLASnrm2 (n : Z) (a : list T) : option T :=
  d ← BLASdot n a a; Some (sqrt d).

(** [axpy] returns at once when [alpha] is zero, and then reads
    neither array. *)
Definition BLASaxpy (n : Z) (alpha : T) (a y : list T) : option (list T) :=
  if is_zero alpha then Some y
  else for_range 0 n (fun i y =>
         ai ← aget a i; yi ← aget y i; aset y i (add (mul alpha ai) yi)) y.

Definition BLAScopy (n : Z) (a y : list T) : option (list T) :=
  for_range 0 n (fun i y => ai ← aget a i; aset y i ai) y.

(** [MPI_Allreduce(.., MPI_SUM, comm)] of one scalar per rank. *)
Definition MPI_Allreduce_SUM (contributions : list T) : T :=
  foldl add zero contributions.

(** ** Construction *)

(** [TACSBVec(map, bsize, bcs, ext_dist, dep_nodes)]. *)
Definition TACSBVec_new (map : TACSVarMap) (_bsize : Z)
    (_bcs : option TACSBcMap) (_ext_dist : option TACSBVecDistribute)
    (_dep_nodes : option TACSBVecDepNodes) : option TACSBVec :=
  dim ← getDim map;
  let size := _bsize * dim in
  x ← new_zeroed size;
  '(ext_indices, ext_ctx, ext_size, x_ext) ←
    match _ext_dist with
    | Some d =>
        let ext_size := _bsize * dist_getDim d in
        x_ext ← new_zeroed ext_size;
        Some (Some (dist_getIndices d), Some (createCtx d _bsize),
              ext_size, Some x_ext)
    | None => Some (None, None, 0, None)
    end;
  '(dep_size, x_dep) ←
    match _dep_nodes with
    | Some dn =>
        let '(_, _, _, ndep) := getDepNodes dn in
        let dep_size := _bsize * ndep in
        x_dep ← new_zeroed dep_size;
        Some (dep_size, Some x_dep)
    | None => Some (0, None)
    end;
  Some {| comm := getMPIComm map; var_map := Some map; bcs := _bcs;
          bsize := _bsize; size := size; x := x; ext_dist := _ext_dist;
          ext_indices := ext_indices; ext_ctx := ext_ctx;
          ext_size := ext_size; x_ext := x_ext; dep_nodes := _dep_nodes;
          dep_size := dep_size; x_dep := x_dep |}.

(** [TACSBVec(comm, size, bsize)], without a map. The constructor leaves
    [ext_indices] unset; it is taken as null. *)
Definition TACSBVec_new_comm (_comm : MPI_Comm) (_size _bsize : Z)
    : option TACSBVec :=
  x ← new_zeroed _size;
  Some {| comm := _comm; var_map := None; bcs := None; bsize := _bsize;
          size := _size; x := x; ext_dist := None; ext_indices := None;
          ext_ctx := None; ext_size := 0; x_ext := None; dep_nodes := None;
          dep_size := 0; x_dep := None |}.

(** ** Algebraic primitives

    [TacsAddFlops] only advances a global operation counter and is left
    out. *)

(** [norm], up to the reduction: the value [res] the rank contributes. *)
Definition norm_res (v : TACSBVec) : option T :=
  if TACS_USE_COMPLEX then
    let rem := Z.rem (size v) 4 in
    res ← for_range 0 rem (fun i res =>
             y0 ← aget (x v) i; Some (add res (mul y0 y0))) zero;
    for_range4 (Z.max 0 rem) (size v) (fun i res =>
      y0 ← aget (x v) i; y1 ← aget (x v) (i + 1);
      y2 ← aget (x v) (i + 2); y3 ← aget (x v) (i + 3);
      Some (add res (add (add (add (mul y0 y0) (mul y1 y1)) (mul y2 y2))
                         (mul y3 y3)))) res
  else
    res ← BLASnrm2 (size v) (x v); Some (mul res res).

(** [norm] is collective: every rank contributes [res] and returns the
    square root of the sum. *)
Definition norm (world : list TACSBVec) : option T :=
  contributions ← mapM norm_res world;
  Some (sqrt (MPI_Allreduce_SUM contributions)).

(** What a rank does in [dot] before it returns or reduces. *)
Inductive dot_step :=
  | dot_return (sum : T)
  | dot_allreduce (res : T).

Definition dot_local (v : TACSBVec) (tvec : TACSVec) : option dot_step :=
  let sum := zero in
  match dynamic_cast tvec with
  | Some vec =>
      if decide (size vec ≠ size v) then Some (dot_return zero)
      else
        res ← (if TACS_USE_COMPLEX then
                 let rem := Z.rem (size v) 4 in
                 res ← for_range 0 rem (fun i res =>
                          y0 ← aget (x v) i; z0 ← aget (x vec) i;
                          Some (add res (mul y0 z0))) zero;
                 for_range4 (Z.max 0 rem) (size v) (fun i res =>
                   y0 ← aget (x v) i; z0 ← aget (x vec) i;
                   y1 ← aget (x v) (i + 1); z1 ← aget (x vec) (i + 1);
                   y2 ← aget (x v) (i + 2); z2 ← aget (x vec) (i + 2);
                   y3 ← aget (x v) (i + 3); z3 ← aget (x vec) (i + 3);
                   Some (add res (add (add (add (mul y0 z0) (mul y1 z1))
                                           (mul y2 z2)) (mul y3 z3)))) res
               else BLASdot (size v) (x v) (x vec));
        Some (dot_allreduce res)
  | None => Some (dot_return sum)
  end.

(** [dot] on every rank at once, each with its own peer; the result is
    the value returned on rank [r]. A rank that reaches the reduction
    returns only if every rank reaches it. *)
Definition dot (world : list (TACSBVec * TACSVec)) (r : Z) : option T :=
  steps ← mapM (fun p => dot_local p.1 p.2) world;
  step ← aget steps r;
  match step with
  | dot_return sum => Some sum
  | dot_allreduce _ =>
      contributions ← mapM (fun s => match s with
                                     | dot_allreduce res => Some res
                                     | dot_return _ => None
                                     end) steps;
      Some (MPI_Allreduce_SUM contributions)
  end.

(** [y = alpha*x + y]. *)
Definition axpy (alpha : T) (tvec : TACSVec) (v : TACSBVec)
    : option TACSBVec :=
  match dynamic_cast tvec with
  | Some vec =>
      if decide (size vec ≠ size v) then Some v
      else x' ← BLASaxpy (size v) alpha (x vec) (x v); Some (set_x v x')
  | None => Some v
  end.

(** [x <- alpha*vec + beta*x]. *)
Definition axpby (alpha beta : T) (tvec : TACSVec) (v : TACSBVec)
    : option TACSBVec :=
  match dynamic_cast tvec with
  | Some vec =>
      if decide (size vec ≠ size v) then Some v
      else
        let rem := Z.rem (size v) 4 in
        let upd (i : Z) (y : list T) : option (list T) :=
          yi ← aget y i; zi ← aget (x vec) i;
          aset y i (add (mul beta yi) (mul alpha zi)) in
        y ← for_range 0 rem upd (x v);
        y ← for_range4 (Z.max 0 rem) (size v) (fun i y =>
               y ← upd i y; y ← upd (i + 1) y; y ← upd (i + 2) y;
               upd (i + 3) y) y;
        Some (set_x v y)
  | None => Some v
  end.

(** [x <- vec->x]. *)
Definition copyValues (tvec : TACSVec) (v : TACSBVec) : option TACSBVec :=
  match dynamic_cast tvec with
  | Some vec =>
      if decide (size vec ≠ size v) then Some v
      else x' ← BLAScopy (size v) (x vec) (x v); Some (set_x v x')
  | None => Some v
  end.

(** [zeroEntries]. *)
Definition zeroEntries (v : TACSBVec) : option TACSBVec :=
  x' ← memset_zero (x v) (size v);
  let v := set_x v x' in
  v ← match x_ext v with
      | Some xe => xe' ← memset_zero xe (ext_size v); Some (set_x_ext v xe')
      | None => Some v
      end;
  match x_dep v with
  | Some xd => xd' ← memset_zero xd (dep_size v); Some (set_x_dep v xd')
  | None => Some v
  end.

(** [lower + ((upper - lower)*rand())/(1.0*RAND_MAX)] for the draw [r]. *)
Definition rand_value (lower upper : T) (r : Z) : T :=
  add lower (div (mul (sub upper lower) (of_int r))
                 (mul (of_int 1) (of_int RAND_MAX))).

(** [for (i = 0; i < size; i++) x[i] = ..rand()..]. *)
Definition fill_rand (lower upper : T) (v : TACSBVec) (seed : RandState)
    : option (TACSBVec * RandState) :=
  '(a, s) ← for_range 0 (size v) (fun i '(a, s) =>
               let '(r, s') := rand s in
               a' ← aset a i (rand_value lower upper r); Some (a', s'))
             (x v, seed);
  Some (set_x v a, s).

(** [setRand]; the state of the generator is threaded through. *)
Definition setRand (lower upper : T) (v : TACSBVec) (seed : RandState)
    : option (TACSBVec * RandState) :=
  match var_map v with
  | None => fill_rand lower upper v seed
  | Some vm =>
      let mpi_size := comm_size (comm v) in
      let mpi_rank := comm_rank (comm v) in
      let owner_range := getOwnerRange vm in
      for_range 0 mpi_size (fun k '(v, s) =>
        if decide (k ≠ mpi_rank) then
          hi ← aget owner_range (k + 1);
          let end_ := bsize v * hi in
          lo ← aget owner_range k;
          s' ← for_range (bsize v * lo) end_ (fun _ s => Some (rand s).2) s;
          Some (v, s')
        else fill_rand lower upper v s) (v, seed)
  end.

(** [applyBCs]. The test [bcs && x] is the test on [bcs]: [x] is never
    null. *)
Definition applyBCs (v : TACSBVec) : option TACSBVec :=
  match bcs v with
  | Some bc =>
      let mpi_rank := comm_rank (comm v) in
      vm ← var_map v;
      let owner_range := getOwnerRange vm in
      let '(_, global, var_ptr_, vars_, _, nbcs_) := getBCs bc in
      x' ← for_range 0 nbcs_ (fun i a =>
              g ← aget global i;
              own ← owned owner_range mpi_rank g;
              if own : bool then
                lo ← aget owner_range mpi_rank;
                let var := bsize v * (g - lo) in
                k0 ← aget var_ptr_ i;
                k1 ← aget var_ptr_ (i + 1);
                for_range k0 k1 (fun k a =>
                  vk ← aget vars_ k; aset a (var + vk) zero) a
              else Some a) (x v);
      Some (set_x v x')
  | None => Some v
  end.

(** ** File input *)

(** A vector file: the [int] header, absent when the file is shorter
    than the header, then the scalars. *)
Record TacsFile := { file_header : option Z; file_values : list T }.

(** [MPI_File_read_at_all] through the view that starts after the
    header: up to [count] scalars from [offset] on are copied to the
    front of the buffer, fewer when the file ends before. *)
Definition MPI_File_read_at_all (f : TacsFile) (offset : Z) (buf : list T)
    (count : Z) : option (list T) :=
  if decide (0 <= offset /\ 0 <= count <= Z.of_nat (length buf)) then
    let data := take (Z.to_nat count)
                     (drop (Z.to_nat offset) (file_values f)) in
    Some (data ++ drop (length data) buf)
  else None.

(** [readFromFile]. [fs] maps a name to the file [MPI_File_open] finds
    under it, [sizes] is what [MPI_Allgather] delivers: the local size
    of every rank. The result carries [fail]. *)
Definition readFromFile (fs : string -> option TacsFile) (sizes : list Z)
    (filename : string) (v : TACSBVec) : option (Z * TACSBVec) :=
  let mpi_rank := comm_rank (comm v) in
  let mpi_size := comm_size (comm v) in
  range ← for_range 0 mpi_size (fun i range =>
             a ← aget range (i + 1); b ← aget range i;
             aset range (i + 1) (a + b)) (0 :: sizes);
  let fail := 0 in
  match fs filename with
  | Some fp =>
      let len := default 0 (file_header fp) in
      total ← aget range mpi_size;
      a ← (if decide (len ≠ total) then memset_zero (x v) (size v)
           else Some (x v));
      offset ← aget range mpi_rank;
      a ← MPI_File_read_at_all fp offset a (size v);
      Some (fail, set_x v a)
  | None => Some (1, v)
  end.

(** ** Scatter, gather and the assembly protocol *)

(** [for (k = 0; k < bsize; k++, vals++, y++) y[0] = vals[0];] with
    [y = &a[base]] and [vals] at the cursor [vp]; the new cursor is
    returned with the array. *)
Definition block_insert (bsize : Z) (vals : list T) (a : list T)
    (base vp : Z) : option (list T * Z) :=
  for_range 0 bsize (fun k '(a, vp) =>
    val ← aget vals vp; a' ← aset a (base + k) val; Some (a', vp + 1))
  (a, vp).

(** The same loop with [y[0] += vals[0]]. *)
Definition block_add (bsize : Z) (vals : list T) (a : list T)
    (base vp : Z) : option (list T * Z) :=
  for_range 0 bsize (fun k '(a, vp) =>
    yv ← aget a (base + k); val ← aget vals vp;
    a' ← aset a (base + k) (add yv val); Some (a', vp + 1))
  (a, vp).

(** [setValues]. *)
Definition setValues (n : Z) (index : list Z) (vals : list T)
    (op : TACSBVecOperation) (v : TACSBVec) : option TACSBVec :=
  let rank := comm_rank (comm v) in
  vm ← var_map v;
  let owner_range := getOwnerRange vm in
  fst <$> for_range 0 n (fun i '(v, vp) =>
    g ← aget index i;
    own ← owned owner_range rank g;
    if own : bool then
      lo ← aget owner_range rank;
      let x_index := bsize v * (g - lo) in
      '(y, vp) ← match op with
                 | INSERT_VALUES => block_insert (bsize v) vals (x v) x_index vp
                 | ADD_VALUES => block_add (bsize v) vals (x v) x_index vp
                 end;
      Some (set_x v y, vp)
    else if decide (g < 0) then
      let dep_index := - bsize v * (g + 1) in
      xd ← x_dep v;
      '(y, vp) ← match op with
                 | INSERT_VALUES => block_insert (bsize v) vals xd dep_index vp
                 | ADD_VALUES => block_add (bsize v) vals xd dep_index vp
                 end;
      Some (set_x_dep v y, vp)
    else
      ei ← ext_indices v;
      let ext_index := bsize v * findIndex ei g in
      xe ← x_ext v;
      '(y, vp) ← match op with
                 | INSERT_VALUES => block_add (bsize v) vals xe ext_index vp
                 | ADD_VALUES => block_add (bsize v) vals xe ext_index vp
                 end;
      Some (set_x_ext v y, vp)) (v, 0).

(** [for (k = 0; k < bsize; k++, y++) y[0] += dep_weights[jp]*z[k];]
    with [y = &a[base]] and [z = &xd[zoff]]. *)
Definition dep_scatter_block (bsize : Z) (weights : list T) (jp : Z)
    (xd : list T) (zoff : Z) (a : list T) (base : Z) : option (list T) :=
  for_range 0 bsize (fun k a =>
    yv ← aget a (base + k); w ← aget weights jp; zk ← aget xd (zoff + k);
    aset a (base + k) (add yv (mul w zk))) a.

(** The first half of [beginSetValues]: the dependent contributions
    are added to their parents. [z] advances by [bsize] with [i], so it
    is [&x_dep[bsize*i]] in iteration [i]. *)
Definition collapse_dependents (dn : TACSBVecDepNodes) (vm : TACSVarMap)
    (v : TACSBVec) : option TACSBVec :=
  let rank := comm_rank (comm v) in
  let owner_range := getOwnerRange vm in
  let '(dep_ptr_, dep_conn_, dep_weights_, ndep) := getDepNodes dn in
  xd ← x_dep v;
  for_range 0 ndep (fun i v =>
    let z := bsize v * i in
    jp0 ← aget dep_ptr_ i;
    jp1 ← aget dep_ptr_ (i + 1);
    for_range jp0 jp1 (fun jp v =>
      c ← aget dep_conn_ jp;
      own ← owned owner_range rank c;
      if own : bool then
        lo ← aget owner_range rank;
        let x_index := bsize v * (c - lo) in
        y ← dep_scatter_block (bsize v) dep_weights_ jp xd z (x v) x_index;
        Some (set_x v y)
      else
        ei ← ext_indices v;
        let ext_index := bsize v * findIndex ei c in
        xe ← x_ext v;
        y ← dep_scatter_block (bsize v) dep_weights_ jp xd z xe ext_index;
        Some (set_x_ext v y)) v) v.

(** The call of a plan operation on the ghost and local arrays of the
    vector. *)
Definition run_plan (v : TACSBVec)
    (operation : TACSBVecDistribute -> TACSBVecDistCtx -> list T -> list T ->
                 TACSBVecDistCtx * list T * list T)
    : option TACSBVec :=
  match ext_dist v with
  | Some d =>
      ctx ← ext_ctx v;
      xe ← x_ext v;
      let '(ctx', x', xe') := operation d ctx (x v) xe in
      Some (set_ext_ctx (set_x_ext (set_x v x') xe') ctx')
  | None => Some v
  end.

(** [beginSetValues]. *)
Definition beginSetValues (op : TACSBVecOperation) (v : TACSBVec)
    : option TACSBVec :=
  vm ← var_map v;
  v ← match dep_nodes v, op with
      | Some dn, ADD_VALUES => collapse_dependents dn vm v
      | _, _ => Some v
      end;
  run_plan v (fun d ctx x xe => beginReverse d ctx xe x op).

(** [endSetValues]. *)
Definition endSetValues (op : TACSBVecOperation) (v : TACSBVec)
    : option TACSBVec :=
  v ← run_plan v (fun d ctx x xe => endReverse d ctx xe x op);
  match x_ext v with
  | Some xe => xe' ← memset_zero xe (ext_size v); Some (set_x_ext v xe')
  | None => Some v
  end.

(** [beginDistributeValues]. *)
Definition beginDistributeValues (v : TACSBVec) : option TACSBVec :=
  run_plan v beginForward.

(** [for (k = 0; k < bsize; k++, y++) z[k] += dep_weights[jp]*y[0];]
    with [y = &a[base]] and [z = &xd[zoff]]. *)
Definition dep_gather_block (bsize : Z) (weights : list T) (jp : Z)
    (a : list T) (base : Z) (xd : list T) (zoff : Z) : option (list T) :=
  for_range 0 bsize (fun k xd =>
    zk ← aget xd (zoff + k); w ← aget weights jp; yv ← aget a (base + k);
    aset xd (zoff + k) (add zk (mul w yv))) xd.

(** The second half of [endDistributeValues]: every dependent node is
    evaluated from its parents. *)
Definition evaluate_dependents (dn : TACSBVecDepNodes) (v : TACSBVec)
    : option TACSBVec :=
  let rank := comm_rank (comm v) in
  vm ← var_map v;
  let owner_range := getOwnerRange vm in
  let '(dep_ptr_, dep_conn_, dep_weights_, ndep) := getDepNodes dn in
  xd ← x_dep v;
  xd ← for_range 0 ndep (fun i xd =>
    let z := bsize v * i in
    xd ← for_range 0 (bsize v) (fun k xd => aset xd (z + k) zero) xd;
    jp0 ← aget dep_ptr_ i;
    jp1 ← aget dep_ptr_ (i + 1);
    for_range jp0 jp1 (fun jp xd =>
      c ← aget dep_conn_ jp;
      own ← owned owner_range rank c;
      if own : bool then
        lo ← aget owner_range rank;
        let x_index := bsize v * (c - lo) in
        dep_gather_block (bsize v) dep_weights_ jp (x v) x_index xd z
      else
        ei ← ext_indices v;
        let ext_index := bsize v * findIndex ei c in
        xe ← x_ext v;
        dep_gather_block (bsize v) dep_weights_ jp xe ext_index xd z) xd) xd;
  Some (set_x_dep v xd).

(** [endDistributeValues]. *)
Definition endDistributeValues (v : TACSBVec) : option TACSBVec :=
  v ← run_plan v endForward;
  match dep_nodes v with
  | Some dn => evaluate_dependents dn v
  | None => Some v
  end.

(** [for (k = 0; k < bsize; k++, vals++, y++) vals[0] = y[0];] with
    [y = &a[base]] and the output [vals] at the cursor [vp]. *)
Definition block_read (bsize : Z) (a : list T) (base : Z) (vals : list T)
    (vp : Z) : option (list T * Z) :=
  for_range 0 bsize (fun k '(vals, vp) =>
    yv ← aget a (base + k); vals' ← aset vals vp yv; Some (vals', vp + 1))
  (vals, vp).

(** [getValues]; the result is the output array [vals]. *)
Definition getValues (n : Z) (index : list Z) (vals : list T)
    (v : TACSBVec) : option (list T) :=
  let rank := comm_rank (comm v) in
  vm ← var_map v;
  let owner_range := getOwnerRange vm in
  fst <$> for_range 0 n (fun i '(vals, vp) =>
    g ← aget index i;
    own ← owned owner_range rank g;
    if own : bool then
      lo ← aget owner_range rank;
      let x_index := bsize v * (g - lo) in
      block_read (bsize v) (x v) x_index vals vp
    else if decide (g < 0) then
      let dep_index := - bsize v * (g + 1) in
      xd ← x_dep v;
      block_read (bsize v) xd dep_index vals vp
    else
      ei ← ext_indices v;
      let ext_index := bsize v * findIndex ei g in
      xe ← x_ext v;
      block_read (bsize v) xe ext_index vals vp) (vals, 0).

(** ** The remaining methods *)

(** [getSize] and [getArray]. *)
Definition getSize (v : TACSBVec) : Z := size v.

Definition getArray (v : TACSBVec) : list T * Z := (x v, size v).

(** [BLASscal], by its reference semantics with unit stride. *)
Definition BLASscal (n : Z) (alpha : T) (a : list T) : option (list T) :=
  for_range 0 n (fun i a => ai ← aget a i; aset a i (mul alpha ai)) a.

(** [scale]. *)
Definition scale (alpha : T) (v : TACSBVec) : option TACSBVec :=
  x' ← BLASscal (size v) alpha (x v); Some (set_x v x').

(** [set]; the chained assignment [y[0] = y[1] = y[2] = y[3] = val]
    stores from right to left. *)
Definition set (val : T) (v : TACSBVec) : option TACSBVec :=
  let rem := Z.rem (size v) 4 in
  y ← for_range 0 rem (fun i y => aset y i val) (x v);
  y ← for_range4 (Z.max 0 rem) (size v) (fun i y =>
         y ← aset y (i + 3) val; y ← aset y (i + 2) val;
         y ← aset y (i + 1) val; aset y i val) y;
  Some (set_x v y).

(** [mdot] on one rank, up to the reduction: entry [k] of [ans] is
    zeroed, and then set to the local product when the peer is a block
    vector of the same size. *)
Definition mdot_local (v : TACSBVec) (tvec : list TACSVec) (ans : list T)
    (nvecs : Z) : option (list T) :=
  for_range 0 nvecs (fun k ans =>
    ans ← aset ans k zero;
    tv ← aget tvec k;
    match dynamic_cast tv with
    | Some vec =>
        if decide (size vec ≠ size v) then Some ans
        else
          res ← (if TACS_USE_COMPLEX then
                   let rem := Z.rem (size v) 4 in
                   res ← for_range 0 rem (fun i res =>
                            y0 ← aget (x v) i; z0 ← aget (x vec) i;
                            Some (add res (mul y0 z0))) zero;
                   for_range4 (Z.max 0 rem) (size v) (fun i res =>
                     y0 ← aget (x v) i; z0 ← aget (x vec) i;
                     y1 ← aget (x v) (i + 1); z1 ← aget (x vec) (i + 1);
                     y2 ← aget (x v) (i + 2); z2 ← aget (x vec) (i + 2);
                     y3 ← aget (x v) (i + 3); z3 ← aget (x vec) (i + 3);
                     Some (add res (add (add (add (mul y0 z0) (mul y1 z1))
                                             (mul y2 z2)) (mul y3 z3)))) res
                 else BLASdot (size v) (x v) (x vec));
          aset ans k res
    | None => Some ans
    end) ans.

(** [MPI_Allreduce(MPI_IN_PLACE, ans, n, .., MPI_SUM, comm)]: the sums,
    entry by entry, of the first [n] entries of the buffers of the
    ranks. *)
Definition MPI_Allreduce_SUM_n (n : Z) (bufs : list (list T))
    : option (list T) :=
  mapM (fun k => column ← mapM (fun buf => aget buf k) bufs;
                 Some (MPI_Allreduce_SUM column)) (seqZ 0 n).

(** [mdot] on every rank at once, each with its peers and its output
    array; the result is the output array of rank [r]. *)
Definition mdot (world : list (TACSBVec * list TACSVec * list T))
    (nvecs r : Z) : option (list T) :=
  bufs ← mapM (fun p => mdot_local p.1.1 p.1.2 p.2 nvecs) world;
  sums ← MPI_Allreduce_SUM_n nvecs bufs;
  ans ← aget bufs r;
  Some (sums ++ drop (length sums) ans).

(** [MPI_File_write_at_all] through the view that starts after the
    header: [count] scalars of the buffer replace the scalars of the
    file from [offset] on, the file growing as needed; a hole before
    [offset] reads as zero bytes. *)
Definition MPI_File_write_at_all (f : TacsFile) (offset : Z) (buf : list T)
    (count : Z) : option TacsFile :=
  if decide (0 <= offset /\ 0 <= count <= Z.of_nat (length buf)) then
    let old := file_values f in
    let hole := replicate (Z.to_nat offset - length old) zero in
    Some {| file_header := file_header f;
            file_values := take (Z.to_nat offset) (old ++ hole)
                           ++ take (Z.to_nat count) buf
                           ++ drop (Z.to_nat (offset + count)) old |}
  else None.

(** [writeToFile] on one rank. [fs] maps a name to the file
    [MPI_File_open] opens or creates under it; the result carries
    [fail] and the file as the rank leaves it. *)
Definition writeToFile (fs : string -> option TacsFile) (sizes : list Z)
    (filename : string) (v : TACSBVec) : option (Z * option TacsFile) :=
  let mpi_rank := comm_rank (comm v) in
  let mpi_size := comm_size (comm v) in
  range ← for_range 0 mpi_size (fun i range =>
             a ← aget range (i + 1); b ← aget range i;
             aset range (i + 1) (a + b)) (0 :: sizes);
  let fail := 0 in
  match fs filename with
  | Some fp =>
      fp ← (if decide (mpi_rank = 0) then
              total ← aget range mpi_size;
              Some {| file_header := Some total;
                      file_values := file_values fp |}
            else Some fp);
      offset ← aget range mpi_rank;
      fp ← MPI_File_write_at_all fp offset (x v) (size v);
      Some (fail, Some fp)
  | None => Some (1, None)
  end.

(** [writeToFile] as the collective call it is: the ranks write their
    parts of the one file, which do not overlap; they are taken in
    rank order. *)
Fixpoint writeToFile_ranks (sizes : list Z) (filename : string)
    (ranks : list TACSBVec) (fp : TacsFile) : option TacsFile :=
  match ranks with
  | [] => Some fp
  | v :: rest =>
      '(_, fp') ← writeToFile (fun _ => Some fp) sizes filename v;
      fp' ← fp';
      writeToFile_ranks sizes filename rest fp'
  end.

Definition writeToFile_all (filename : string) (world : list TACSBVec)
    (fp : TacsFile) : option TacsFile :=
  writeToFile_ranks (size <$> world) filename world fp.

End BVec.

Arguments TACSBcMap T : clear implicits.
Arguments TACSBVecDepNodes T : clear implicits.
Arguments TacsFile T : clear implicits.
Arguments dot_step T : clear implicits.
Arguments TACSBVecDistribute T TACSBVecDistCtx : clear implicits.
Arguments TACSBVec T TACSBVecDistCtx : clear implicits.
Arguments TACSVec T TACSBVecDistCtx : clear implicits.

(** ** A two-rank scenario

    Two ranks, block size 2, four global nodes split as [0,2,4]. Rank 0
    ghosts node 3 and rank 1 ghosts node 0; rank 0 has one dependent
    node, the mean of nodes 0 and 3, and one boundary condition that
    pins the first degree of freedom of node 1. The scalars are
    [double]s. *)
Module Scenario.

(** A linear congruential generator in the place of [rand()]. *)
Definition lcg (s : Z) : Z * Z :=
  let s' := (s * 1103515245 + 12345) mod 2147483648 in (s', s').

Definition rand_max : Z := 2147483647.

Definition map (r : Z) : TACSVarMap :=
  {| getMPIComm := {| comm_rank := r; comm_size := 2 |};
     getOwnerRange := [0; 2; 4] |}.

Definition ghost_of (g : Z) : TACSBVecIndices :=
  {| findIndex := fun i => if decide (i = g) then 0 else -1 |}.

(** A plan whose operations leave the arrays as they are: what a rank
    observes when no peer sends it anything. *)
Definition idle_plan (g : Z) : TACSBVecDistribute float unit :=
  {| dist_getDim := 1; dist_getIndices := ghost_of g;
     createCtx := fun _ => tt;
     beginForward := fun c l e => (c, l, e);
     endForward := fun c l e => (c, l, e);
     beginReverse := fun c e l _ => (c, l, e);
     endReverse := fun c e l _ => (c, l, e) |}.

Definition deps : TACSBVecDepNodes float :=
  {| ndep_nodes := 1; dep_ptr := [0; 2]; dep_conn := [0; 3];
     dep_weights := [0.5%float; 0.5%float] |}.

Definition pin : TACSBcMap float :=
  {| nbcs := 1; bc_local := [1]; bc_global := [1]; var_ptr := [0; 1];
     vars := [0]; values := [7%float] |}.

(** Rank 0 with the given contents of its three arrays. *)
Definition rank0 (l e d : list float) : TACSBVec float unit :=
  {| comm := getMPIComm (map 0); var_map := Some (map 0); bcs := Some pin;
     bsize := 2; size := 4; x := l; ext_dist := Some (idle_plan 3);
     ext_indices := Some (ghost_of 3); ext_ctx := Some tt; ext_size := 2;
     x_ext := Some e; dep_nodes := Some deps; dep_size := 2;
     x_dep := Some d |}.

(** Rank 1, which has neither dependent nodes nor conditions. *)
Definition rank1 (l e : list float) : TACSBVec float unit :=
  {| comm := getMPIComm (map 1); var_map := Some (map 1); bcs := None;
     bsize := 2; size := 4; x := l; ext_dist := Some (idle_plan 0);
     ext_indices := Some (ghost_of 0); ext_ctx := Some tt; ext_size := 2;
     x_ext := Some e; dep_nodes := None; dep_size := 0; x_dep := None |}.

(** The same four nodes on a single rank. *)
Definition map1 : TACSVarMap :=
  {| getMPIComm := {| comm_rank := 0; comm_size := 1 |};
     getOwnerRange := [0; 4] |}.

Definition alone (l : list float) : TACSBVec float unit :=
  {| comm := getMPIComm map1; var_map := Some map1; bcs := None;
     bsize := 2; size := 8; x := l; ext_dist := None; ext_indices := None;
     ext_ctx := None; ext_size := 0; x_ext := None; dep_nodes := None;
     dep_size := 0; x_dep := None |}.

(** A vector of one node, too short to be a peer of the others. *)
Definition short : TACSBVec float unit :=
  {| comm := getMPIComm (map 0); var_map := None; bcs := None;
     bsize := 2; size := 2; x := [1%float; 1%float]; ext_dist := None;
     ext_indices := None; ext_ctx := None; ext_size := 0; x_ext := None;
     dep_nodes := None; dep_size := 0; x_dep := None |}.

Definition zeros (n : nat) : list float := replicate n 0%float.

(** A rank of the same partition with real scalars, for the identities
    of exact arithmetic. *)
Definition real_rank (r : Z) (l : list R) : TACSBVec R unit :=
  {| comm := getMPIComm (map r); var_map := Some (map r); bcs := None;
     bsize := 2; size := 4; x := l; ext_dist := None; ext_indices := None;
     ext_ctx := None; ext_size := 0; x_ext := None; dep_nodes := None;
     dep_size := 0; x_dep := None |}.

End Scenario.

(** * The vocabulary of the properties *)

Section Vocabulary.
Context {T : Type} `{TacsScalar T} {TACSBVecDistCtx : Type}.
Context {RandState : Type} (rand : RandState -> Z * RandState).
Variable RAND_MAX : Z.
Implicit Types v : TACSBVec T TACSBVecDistCtx.
Implicit Types tvec : TACSVec T TACSBVecDistCtx.
Implicit Types bc : TACSBcMap T.
Implicit Types dn : TACSBVecDepNodes T.
Implicit Types s : RandState.

(** The rank of [v] owns the nodes [lo .. hi). *)
Definition rank_owns v (lo hi : Z) : Prop :=
  exists vm, var_map v = Some vm /\
    aget (getOwnerRange vm) (comm_rank (comm v)) = Some lo /\
    aget (getOwnerRange vm) (comm_rank (comm v) + 1) = Some hi.

(** [g] is a node of the rank, or a dependent node that has a block
    in the dependent array. *)
Definition owned_or_dependent v (lo hi g : Z) : Prop :=
  lo <= g < hi \/
  (g < 0 /\ exists xd, x_dep v = Some xd /\
             bsize v * (- g) <= Z.of_nat (length xd)).

(** Entry [k] of the block of such a node. *)
Definition node_entry v (lo hi g k : Z) : option T :=
  if decide (lo <= g < hi) then aget (x v) (bsize v * (g - lo) + k)
  else xd ← x_dep v; aget xd (- bsize v * (g + 1) + k).

(** Entry [k] of record [i] addresses the local entry [p]: the record
    is for an owned node [g], [k] lies in its span, and
    [p = B*(g - lo) + vars[k]]. *)
Definition addresses v bc (lo hi i k p : Z) : Prop :=
  exists g k0 k1 vk,
    aget (bc_global bc) i = Some g /\ lo <= g < hi /\
    aget (var_ptr bc) i = Some k0 /\ aget (var_ptr bc) (i + 1) = Some k1 /\
    k0 <= k < k1 /\ aget (vars bc) k = Some vk /\
    p = bsize v * (g - lo) + vk.

(** [p] is a constrained entry of the local array. *)
Definition constrained v bc (lo hi p : Z) : Prop :=
  exists i k, 0 <= i < nbcs bc /\ addresses v bc lo hi i k p.

(** The map can be applied: its arrays hold the records, and every
    entry it addresses is an entry of the local array. *)
Definition bcs_in_bounds v bc (lo hi : Z) : Prop :=
  forall i, 0 <= i < nbcs bc ->
    exists g, aget (bc_global bc) i = Some g /\
      (lo <= g < hi ->
       exists k0 k1, aget (var_ptr bc) i = Some k0 /\
         aget (var_ptr bc) (i + 1) = Some k1 /\
         forall k, k0 <= k < k1 ->
           exists vk, aget (vars bc) k = Some vk /\
             0 <= bsize v * (g - lo) + vk < Z.of_nat (length (x v))).

(** The same map with other stored values. *)
Definition with_values bc (vals : list T) : TACSBcMap T :=
  {| nbcs := nbcs bc; bc_local := bc_local bc; bc_global := bc_global bc;
     var_ptr := var_ptr bc; vars := vars bc; values := vals |}.

Definition set_bcs v (b : option (TACSBcMap T)) : TACSBVec T TACSBVecDistCtx :=
  {| comm := comm v; var_map := var_map v; bcs := b; bsize := bsize v;
     size := size v; x := x v; ext_dist := ext_dist v;
     ext_indices := ext_indices v; ext_ctx := ext_ctx v;
     ext_size := ext_size v; x_ext := x_ext v; dep_nodes := dep_nodes v;
     dep_size := dep_size v; x_dep := x_dep v |}.

(** The state of the local array when the loops have handled the
    entries [(i, k)] in [handled]: what they address is zero, the rest
    is as it was. *)
Definition applied v bc (lo hi : Z) (handled : Z -> Z -> Prop)
    (a : list T) : Prop :=
  length a = length (x v) /\
  (forall p i k, handled i k -> addresses v bc lo hi i k p ->
     aget a p = Some zero) /\
  (forall p, (forall i k, handled i k -> ~ addresses v bc lo hi i k p) ->
     aget a p = aget (x v) p).

(** The generator after [n] calls of [rand()], and the result of the
    call after these. *)
Definition advance (n : Z) s : RandState :=
  Nat.iter (Z.to_nat n) (fun s => (rand s).2) s.

Definition draw s (n : Z) : Z := (rand (advance n s)).1.

(** The scalars made of the draws [m .. m + n) of the stream that
    starts in [s]. *)
Definition drawn (lower upper : T) s (m n : Z) : list T :=
  (fun q => rand_value RAND_MAX lower upper (draw s q)) <$> seqZ m n.

(** [rng] is the partition of the nodes over [P] ranks: [P + 1] bounds
    that start at 0 and do not decrease. *)
Definition partition (rng : list Z) (P : Z) : Prop :=
  Z.of_nat (length rng) = P + 1 /\ aget rng 0 = Some 0 /\
  forall k a b, aget rng k = Some a -> aget rng (k + 1) = Some b -> a <= b.

(** [v] is the vector of rank [r] of [P] for this partition and block
    size [B]. *)
Definition on_rank (B : Z) (rng : list Z) (P r : Z) v : Prop :=
  exists vm lo hi,
    var_map v = Some vm /\ getOwnerRange vm = rng /\
    comm_rank (comm v) = r /\ comm_size (comm v) = P /\ bsize v = B /\
    aget rng r = Some lo /\ aget rng (r + 1) = Some hi /\
    size v = B * (hi - lo) /\ Z.of_nat (length (x v)) = size v.

(** Entry [k] of the block of the parent node [c]: in the local array
    when the rank owns [c], else in the ghost array at the offset
    [findIndex] gives. *)
Definition parent_entry v (lo hi c k : Z) : option T :=
  if decide (lo <= c < hi) then aget (x v) (bsize v * (c - lo) + k)
  else ei ← ext_indices v; xe ← x_ext v;
       aget xe (bsize v * findIndex ei c + k).

(** The block of the parent [c] lies inside its array. *)
Definition parent_in_bounds v (lo hi c : Z) : Prop :=
  if decide (lo <= c < hi)
  then 0 <= bsize v * (c - lo) /\
       bsize v * (c - lo) + bsize v <= Z.of_nat (length (x v))
  else exists ei xe, ext_indices v = Some ei /\ x_ext v = Some xe /\
       0 <= bsize v * findIndex ei c /\
       bsize v * findIndex ei c + bsize v <= Z.of_nat (length xe).

(** The table can be walked: the spans of the dependent nodes are in
    the arrays, every parent has a block, and the dependent array,
    which has [len] entries, holds a block for every dependent node. *)
Definition deps_in_bounds v dn (lo hi : Z) (len : nat) : Prop :=
  0 <= bsize v /\
  bsize v * ndep_nodes dn <= Z.of_nat len /\
  forall i, 0 <= i < ndep_nodes dn ->
    exists jp0 jp1, aget (dep_ptr dn) i = Some jp0 /\
      aget (dep_ptr dn) (i + 1) = Some jp1 /\
      forall jp, jp0 <= jp < jp1 ->
        exists c w, aget (dep_conn dn) jp = Some c /\
          aget (dep_weights dn) jp = Some w /\ parent_in_bounds v lo hi c.

(** The weighted sum of entry [k] of the parents [jps], accumulated
    from zero in this order. *)
Definition weighted_sum v dn (lo hi k : Z) (jps : list Z) : option T :=
  foldl (fun acc jp =>
           s ← acc; w ← aget (dep_weights dn) jp; c ← aget (dep_conn dn) jp;
           y ← parent_entry v lo hi c k; Some (add s (mul w y)))
        (Some zero) jps.

(** The value of entry [k] of the dependent node [i]. *)
Definition dep_value v dn (lo hi i k : Z) : option T :=
  jp0 ← aget (dep_ptr dn) i; jp1 ← aget (dep_ptr dn) (i + 1);
  weighted_sum v dn lo hi k (seqZ jp0 (jp1 - jp0)).

(** The parents of the dependent node [i], and the pairs (dependent
    node, parent entry) the collapse loops visit before node [i], in
    their order. *)
Definition span dn (i : Z) : list Z :=
  match aget (dep_ptr dn) i, aget (dep_ptr dn) (i + 1) with
  | Some jp0, Some jp1 => seqZ jp0 (jp1 - jp0)
  | _, _ => []
  end.

Definition parents_before dn (i : Z) : list (Z * Z) :=
  concat ((fun i' => pair i' <$> span dn i') <$> seqZ 0 i).

(** Where the block of the parent [c] starts, and whether it is in the
    local array. *)
Definition parent_base v (lo hi c : Z) : option (bool * Z) :=
  if decide (lo <= c < hi) then Some (true, bsize v * (c - lo))
  else ei ← ext_indices v; Some (false, bsize v * findIndex ei c).

(** What the pair [(i, jp)] adds to entry [p] of the local array
    ([to_local]) or of the ghost array: [dep_weights[jp]] times the
    entry of the dependent block [i] at the offset of [p] in the block
    of the parent, when [p] lies in that block, and nothing
    otherwise. *)
Definition accumulate v dn (lo hi : Z) (xd : list T) (to_local : bool)
    (p : Z) (acc : option T) (ijp : Z * Z) : option T :=
  match c ← aget (dep_conn dn) ijp.2; parent_base v lo hi c with
  | Some (is_local, base) =>
      if decide (is_local = to_local /\ base <= p < base + bsize v) then
        s ← acc; w ← aget (dep_weights dn) ijp.2;
        z ← aget xd (bsize v * ijp.1 + (p - base));
        Some (add s (mul w z))
      else acc
  | None => acc
  end.

(** Entry [p] after the pairs [pairs], from the entry [init]. *)
Definition collapsed v dn (lo hi : Z) (xd : list T) (to_local : bool)
    (p : Z) (pairs : list (Z * Z)) (init : option T) : option T :=
  foldl (accumulate v dn lo hi xd to_local p) init pairs.

Definition ghost_entry v (p : Z) : option T := xe ← x_ext v; aget xe p.

(** The vector with other local and ghost arrays. *)
Definition set_arrays v (a : list T) (e : option (list T))
    : TACSBVec T TACSBVecDistCtx :=
  {| comm := comm v; var_map := var_map v; bcs := bcs v; bsize := bsize v;
     size := size v; x := a; ext_dist := ext_dist v;
     ext_indices := ext_indices v; ext_ctx := ext_ctx v;
     ext_size := ext_size v; x_ext := e; dep_nodes := dep_nodes v;
     dep_size := dep_size v; x_dep := x_dep v |}.

(** The state of the collapse loops after the pairs [pairs]. *)
Definition collapsed_state v dn (lo hi : Z) (xd : list T)
    (pairs : list (Z * Z)) (v' : TACSBVec T TACSBVecDistCtx) : Prop :=
  exists a e, v' = set_arrays v a e /\
    length a = length (x v) /\ length <$> e = length <$> x_ext v /\
    forall p,
      aget a p = collapsed v dn lo hi xd true p pairs (aget (x v) p) /\
      e ≫= (fun xe => aget xe p)
      = collapsed v dn lo hi xd false p pairs (ghost_entry v p).

(** The entries of an array that has [n] of them are all zero. *)
Definition zeroed (a : list T) (n : Z) : Prop :=
  forall j, 0 <= j < n -> aget a j = Some zero.

(** Every ghost entry is zero; a vector without a plan has none. *)
Definition ghost_zero v : Prop :=
  forall xe, x_ext v = Some xe -> zeroed xe (ext_size v).

Definition local_zero v : Prop := zeroed (x v) (size v).

Definition dep_zero v : Prop :=
  forall xd, x_dep v = Some xd -> zeroed xd (dep_size v).

(** An array that is not null has room for its [n] entries. *)
Definition holds (a : option (list T)) (n : Z) : Prop :=
  forall l, a = Some l -> 0 <= n <= Z.of_nat (length l).

(** The three arrays have room for the sizes the vector records. *)
Definition sized v : Prop :=
  0 <= size v <= Z.of_nat (length (x v)) /\
  holds (x_ext v) (ext_size v) /\ holds (x_dep v) (dep_size v).

(** The peer is not a block vector, or its local size differs. *)
Definition mismatched v tvec : Prop :=
  match dynamic_cast tvec with
  | Some vec => size vec ≠ size v
  | None => True
  end.

(** The peer of [v.dot(v)]. *)
Definition with_itself v
    : TACSBVec T TACSBVecDistCtx * TACSVec T TACSBVecDistCtx :=
  (v, BVec v).

(** [a'] is [a] with its first [n] entries replaced, entry [p] by
    [f p]. *)
Definition replaced_prefix (f : Z -> option T) (n : Z) (a a' : list T)
    : Prop :=
  length a' = length a /\
  forall p, aget a' p = if decide (0 <= p < n) then f p else aget a p.

(** [vec] can be the peer of [v]: the sizes agree and both arrays hold
    that many scalars. *)
Definition matched v (vec : TACSBVec T TACSBVecDistCtx) : Prop :=
  size vec = size v /\ size v <= Z.of_nat (length (x v)) /\
  size v <= Z.of_nat (length (x vec)).

(** The records of a map are consistent: [nbcs] of them, [var_ptr] one
    longer, and its last entry the number of variables and of values
    written. *)
Definition well_formed bc : Prop :=
  0 <= nbcs bc /\
  Z.of_nat (length (bc_local bc)) = nbcs bc /\
  Z.of_nat (length (bc_global bc)) = nbcs bc /\
  Z.of_nat (length (var_ptr bc)) = nbcs bc + 1 /\
  aget (var_ptr bc) (nbcs bc) = Some (Z.of_nat (length (vars bc))) /\
  length (values bc) = length (vars bc).

(** The values of a new record of [n] variables: those given, or
    zeros. *)
Definition record_values (bc_vals : option (list T)) (n : Z) : list T :=
  match bc_vals with
  | Some vals => take (Z.to_nat n) vals
  | None => replicate (Z.to_nat n) zero
  end.

(** The map with one more record behind those it has. *)
Definition with_record bc (local_var global_var : Z) (nums : list Z)
    (vals : list T) : TACSBcMap T :=
  {| nbcs := nbcs bc + 1;
     bc_local := bc_local bc ++ [local_var];
     bc_global := bc_global bc ++ [global_var];
     var_ptr := var_ptr bc ++ [Z.of_nat (length (vars bc ++ nums))];
     vars := vars bc ++ nums;
     values := values bc ++ vals |}.

(** The place in a file of the first entry of rank [k]: the sizes of
    the ranks before it, summed in rank order. *)
Definition file_offset (sizes : list Z) (k : Z) : Z :=
  foldl Z.add 0 (take (Z.to_nat k) sizes).

(** The part of the local array that is the vector. *)
Definition slab v : list T := take (Z.to_nat (size v)) (x v).

(** The vectors of the ranks of one communicator, in rank order, each
    with room for its entries. *)
Definition ranked (world : list (TACSBVec T TACSBVecDistCtx)) : Prop :=
  forall r v, world !! r = Some v ->
    comm_rank (comm v) = Z.of_nat r /\
    comm_size (comm v) = Z.of_nat (length world) /\
    0 <= size v <= Z.of_nat (length (x v)).

(** [sizes] is what the ranks of the communicator of [v] gather: one
    size for each rank, none of them negative, that of [v] at its
    rank. *)
Definition gathered (sizes : list Z) v : Prop :=
  comm_size (comm v) = Z.of_nat (length sizes) /\
  aget sizes (comm_rank (comm v)) = Some (size v) /\
  Forall (fun n => 0 <= n) sizes.

(** What a rank contributes to a dot product with the peer [tv]: the
    local product, or the zero it holds when it gives up on the
    peer. *)
Definition local_product (use_complex : bool) v tvec : option T :=
  step ← dot_local use_complex v tvec;
  Some match step with dot_allreduce res => res | dot_return sum => sum end.

(** A rank in a call of [mdot]: its vector, its peers and its output
    array. The arrays hold [nvecs] entries, and the vector and every
    peer of its size hold that many scalars. *)
Definition mdot_ready (nvecs : Z)
    (p : TACSBVec T TACSBVecDistCtx * list (TACSVec T TACSBVecDistCtx)
         * list T) : Prop :=
  nvecs <= Z.of_nat (length p.1.2) /\ nvecs <= Z.of_nat (length p.2) /\
  size p.1.1 <= Z.of_nat (length (x p.1.1)) /\
  forall k vec, aget p.1.2 k = Some (BVec vec) -> size vec = size p.1.1 ->
    size p.1.1 <= Z.of_nat (length (x vec)).

(** The vectors of the ranks with their peers number [k]. *)
Definition peers_of
    (world : list (TACSBVec T TACSBVecDistCtx
                   * list (TACSVec T TACSBVecDistCtx) * list T)) (k : Z)
    : option (list (TACSBVec T TACSBVecDistCtx * TACSVec T TACSBVecDistCtx)) :=
  mapM (fun p => tv ← aget p.1.2 k; Some (p.1.1, tv)) world.

(** [a'] is [a] with its first [n] entries zero: the same length, and
    the same entries behind them. *)
Definition cleared (n : Z) (a a' : list T) : Prop :=
  replaced_prefix (fun _ => Some zero) n a a'.

(** The same for an array that may be null, and then stays null. *)
Definition cleared_opt (n : Z) (a a' : option (list T)) : Prop :=
  match a, a' with
  | Some l, Some l' => cleared n l l'
  | None, None => True
  | _, _ => False
  end.

(** [v'] is [v] but for the contents of its three arrays: the sizes,
    the map, the plan and all other fields are those of [v]. *)
Definition same_frame v (v' : TACSBVec T TACSBVecDistCtx) : Prop :=
  v' = {| comm := comm v; var_map := var_map v; bcs := bcs v;
          bsize := bsize v; size := size v; x := x v';
          ext_dist := ext_dist v; ext_indices := ext_indices v;
          ext_ctx := ext_ctx v; ext_size := ext_size v; x_ext := x_ext v';
          dep_nodes := dep_nodes v; dep_size := dep_size v;
          x_dep := x_dep v' |}.

(** The ghost array a constructor makes for the plan [ed]: none
    without a plan, else one zero for each ghost scalar of the plan. *)
Definition fresh_ghosts (B : Z)
    (ed : option (TACSBVecDistribute T TACSBVecDistCtx)) v : Prop :=
  match ed with
  | Some d => ext_size v = B * dist_getDim d /\
              x_ext v = Some (replicate (Z.to_nat (B * dist_getDim d)) zero)
  | None => ext_size v = 0 /\ x_ext v = None
  end.

End Vocabulary.

(** * Properties *)

(** ** Arrays and loops *)

Lemma aget_Some_lt {A} (a : list A) i v :
  aget a i = Some v -> 0 <= i < Z.of_nat (length a).
Proof.
  unfold aget. case_decide; [|done]. intros Hl.
  apply lookup_lt_Some in Hl. lia.
Qed.

Lemma aget_is_Some {A} (a : list A) i :
  0 <= i < Z.of_nat (length a) -> exists v, aget a i = Some v.
Proof.
  intros Hi. unfold aget. rewrite decide_True by lia.
  apply lookup_lt_is_Some_2. lia.
Qed.

Lemma aset_length {A} (a a' : list A) i v :
  aset a i v = Some a' -> length a' = length a.
Proof.
  unfold aset. case_decide; [|done]. intros [= <-]. apply length_insert.
Qed.

Lemma aget_aset {A} (a a' : list A) i v p :
  aset a i v = Some a' ->
  aget a' p = if decide (p = i) then Some v else aget a p.
Proof.
  unfold aset. case_decide as Hi; [|done]. intros [= <-]. unfold aget.
  destruct (decide (p = i)) as [->|Hp].
  - rewrite decide_True by lia. apply list_lookup_insert_eq. lia.
  - case_decide; [|done]. apply list_lookup_insert_ne. lia.
Qed.

Lemma aset_is_Some {A} (a : list A) i v :
  0 <= i < Z.of_nat (length a) -> exists a', aset a i v = Some a'.
Proof. intros Hi. unfold aset. rewrite decide_True by lia. eauto. Qed.

(** Loop rules: an invariant carried through the iterations, in a total
    form (the loop returns) and in a partial form. *)
Lemma for_iter_inv {St} (Inv : Z -> St -> Prop) step body n :
  forall i s,
  Inv i s ->
  (forall m s, (m < n)%nat -> Inv (i + Z.of_nat m * step) s ->
     exists s', body (i + Z.of_nat m * step) s = Some s' /\
                Inv (i + Z.of_nat (S m) * step) s') ->
  exists s', for_iter n i step body s = Some s' /\
             Inv (i + Z.of_nat n * step) s'.
Proof.
  induction n as [|n IH]; intros i s Hi Hstep; simpl.
  - exists s. split; [done|]. by replace (i + Z.of_nat 0 * step) with i by lia.
  - destruct (Hstep 0%nat s) as (s1 & Hb & H1); [lia| |].
    { by replace (i + Z.of_nat 0 * step) with i by lia. }
    replace (i + Z.of_nat 0 * step) with i in Hb by lia. rewrite Hb. simpl.
    replace (i + Z.of_nat 1 * step) with (i + step) in H1 by lia.
    destruct (IH (i + step) s1 H1) as (s2 & Hf & H2).
    + intros m s' Hm Hinv.
      replace (i + step + Z.of_nat m * step) with (i + Z.of_nat (S m) * step) in * by lia.
      replace (i + step + Z.of_nat (S m) * step) with (i + Z.of_nat (S (S m)) * step) by lia.
      apply Hstep; [lia|done].
    + exists s2. split; [done|].
      by replace (i + Z.of_nat (S n) * step) with (i + step + Z.of_nat n * step) by lia.
Qed.

Lemma for_iter_partial {St} (Inv : Z -> St -> Prop) step body n :
  forall i s s',
  for_iter n i step body s = Some s' ->
  Inv i s ->
  (forall m s s', (m < n)%nat -> Inv (i + Z.of_nat m * step) s ->
     body (i + Z.of_nat m * step) s = Some s' ->
     Inv (i + Z.of_nat (S m) * step) s') ->
  Inv (i + Z.of_nat n * step) s'.
Proof.
  induction n as [|n IH]; intros i s s' Hrun Hi Hstep; simpl in Hrun.
  - injection Hrun as <-. by replace (i + Z.of_nat 0 * step) with i by lia.
  - destruct (body i s) as [s1|] eqn:Hb; [|done]. simpl in Hrun.
    replace (i + Z.of_nat (S n) * step) with (i + step + Z.of_nat n * step) by lia.
    apply (IH _ _ _ Hrun).
    + replace (i + step) with (i + Z.of_nat 1 * step) by lia.
      apply (Hstep 0%nat s); [lia| |];
        by replace (i + Z.of_nat 0 * step) with i by lia.
    + intros m t t' Hm Hinv Hbody.
      replace (i + step + Z.of_nat m * step) with (i + Z.of_nat (S m) * step) in * by lia.
      replace (i + step + Z.of_nat (S m) * step) with (i + Z.of_nat (S (S m)) * step) by lia.
      by apply (Hstep (S m) t); [lia| |].
Qed.

Lemma for_range_inv {St} (Inv : Z -> St -> Prop) lo hi body s :
  lo <= hi ->
  Inv lo s ->
  (forall i s, lo <= i < hi -> Inv i s ->
     exists s', body i s = Some s' /\ Inv (i + 1) s') ->
  exists s', for_range lo hi body s = Some s' /\ Inv hi s'.
Proof.
  intros Hle H0 Hstep. unfold for_range.
  destruct (for_iter_inv Inv 1 body (Z.to_nat (hi - lo)) lo s H0)
    as (s' & Hrun & Hinv).
  - intros m t Hm Hinv.
    replace (lo + Z.of_nat (S m) * 1) with (lo + Z.of_nat m * 1 + 1) by lia.
    apply Hstep; [lia|done].
  - exists s'. split; [done|].
    by replace (lo + Z.of_nat (Z.to_nat (hi - lo)) * 1) with hi in Hinv by lia.
Qed.

Lemma for_range_partial {St} (Inv : Z -> St -> Prop) lo hi body s s' :
  lo <= hi ->
  for_range lo hi body s = Some s' ->
  Inv lo s ->
  (forall i s s', lo <= i < hi -> Inv i s -> body i s = Some s' ->
     Inv (i + 1) s') ->
  Inv hi s'.
Proof.
  intros Hle Hrun H0 Hstep. unfold for_range in Hrun.
  replace hi with (lo + Z.of_nat (Z.to_nat (hi - lo)) * 1) by lia.
  apply (for_iter_partial Inv 1 body _ lo s s' Hrun H0).
  intros m t t' Hm Hinv Hb.
  replace (lo + Z.of_nat (S m) * 1) with (lo + Z.of_nat m * 1 + 1) by lia.
  apply (Hstep _ t); [lia|done|done].
Qed.

Lemma for_range_empty {St} lo hi (body : Z -> St -> option St) s :
  hi <= lo -> for_range lo hi body s = Some s.
Proof.
  intros Hle. unfold for_range. by replace (Z.to_nat (hi - lo)) with O by lia.
Qed.

Lemma for_iter_ext {St} (f g : Z -> St -> option St) step n :
  (forall i s, f i s = g i s) ->
  forall i s, for_iter n i step f s = for_iter n i step g s.
Proof.
  intros Hfg. induction n as [|n IH]; intros i s; simpl; [done|].
  rewrite Hfg. destruct (g i s); simpl; [apply IH|done].
Qed.

(** The loop rule for the first [for_range] of the goal, as a
    hypothesis. *)
Ltac loop_invariant Inv Hloop :=
  match goal with
  | |- context [for_range ?lo ?hi ?body ?s] =>
      pose proof (for_range_inv Inv lo hi body s) as Hloop
  end.

(** ** The block loops *)

Section Blocks.
Context {T : Type} `{TacsScalar T}.
Implicit Types a vals : list T.

(** Two arrays of the same length with the same reads are equal. *)
Lemma aget_ext {A} (a b : list A) :
  length a = length b -> (forall p, aget a p = aget b p) -> a = b.
Proof.
  intros Hlen Hget. apply list_eq. intros i.
  specialize (Hget (Z.of_nat i)). unfold aget in Hget.
  rewrite !decide_True in Hget by lia. by rewrite Nat2Z.id in Hget.
Qed.

(** The insert loop overwrites the block at [base] with the [B]
    scalars at the cursor and leaves the rest of the array. *)
Lemma block_insert_spec B vals a base vp :
  0 <= B -> 0 <= base -> base + B <= Z.of_nat (length a) ->
  0 <= vp -> vp + B <= Z.of_nat (length vals) ->
  exists a', block_insert B vals a base vp = Some (a', vp + B) /\
    length a' = length a /\
    forall p, aget a' p = if decide (base <= p < base + B)
                          then aget vals (vp + (p - base)) else aget a p.
Proof.
  intros HB Hb Hbl Hv Hvl. unfold block_insert.
  destruct (for_range_inv (fun k (s : list T * Z) =>
      s.2 = vp + k /\ length s.1 = length a /\
      forall p, aget s.1 p = if decide (base <= p < base + k)
                             then aget vals (vp + (p - base)) else aget a p)
    0 B (fun k '(a, vp) =>
      val ← aget vals vp; a' ← aset a (base + k) val; Some (a', vp + 1))
    (a, vp)) as ([a' vp'] & Hrun & Hvp & Hlen & Hget); [done| | |].
  - simpl. split; [lia|]. split; [done|]. intros p.
    by rewrite decide_False by lia.
  - intros k [a1 vp1] Hk (Hvp & Hlen & Hget). simpl in *. subst vp1.
    destruct (aget_is_Some vals (vp + k)) as [val Hval]; [lia|].
    destruct (aset_is_Some a1 (base + k) val) as [a2 Ha2]; [lia|].
    rewrite Hval. simpl. rewrite Ha2. simpl. eexists. split; [done|].
    simpl. split; [lia|]. split; [by rewrite (aset_length _ _ _ _ Ha2)|].
    intros p. rewrite (aget_aset _ _ _ _ p Ha2), Hget.
    destruct (decide (p = base + k)) as [->|Hne].
    + rewrite decide_True by lia. rewrite <- Hval. f_equal. lia.
    + repeat case_decide; try done; lia.
  - simpl in *. subst vp'. rewrite Hrun. eauto.
Qed.

(** The add loop adds the [B] scalars at the cursor to the block at
    [base], entry by entry, and leaves the rest of the array. *)
Lemma block_add_spec B vals a base vp :
  0 <= B -> 0 <= base -> base + B <= Z.of_nat (length a) ->
  0 <= vp -> vp + B <= Z.of_nat (length vals) ->
  exists a', block_add B vals a base vp = Some (a', vp + B) /\
    length a' = length a /\
    forall p, aget a' p =
      if decide (base <= p < base + B)
      then yv ← aget a p; val ← aget vals (vp + (p - base)); Some (add yv val)
      else aget a p.
Proof.
  intros HB Hb Hbl Hv Hvl. unfold block_add.
  destruct (for_range_inv (fun k (s : list T * Z) =>
      s.2 = vp + k /\ length s.1 = length a /\
      forall p, aget s.1 p =
        if decide (base <= p < base + k)
        then yv ← aget a p; val ← aget vals (vp + (p - base));
             Some (add yv val)
        else aget a p)
    0 B (fun k '(a, vp) =>
      yv ← aget a (base + k); val ← aget vals vp;
      a' ← aset a (base + k) (add yv val); Some (a', vp + 1))
    (a, vp)) as ([a' vp'] & Hrun & Hvp & Hlen & Hget); [done| | |].
  - simpl. split; [lia|]. split; [done|]. intros p.
    by rewrite decide_False by lia.
  - intros k [a1 vp1] Hk (Hvp & Hlen & Hget). simpl in *. subst vp1.
    destruct (aget_is_Some a (base + k)) as [yv Hyv]; [lia|].
    destruct (aget_is_Some vals (vp + k)) as [val Hval]; [lia|].
    destruct (aset_is_Some a1 (base + k) (add yv val)) as [a2 Ha2]; [lia|].
    rewrite Hget, decide_False, Hyv by lia. simpl.
    rewrite Hval. simpl. rewrite Ha2. simpl. eexists. split; [done|].
    simpl. split; [lia|]. split; [by rewrite (aset_length _ _ _ _ Ha2)|].
    intros p. rewrite (aget_aset _ _ _ _ p Ha2), Hget.
    destruct (decide (p = base + k)) as [->|Hne].
    + rewrite decide_True by lia. rewrite Hyv. simpl.
      replace (vp + (base + k - base)) with (vp + k) by lia.
      by rewrite Hval.
    + repeat case_decide; try done; lia.
  - simpl in *. subst vp'. rewrite Hrun. eauto.
Qed.

(** The read loop copies the block at [base] to the output at the
    cursor and leaves the rest of the output. *)
Lemma block_read_spec B a base vals vp :
  0 <= B -> 0 <= base -> base + B <= Z.of_nat (length a) ->
  0 <= vp -> vp + B <= Z.of_nat (length vals) ->
  exists vals', block_read B a base vals vp = Some (vals', vp + B) /\
    length vals' = length vals /\
    forall p, aget vals' p = if decide (vp <= p < vp + B)
                             then aget a (base + (p - vp)) else aget vals p.
Proof.
  intros HB Hb Hbl Hv Hvl. unfold block_read.
  destruct (for_range_inv (fun k (s : list T * Z) =>
      s.2 = vp + k /\ length s.1 = length vals /\
      forall p, aget s.1 p = if decide (vp <= p < vp + k)
                             then aget a (base + (p - vp)) else aget vals p)
    0 B (fun k '(vals, vp) =>
      yv ← aget a (base + k); vals' ← aset vals vp yv; Some (vals', vp + 1))
    (vals, vp)) as ([o' vp'] & Hrun & Hvp & Hlen & Hget); [done| | |].
  - simpl. split; [lia|]. split; [done|]. intros p.
    by rewrite decide_False by lia.
  - intros k [o1 vp1] Hk (Hvp & Hlen & Hget). simpl in *. subst vp1.
    destruct (aget_is_Some a (base + k)) as [yv Hyv]; [lia|].
    destruct (aset_is_Some o1 (vp + k) yv) as [o2 Ho2]; [lia|].
    rewrite Hyv. simpl. rewrite Ho2. simpl. eexists. split; [done|].
    simpl. split; [lia|]. split; [by rewrite (aset_length _ _ _ _ Ho2)|].
    intros p. rewrite (aget_aset _ _ _ _ p Ho2), Hget.
    destruct (decide (p = vp + k)) as [->|Hne].
    + rewrite decide_True by lia. rewrite <- Hyv. f_equal. lia.
    + repeat case_decide; try done; lia.
  - simpl in *. subst vp'. rewrite Hrun. eauto.
Qed.

End Blocks.

(** ** Insert, then read back *)

Section Round_trip.
Context {T : Type} `{TacsScalar T} {TACSBVecDistCtx : Type}.
Implicit Types v : TACSBVec T TACSBVecDistCtx.

Lemma owned_spec (owner_range : list Z) rank lo hi g :
  aget owner_range rank = Some lo ->
  aget owner_range (rank + 1) = Some hi ->
  owned owner_range rank g = Some (bool_decide (lo <= g < hi)).
Proof.
  intros Hlo Hhi. unfold owned. rewrite Hlo. simpl. case_decide.
  - rewrite Hhi. simpl. f_equal. apply bool_decide_ext. lia.
  - f_equal. symmetry. apply bool_decide_eq_false. lia.
Qed.

Lemma aget_outside {A} (a : list A) p :
  ~ (0 <= p < Z.of_nat (length a)) -> aget a p = None.
Proof.
  intros Hp. unfold aget. case_decide; [|done].
  apply lookup_ge_None. lia.
Qed.

Lemma block_apart (B a b k : Z) :
  0 <= k < B -> a ≠ b -> ~ (B * b <= B * a + k < B * b + B).
Proof. intros Hk Hab. destruct (Z_lt_le_dec a b); nia. Qed.

(** What [setValues] with [INSERT_VALUES] leaves behind when every
    index is a distinct owned or dependent node: block [j] of [vals]
    in the block of node [index[j]]. *)
Lemma setValues_insert_spec v lo hi n index vals :
  rank_owns v lo hi ->
  0 <= bsize v ->
  bsize v * (hi - lo) <= Z.of_nat (length (x v)) ->
  Z.of_nat (length index) = n ->
  Z.of_nat (length vals) = n * bsize v ->
  NoDup index ->
  Forall (owned_or_dependent v lo hi) index ->
  exists v', setValues n index vals INSERT_VALUES v = Some v' /\
    comm v' = comm v /\ var_map v' = var_map v /\ bsize v' = bsize v /\
    length (x v') = length (x v) /\
    length <$> x_dep v' = length <$> x_dep v /\
    forall j k g, 0 <= k < bsize v -> aget index j = Some g ->
      node_entry v' lo hi g k = aget vals (j * bsize v + k).
Proof.
  intros (vm & Hvm & Hlo & Hhi) HB Hx Hn Hvals Hnd Hok.
  unfold setValues. rewrite Hvm. simpl.
  set (B := bsize v) in *.
  loop_invariant (fun i (s : TACSBVec T TACSBVecDistCtx * Z) =>
      s.2 = i * B /\ comm s.1 = comm v /\ var_map s.1 = var_map v /\
      bsize s.1 = B /\ length (x s.1) = length (x v) /\
      length <$> x_dep s.1 = length <$> x_dep v /\
      forall j k g, 0 <= j < i -> 0 <= k < B -> aget index j = Some g ->
        node_entry s.1 lo hi g k = aget vals (j * B + k)) Hloop.
  destruct Hloop as ([v' vp'] & Hrun & Hinv); [lia| | |].
  - simpl. repeat split; try done. intros; lia.
  - intros i [v1 vp] Hi (Hvp & Hc & Hm & Hb & Hlx & Hld & Hent).
    simpl in *. subst vp.
    destruct (aget_is_Some index i) as [g Hg]; [lia|]. rewrite Hg. simpl.
    rewrite (owned_spec _ _ lo hi g Hlo Hhi). simpl.
    assert (owned_or_dependent v lo hi g) as Hokg.
    { rewrite Forall_forall in Hok. apply Hok.
      unfold aget in Hg. case_decide; [|done].
      by apply list_elem_of_lookup_2 in Hg. }
    assert (forall j g', 0 <= j < i -> aget index j = Some g' -> g' ≠ g)
      as Hfresh.
    { intros j g' Hj Hg' ->. unfold aget in Hg, Hg'.
      rewrite decide_True in Hg by lia. rewrite decide_True in Hg' by lia.
      pose proof (NoDup_lookup _ _ _ _ Hnd Hg Hg'). lia. }
    rewrite Hb. case_bool_decide as Hown.
    + rewrite Hlo. simpl.
      destruct (block_insert_spec B vals (x v1) (B * (g - lo)) (i * B))
        as (y & Hy & Hly & Hgy); [lia|nia|nia|nia|nia|].
      rewrite Hy. simpl. eexists. split; [done|]. simpl.
      split; [lia|]. split_and!; try done; [congruence|].
      intros j k g' Hj Hk Hg'. unfold node_entry in *. simpl.
      rewrite Hb. case_decide as Hown'.
      * rewrite Hgy. destruct (decide (j = i)) as [->|Hji].
        -- assert (g' = g) as -> by congruence.
           rewrite decide_True by lia. f_equal. lia.
        -- assert (g' ≠ g) by (apply (Hfresh j); [lia|done]).
           rewrite decide_False by (apply block_apart; [done|lia]).
           specialize (Hent j k g' ltac:(lia) Hk Hg').
           rewrite Hb, decide_True in Hent by done. done.
      * assert (j ≠ i) as Hji by (intros ->; congruence).
        specialize (Hent j k g' ltac:(lia) Hk Hg').
        rewrite Hb, decide_False in Hent by done. done.
    + destruct Hokg as [?|(Hneg & xd0 & Hxd0 & Hcap)]; [done|].
      rewrite decide_True by done.
      destruct (x_dep v1) as [xd|] eqn:Hxd; [|by rewrite Hxd0 in Hld].
      rewrite Hxd0 in Hld. simpl in Hld. injection Hld as Hld. simpl.
      destruct (block_insert_spec B vals xd (- B * (g + 1)) (i * B))
        as (y & Hy & Hly & Hgy); [lia|nia|nia|nia|nia|].
      rewrite Hy. simpl. eexists. split; [done|]. simpl.
      split; [lia|]. split_and!; try done.
      { rewrite Hxd0. simpl. congruence. }
      intros j k g' Hj Hk Hg'. unfold node_entry in *. simpl.
      rewrite Hb. case_decide as Hown'.
      * assert (j ≠ i) as Hji by (intros ->; congruence).
        specialize (Hent j k g' ltac:(lia) Hk Hg').
        rewrite Hb, decide_True in Hent by done. done.
      * rewrite Hgy. destruct (decide (j = i)) as [->|Hji].
        -- assert (g' = g) as -> by congruence.
           rewrite decide_True by lia. f_equal. lia.
        -- rewrite decide_False.
           2:{ replace (- B * (g' + 1)) with (B * (- g' - 1)) by lia.
               replace (- B * (g + 1)) with (B * (- g - 1)) by lia.
               apply block_apart; [done|].
               assert (g' ≠ g) by (apply (Hfresh j); [lia|done]). lia. }
           specialize (Hent j k g' ltac:(lia) Hk Hg').
           rewrite Hb, decide_False, Hxd in Hent by done. done.
  - destruct Hinv as (Hvp & Hc & Hm & Hb & Hlx & Hld & Hent). simpl in *.
    rewrite Hrun. simpl. eexists. split; [done|].
    split_and!; try done; [congruence|].
    intros j k g Hk Hg. apply Hent; [|done|done].
    apply aget_Some_lt in Hg. lia.
Qed.

(** What [getValues] returns for owned and dependent nodes: the block
    of node [index[j]] as block [j] of the output. *)
Lemma getValues_spec v lo hi n index out :
  rank_owns v lo hi ->
  0 <= bsize v ->
  bsize v * (hi - lo) <= Z.of_nat (length (x v)) ->
  Z.of_nat (length index) = n ->
  Z.of_nat (length out) = n * bsize v ->
  Forall (owned_or_dependent v lo hi) index ->
  exists out', getValues n index out v = Some out' /\
    length out' = length out /\
    forall j k g, 0 <= k < bsize v -> aget index j = Some g ->
      aget out' (j * bsize v + k) = node_entry v lo hi g k.
Proof.
  intros (vm & Hvm & Hlo & Hhi) HB Hx Hn Hout Hok.
  unfold getValues. rewrite Hvm. simpl.
  set (B := bsize v) in *.
  loop_invariant (fun i (s : list T * Z) =>
      s.2 = i * B /\ length s.1 = length out /\
      forall j k g, 0 <= j < i -> 0 <= k < B -> aget index j = Some g ->
        aget s.1 (j * B + k) = node_entry v lo hi g k) Hloop.
  destruct Hloop as ([out' vp'] & Hrun & Hvp & Hlen & Hent); [lia| | |].
  - simpl. split_and!; try done. intros; lia.
  - intros i [o1 vp] Hi (Hvp & Hlen & Hent). simpl in *. subst vp.
    destruct (aget_is_Some index i) as [g Hg]; [lia|]. rewrite Hg. simpl.
    rewrite (owned_spec _ _ lo hi g Hlo Hhi). simpl.
    assert (owned_or_dependent v lo hi g) as Hokg.
    { rewrite Forall_forall in Hok. apply Hok.
      unfold aget in Hg. case_decide; [|done].
      by apply list_elem_of_lookup_2 in Hg. }
    assert (exists src base, 0 <= base /\
              base + B <= Z.of_nat (length src) /\
              (forall k, node_entry v lo hi g k = aget src (base + k)) /\
              (if bool_decide (lo <= g < hi)
               then lo0 ← aget (getOwnerRange vm) (comm_rank (comm v));
                    block_read B (x v) (B * (g - lo0)) o1 (i * B)
               else if decide (g < 0)
                    then xd ← x_dep v;
                         block_read B xd (- B * (g + 1)) o1 (i * B)
                    else ei ← ext_indices v; xe ← x_ext v;
                         block_read B xe (B * findIndex ei g) o1 (i * B))
              = block_read B src base o1 (i * B))
      as (src & base & Hb0 & Hb1 & Hsrc & ->).
    { unfold node_entry. fold B. case_bool_decide as Hown.
      - exists (x v), (B * (g - lo)). rewrite Hlo. simpl.
        split_and!; [nia|nia| |done]. intros k. by rewrite decide_True.
      - destruct Hokg as [?|(Hneg & xd & Hxd & Hcap)]; [done|].
        exists xd, (- B * (g + 1)). rewrite Hxd. simpl.
        rewrite decide_True by done.
        split_and!; [nia|nia| |done]. intros k. by rewrite decide_False. }
    destruct (block_read_spec B src base o1 (i * B))
      as (o2 & Ho2 & Hl2 & Hg2); [lia|lia|lia|nia|nia|].
    rewrite Ho2. eexists. split; [done|]. simpl.
    split_and!; [lia|congruence|].
    intros j k g' Hj Hk Hg'. rewrite Hg2.
    destruct (decide (j = i)) as [->|Hji].
    + assert (g' = g) as -> by congruence.
      rewrite decide_True by lia. rewrite Hsrc. f_equal. lia.
    + rewrite decide_False by nia. apply Hent; [lia|done|done].
  - simpl in *. rewrite Hrun. simpl. eexists. split_and!; try done.
    intros j k g Hk Hg. apply Hent; [|done|done].
    apply aget_Some_lt in Hg. lia.
Qed.

(** C10. [getValues] returns the values a preceding [setValues] with
    [INSERT_VALUES] deposited, for distinct indices that are owned or
    dependent. *)
Theorem getValues_after_insert v lo hi n index vals out :
  rank_owns v lo hi ->
  0 <= bsize v ->
  bsize v * (hi - lo) <= Z.of_nat (length (x v)) ->
  Z.of_nat (length index) = n ->
  Z.of_nat (length vals) = n * bsize v ->
  Z.of_nat (length out) = n * bsize v ->
  NoDup index ->
  Forall (owned_or_dependent v lo hi) index ->
  exists v', setValues n index vals INSERT_VALUES v = Some v' /\
             getValues n index out v' = Some vals.
Proof.
  intros Hrank HB Hx Hn Hvals Hout Hnd Hok.
  destruct (setValues_insert_spec v lo hi n index vals)
    as (v' & Hset & Hc & Hm & Hb & Hlx & Hld & Hent); try done.
  exists v'. split; [done|].
  destruct (getValues_spec v' lo hi n index out)
    as (out' & Hget & Hlen & Hread).
  - destruct Hrank as (vm & ? & ? & ?). exists vm. by rewrite Hm, Hc.
  - lia.
  - by rewrite Hb, Hlx.
  - done.
  - by rewrite Hb.
  - eapply Forall_impl; [exact Hok|]. intros g [?|(Hneg & xd & Hxd & Hcap)].
    + by left.
    + right. split; [done|]. rewrite Hxd in Hld.
      destruct (x_dep v') as [xd'|]; [|done]. injection Hld as Hld.
      exists xd'. split; [done|]. rewrite Hb. lia.
  - rewrite Hget. f_equal. apply aget_ext; [lia|].
    intros p. rewrite Hb in Hread.
    destruct (decide (0 <= p < n * bsize v)) as [Hp|Hp].
    + assert (0 < bsize v) as Hpos by nia.
      pose proof (Z.div_mod p (bsize v) ltac:(lia)) as Hdm.
      pose proof (Z.mod_pos_bound p (bsize v) Hpos) as Hmod.
      assert (0 <= p `div` bsize v < n) as Hdiv.
      { split; [apply Z.div_pos; lia|].
        apply Z.div_lt_upper_bound; [done|]. lia. }
      destruct (aget_is_Some index (p `div` bsize v)) as [g Hg]; [lia|].
      replace p with (p `div` bsize v * bsize v + p `mod` bsize v) by lia.
      rewrite (Hread (p `div` bsize v) (p `mod` bsize v) g Hmod Hg).
      by rewrite (Hent (p `div` bsize v) (p `mod` bsize v) g Hmod Hg).
    + rewrite !aget_outside; [done|lia|lia].
Qed.


(** X14. Indices that are neither owned nor negative go to the ghost
    array, and there [INSERT_VALUES] does what [ADD_VALUES] does. *)
Lemma setValues_ghost_insert_is_add n index vals v :
  (forall vm i g, var_map v = Some vm -> aget index i = Some g ->
     owned (getOwnerRange vm) (comm_rank (comm v)) g = Some false /\ 0 <= g) ->
  setValues n index vals INSERT_VALUES v = setValues n index vals ADD_VALUES v.
Proof.
  intros Hghost. unfold setValues.
  destruct (var_map v) as [vm|] eqn:Hvm; [|done]. simpl. f_equal.
  apply for_iter_ext. intros i [v' vp].
  destruct (aget index i) as [g|] eqn:Hg; [|done]. simpl.
  destruct (Hghost vm i g eq_refl Hg) as [-> Hpos]. simpl.
  by rewrite !decide_False by lia.
Qed.

End Round_trip.

(** ** Boundary conditions *)

Section Boundary_conditions.
Context {T : Type} `{TacsScalar T} {TACSBVecDistCtx : Type}.
Implicit Types v : TACSBVec T TACSBVecDistCtx.
Implicit Types bc : TACSBcMap T.

Lemma addresses_functional v bc lo hi i k p q :
  addresses v bc lo hi i k p -> addresses v bc lo hi i k q -> p = q.
Proof.
  intros (g & k0 & k1 & vk & Hg & _ & _ & _ & _ & Hvk & ->)
         (g' & k0' & k1' & vk' & Hg' & _ & _ & _ & _ & Hvk' & ->).
  congruence.
Qed.

Lemma applied_equiv v bc lo hi (h1 h2 : Z -> Z -> Prop) a :
  (forall i k p, addresses v bc lo hi i k p -> h1 i k <-> h2 i k) ->
  applied v bc lo hi h1 a -> applied v bc lo hi h2 a.
Proof.
  intros Heq (Hlen & Hz & Hf). split; [done|]. split.
  - intros p i k Hh Haddr. apply (Hz p i k); [|done]. by eapply Heq.
  - intros p Hp. apply Hf. intros i k Hh Haddr. apply (Hp i k); [|done].
    by eapply Heq.
Qed.

Lemma applied_step v bc lo hi (h : Z -> Z -> Prop) a a' i k p :
  applied v bc lo hi h a ->
  addresses v bc lo hi i k p ->
  aset a p zero = Some a' ->
  applied v bc lo hi (fun i' k' => h i' k' \/ (i' = i /\ k' = k)) a'.
Proof.
  intros (Hlen & Hz & Hf) Haddr Hset. split.
  { by rewrite (aset_length _ _ _ _ Hset). }
  split.
  - intros q i' k' Hh Hq. rewrite (aget_aset _ _ _ _ q Hset).
    case_decide; [done|]. destruct Hh as [Hh|[-> ->]].
    + by apply (Hz q i' k').
    + by destruct (addresses_functional _ _ _ _ _ _ _ _ Haddr Hq).
  - intros q Hq. rewrite (aget_aset _ _ _ _ q Hset).
    case_decide as Hqp.
    + subst q. destruct (Hq i k); [by right|done].
    + apply Hf. intros i' k' Hh. apply Hq. by left.
Qed.

(** C5. [applyBCs] sets every constrained entry of the local array to
    zero and changes nothing else: not the other local entries, not
    the ghost and dependent arrays; the values stored in the map play
    no part. *)
Theorem applyBCs_zeroes_constrained v bc lo hi :
  bcs v = Some bc ->
  rank_owns v lo hi ->
  bcs_in_bounds v bc lo hi ->
  exists a, applyBCs v = Some (set_x v a) /\
    length a = length (x v) /\
    (forall p, constrained v bc lo hi p -> aget a p = Some zero) /\
    (forall p, ~ constrained v bc lo hi p -> aget a p = aget (x v) p) /\
    x_ext (set_x v a) = x_ext v /\ x_dep (set_x v a) = x_dep v /\
    (forall vals, x <$> applyBCs (set_bcs v (Some (with_values bc vals)))
                  = Some a).
Proof.
  intros Hbc (vm & Hvm & Hlo & Hhi) Hwf.
  assert (exists a, for_range 0 (nbcs bc) (fun i a =>
              g ← aget (bc_global bc) i;
              own ← owned (getOwnerRange vm) (comm_rank (comm v)) g;
              if own : bool then
                lo ← aget (getOwnerRange vm) (comm_rank (comm v));
                let var := bsize v * (g - lo) in
                k0 ← aget (var_ptr bc) i;
                k1 ← aget (var_ptr bc) (i + 1);
                for_range k0 k1 (fun k a =>
                  vk ← aget (vars bc) k; aset a (var + vk) zero) a
              else Some a) (x v) = Some a /\
            applied v bc lo hi (fun i _ => 0 <= i < nbcs bc) a)
    as (a & Hrun & Hlen & Hz & Hf).
  { destruct (Z_le_gt_dec 0 (nbcs bc)) as [Hn|Hn].
    2:{ exists (x v). rewrite for_range_empty by lia. split; [done|].
        split; [done|]. split; [intros; lia|done]. }
    loop_invariant (fun i (a : list T) =>
      applied v bc lo hi (fun i' _ => 0 <= i' < i) a) Hloop.
    destruct Hloop as (a & Hrun & Ha); [done| | |by eauto].
    { split; [done|]. split; [intros; lia|done]. }
    intros i a Hi Ha. destruct (Hwf i Hi) as (g & Hg & Hspan).
    rewrite Hg. simpl. rewrite (owned_spec _ _ lo hi g Hlo Hhi). simpl.
    case_bool_decide as Hown.
    - destruct (Hspan Hown) as (k0 & k1 & Hk0 & Hk1 & Hvars).
      rewrite Hlo. simpl. rewrite Hk0. simpl. rewrite Hk1. simpl.
      destruct (Z_le_gt_dec k0 k1) as [Hk|Hk].
      + loop_invariant (fun k (a : list T) =>
          applied v bc lo hi
            (fun i' k' => 0 <= i' < i \/ (i' = i /\ k' < k)) a) Hinner.
        destruct Hinner as (a' & Hrun' & Ha'); [done| | |].
        * eapply applied_equiv; [|exact Ha]. simpl.
          intros i' k' p (g' & k0' & k1' & _ & _ & _ & Hk0' & _ & ? & _).
          split; [by left|]. intros [?|[-> ?]]; [done|].
          rewrite Hk0 in Hk0'. injection Hk0' as <-. lia.
        * intros k a1 Hkk Ha1. destruct (Hvars k Hkk) as (vk & Hvk & Hin).
          rewrite Hvk. simpl.
          pose proof Ha1 as (Hl1 & _).
          destruct (aset_is_Some a1 (bsize v * (g - lo) + vk) zero)
            as [a2 Ha2]; [lia|].
          exists a2. split; [done|].
          assert (addresses v bc lo hi i k (bsize v * (g - lo) + vk)) as Haddr.
          { exists g, k0, k1, vk. split_and!; try done; lia. }
          eapply applied_equiv;
            [|exact (applied_step _ _ _ _ _ _ _ _ _ _ Ha1 Haddr Ha2)].
          simpl. intros; lia.
        * exists a'. split; [done|].
          eapply applied_equiv; [|exact Ha']. simpl.
          intros i' k' p (g' & k0' & k1' & _ & _ & _ & _ & Hk1' & ? & _).
          split; [lia|]. intros ?.
          destruct (decide (i' = i)) as [->|]; [|lia].
          rewrite Hk1 in Hk1'. injection Hk1' as <-. lia.
      + rewrite for_range_empty by lia. exists a. split; [done|].
        eapply applied_equiv; [|exact Ha]. simpl.
        intros i' k' p (g' & k0' & k1' & _ & _ & _ & Hk0' & Hk1' & ? & _).
        split; [lia|]. intros ?. destruct (decide (i' = i)) as [->|]; [|lia].
        rewrite Hk0 in Hk0'. rewrite Hk1 in Hk1'.
        injection Hk0' as <-. injection Hk1' as <-. lia.
    - exists a. split; [done|].
      eapply applied_equiv; [|exact Ha]. simpl.
      intros i' k' p (g' & _ & _ & _ & Hg' & Hown' & _).
      split; [lia|]. intros ?. destruct (decide (i' = i)) as [->|]; [|lia].
      rewrite Hg in Hg'. injection Hg' as <-. done. }
  exists a. split_and!; try done.
  - unfold applyBCs. rewrite Hbc, Hvm.
    exact (f_equal (fun m => x' ← m; Some (set_x v x')) Hrun).
  - intros p (i & k & Hi & Haddr). by apply (Hz p i k).
  - intros p Hp. apply Hf. intros i k Hi Haddr. apply Hp. by exists i, k.
  - intros vals. unfold applyBCs. simpl. rewrite Hvm.
    exact (f_equal (fun m => x <$> (x' ← m;
             Some (set_x (set_bcs v (Some (with_values bc vals))) x')))
             Hrun).
Qed.

End Boundary_conditions.

(** ** Random vectors *)

Section Random.
Context {T : Type} `{TacsScalar T} {TACSBVecDistCtx : Type}.
Context {RandState : Type} (rand : RandState -> Z * RandState).
Variable RAND_MAX : Z.
Implicit Types v : TACSBVec T TACSBVecDistCtx.
Implicit Types s : RandState.

Lemma advance_succ n s : 0 <= n -> advance rand (n + 1) s = (rand (advance rand n s)).2.
Proof.
  intros Hn. unfold advance.
  replace (Z.to_nat (n + 1)) with (S (Z.to_nat n)) by lia. done.
Qed.

Lemma advance_add n m s :
  0 <= n -> 0 <= m -> advance rand (n + m) s = advance rand m (advance rand n s).
Proof.
  intros Hn Hm. unfold advance.
  replace (Z.to_nat (n + m)) with (Z.to_nat m + Z.to_nat n)%nat by lia.
  apply Nat.iter_add.
Qed.

Lemma draw_advance n q s :
  0 <= n -> 0 <= q -> draw rand (advance rand n s) q = draw rand s (n + q).
Proof. intros Hn Hq. unfold draw. by rewrite advance_add. Qed.

Lemma aget_fmap_seqZ {A} (f : Z -> A) (m n p : Z) :
  aget (f <$> seqZ m n) p = if decide (0 <= p < n) then Some (f (m + p)) else None.
Proof.
  unfold aget. case_decide as Hp.
  - rewrite list_lookup_fmap. case_decide.
    + rewrite lookup_seqZ_lt by lia. simpl. f_equal. f_equal. lia.
    + rewrite lookup_seqZ_ge by lia. done.
  - by rewrite decide_False by lia.
Qed.

(** The loop that skips the draws of another rank. *)
Lemma discard_spec a b s :
  a <= b ->
  for_range a b (fun _ s => Some (rand s).2) s = Some (advance rand (b - a) s).
Proof.
  intros Hab.
  destruct (for_range_inv (fun i st => st = advance rand (i - a) s) a b
              (fun _ s => Some (rand s).2) s) as (st & Hrun & ->); [done| | |done].
  - by replace (a - a) with 0 by lia.
  - intros i st Hi ->. eexists. split; [done|].
    replace (i + 1 - a) with (i - a + 1) by lia. by rewrite advance_succ by lia.
Qed.

(** The loop that fills the local array takes the next [size] draws. *)
Lemma fill_rand_spec lower upper v s :
  Z.of_nat (length (x v)) = size v ->
  fill_rand rand RAND_MAX lower upper v s
  = Some (set_x v (drawn rand RAND_MAX lower upper s 0 (size v)), advance rand (size v) s).
Proof.
  intros Hlen. unfold fill_rand.
  loop_invariant (fun i (st : list T * RandState) =>
      st.2 = advance rand i s /\ length st.1 = length (x v) /\
      forall p, aget st.1 p =
        if decide (0 <= p < i)
        then Some (rand_value RAND_MAX lower upper (draw rand s p))
        else aget (x v) p) Hloop.
  destruct Hloop as ([a st] & -> & Hst & Hla & Hget); [lia| | |].
  - simpl. split_and!; try done. intros p. by rewrite decide_False by lia.
  - intros i [a st] Hi (Hst & Hla & Hget). simpl in *. subst st.
    destruct (rand (advance rand i s)) as [r s'] eqn:Hr.
    destruct (aset_is_Some a i (rand_value RAND_MAX lower upper r))
      as [a' Ha']; [lia|].
    rewrite Ha'. simpl. eexists. split; [done|]. simpl. split_and!.
    + by rewrite advance_succ, Hr by lia.
    + by rewrite (aset_length _ _ _ _ Ha').
    + intros p. rewrite (aget_aset _ _ _ _ p Ha'), Hget.
      destruct (decide (p = i)) as [->|].
      * rewrite decide_True by lia. unfold draw. by rewrite Hr.
      * repeat case_decide; try done; lia.
  - simpl in *. subst st. f_equal. f_equal. f_equal.
    apply aget_ext.
    + unfold drawn. rewrite length_fmap, length_seqZ. lia.
    + intros p. unfold drawn. rewrite Hget, aget_fmap_seqZ.
      case_decide; [done|]. apply aget_outside. lia.
Qed.

Lemma drawn_advance lower upper s n m :
  0 <= n -> drawn rand RAND_MAX lower upper (advance rand n s) 0 m = drawn rand RAND_MAX lower upper s n m.
Proof.
  intros Hn. unfold drawn.
  replace (seqZ n m) with (seqZ (n + 0) m) by (f_equal; lia).
  rewrite <- fmap_add_seqZ, <- list_fmap_compose.
  apply Forall_fmap_ext_1, Forall_forall. intros q Hq.
  apply elem_of_seqZ in Hq. simpl. by rewrite draw_advance by lia.
Qed.

Lemma partition_nonneg rng P k a :
  partition rng P -> aget rng k = Some a -> 0 <= a.
Proof.
  intros (Hlen & H0 & Hmono) Hk.
  assert (0 <= k) as Hk0 by (apply aget_Some_lt in Hk; lia).
  revert a Hk. pattern k. apply natlike_ind; [|clear k Hk0|done].
  - intros a Ha. rewrite H0 in Ha. injection Ha as <-. done.
  - intros k Hk0 IH b Hb.
    destruct (aget_is_Some rng k) as [a Ha].
    { apply aget_Some_lt in Hb. lia. }
    specialize (IH a Ha). specialize (Hmono k a b Ha Hb). lia.
Qed.

(** [setRand] on one rank: the draws of the nodes it owns fill the
    local array, and the generator ends after the draws of every
    node. *)
Lemma setRand_rank_spec B rng P r v lo hi N lower upper s :
  0 <= B -> partition rng P -> 0 <= r < P ->
  on_rank B rng P r v ->
  aget rng r = Some lo -> aget rng (r + 1) = Some hi ->
  aget rng P = Some N ->
  setRand rand RAND_MAX lower upper v s
  = Some (set_x v (drawn rand RAND_MAX lower upper s (B * lo) (B * (hi - lo))),
          advance rand (B * N) s).
Proof.
  intros HB Hpart Hr (vm & lo' & hi' & Hvm & Hrng & Hcr & Hcs & Hbs & Hlo' &
                      Hhi' & Hsz & Hlen) Hlo Hhi HN.
  rewrite Hlo in Hlo'. rewrite Hhi in Hhi'.
  injection Hlo' as <-. injection Hhi' as <-.
  pose proof Hpart as (Hplen & Hp0 & Hmono).
  unfold setRand. rewrite Hvm, Hrng, Hcr, Hcs.
  set (vfinal := set_x v (drawn rand RAND_MAX lower upper s (B * lo) (B * (hi - lo)))).
  loop_invariant (fun k (st : TACSBVec T TACSBVecDistCtx * RandState) =>
      (exists a, aget rng k = Some a /\ st.2 = advance rand (B * a) s) /\
      st.1 = if decide (k <= r) then v else vfinal) Hloop.
  destruct Hloop as ([v' st] & -> & (a & Ha & Hst) & Hv'); [lia| | |].
  - simpl. split; [|by rewrite decide_True by lia].
    exists 0. split; [done|]. by rewrite Z.mul_0_r.
  - intros k [v1 st] Hk ((a & Ha & Hst) & Hv1). simpl in *. subst st.
    destruct (aget_is_Some rng (k + 1)) as [b Hb]; [lia|].
    pose proof (Hmono k a b Ha Hb) as Hab.
    pose proof (partition_nonneg _ _ _ _ Hpart Ha) as Ha0.
    assert (bsize v1 = B) as Hb1.
    { subst v1. by case_decide. }
    destruct (decide (k ≠ r)) as [Hkr|Hkr].
    + rewrite Hb. simpl. rewrite Ha. simpl. rewrite Hb1.
      rewrite discard_spec by nia. simpl. eexists. split; [done|]. simpl.
      split.
      * exists b. split; [done|]. rewrite <- advance_add by nia.
        f_equal. lia.
      * subst v1. repeat case_decide; try done; lia.
    + assert (k = r) as -> by (apply dec_stable; done).
      rewrite decide_True in Hv1 by lia. subst v1.
      rewrite Ha in Hlo. injection Hlo as ->. rewrite Hb in Hhi.
      injection Hhi as ->.
      rewrite fill_rand_spec by done. eexists. split; [done|]. simpl.
      split.
      * exists hi. split; [done|]. rewrite Hsz, <- advance_add by nia.
        f_equal. lia.
      * rewrite decide_False by lia. unfold vfinal.
        by rewrite Hsz, drawn_advance by nia.
  - simpl in *. subst st v'. rewrite decide_False by lia.
    rewrite Ha in HN. by injection HN as ->.
Qed.

Lemma drawn_app lower upper s m n1 n2 :
  0 <= n1 -> 0 <= n2 ->
  drawn rand RAND_MAX lower upper s m n1 ++ drawn rand RAND_MAX lower upper s (m + n1) n2
  = drawn rand RAND_MAX lower upper s m (n1 + n2).
Proof. intros H1 H2. unfold drawn. by rewrite seqZ_app, fmap_app. Qed.

(** The ranks from [k] on, each started with the same seed, hold the
    draws of their nodes one after the other. *)
Lemma setRand_ranks_from B rng P N lower upper seed ws :
  0 <= B -> partition rng P -> aget rng P = Some N ->
  forall k, 0 <= k -> k + Z.of_nat (length ws) = P ->
  (forall j v, ws !! j = Some v -> on_rank B rng P (k + Z.of_nat j) v) ->
  exists ws' a,
    aget rng k = Some a /\ a <= N /\
    Forall2 (fun v v' => setRand rand RAND_MAX lower upper v seed
                         = Some (v', advance rand (B * N) seed)) ws ws' /\
    concat (x <$> ws') = drawn rand RAND_MAX lower upper seed (B * a) (B * (N - a)) /\
    forall j v' lo hi, ws' !! j = Some v' ->
      aget rng (k + Z.of_nat j) = Some lo ->
      aget rng (k + Z.of_nat j + 1) = Some hi ->
      x v' = drawn rand RAND_MAX lower upper seed (B * lo) (B * (hi - lo)).
Proof.
  intros HB Hpart HN. pose proof Hpart as (Hplen & Hp0 & Hmono).
  induction ws as [|v ws IH]; intros k Hk Hlen Hranks; simpl in *.
  - exists [], N. assert (k = P) as -> by lia.
    split_and!; try done.
    unfold drawn. rewrite seqZ_nil by lia. done.
  - pose proof (Hranks 0%nat v eq_refl) as Hv.
    replace (k + Z.of_nat 0) with k in Hv by lia.
    pose proof Hv as (vm & lo & hi & _ & _ & _ & _ & _ & Hlo & Hhi & _).
    destruct (IH (k + 1)) as (ws' & a & Ha & HaN & Hall & Hcat & Hown);
      [lia|lia| |].
    { intros j w Hw. replace (k + 1 + Z.of_nat j) with (k + Z.of_nat (S j))
        by lia. by apply Hranks. }
    rewrite Hhi in Ha. injection Ha as <-.
    pose proof (Hmono k lo hi Hlo Hhi) as Hlh.
    pose proof (partition_nonneg _ _ _ _ Hpart Hlo) as Hlo0.
    exists (set_x v (drawn rand RAND_MAX lower upper seed (B * lo) (B * (hi - lo))) :: ws'),
           lo.
    split_and!; [done|lia| | |].
    + constructor; [|done].
      apply (setRand_rank_spec B rng P k); try done. lia.
    + rewrite fmap_cons. cbn [concat x set_x]. rewrite Hcat.
      replace (B * hi) with (B * lo + B * (hi - lo)) by lia.
      rewrite drawn_app by nia. f_equal. lia.
    + intros [|j] v' lo' hi' Hv' Hlo' Hhi'; simpl in Hv'.
      * injection Hv' as <-. simpl.
        replace (k + Z.of_nat 0) with k in * by lia. congruence.
      * apply (Hown j); [done| |].
        -- by replace (k + 1 + Z.of_nat j) with (k + Z.of_nat (S j)) by lia.
        -- by replace (k + 1 + Z.of_nat j + 1)
             with (k + Z.of_nat (S j) + 1) by lia.
Qed.

(** C7. With the same seed on every rank, the local arrays of the
    ranks, taken in rank order, are together the array a single rank
    over the same nodes fills: rank [r] skips the draws of the nodes
    below its own, uses the next [B*(hi - lo)] for its array and skips
    the rest, so that every rank ends at the same point of the
    stream. *)
Theorem setRand_independent_of_ranks B rng P N lower upper seed world
    (single : TACSBVec T TACSBVecDistCtx) :
  0 <= B -> partition rng P -> aget rng P = Some N ->
  Z.of_nat (length world) = P ->
  (forall r v, aget world r = Some v -> on_rank B rng P r v) ->
  on_rank B [0; N] 1 0 single ->
  exists single' world',
    setRand rand RAND_MAX lower upper single seed
    = Some (single', advance rand (B * N) seed) /\
    Forall2 (fun v v' => setRand rand RAND_MAX lower upper v seed
                         = Some (v', advance rand (B * N) seed)) world world' /\
    concat (x <$> world') = x single' /\
    forall r v' lo hi, aget world' r = Some v' ->
      aget rng r = Some lo -> aget rng (r + 1) = Some hi ->
      x v' = drawn rand RAND_MAX lower upper seed (B * lo) (B * (hi - lo)).
Proof.
  intros HB Hpart HN Hlen Hworld Hsingle.
  pose proof (partition_nonneg _ _ _ _ Hpart HN) as HN0.
  destruct (setRand_ranks_from B rng P N lower upper seed world HB Hpart HN 0)
    as (world' & a & Ha & _ & Hall & Hcat & Hown); [lia|lia| |].
  { intros j v Hv. apply Hworld. unfold aget.
    rewrite decide_True by lia. by rewrite Z.add_0_l, Nat2Z.id. }
  destruct Hpart as (_ & Hp0 & _). rewrite Hp0 in Ha. injection Ha as <-.
  exists (set_x single (drawn rand RAND_MAX lower upper seed (B * 0) (B * (N - 0)))), world'.
  split_and!; [|done|done|].
  - apply (setRand_rank_spec B [0; N] 1 0); try done.
    split_and!; [done|done|].
    intros k a b Hka Hkb. pose proof (aget_Some_lt _ _ _ Hkb) as Hk.
    simpl in Hk. assert (k = 0) as -> by (apply aget_Some_lt in Hka; lia).
    vm_compute in Hka, Hkb. congruence.
  - intros r v' lo hi Hv' Hlo Hhi. unfold aget in Hv'.
    case_decide; [|done]. apply (Hown (Z.to_nat r)); [done| |].
    + by replace (0 + Z.of_nat (Z.to_nat r)) with r by lia.
    + by replace (0 + Z.of_nat (Z.to_nat r) + 1) with (r + 1) by lia.
Qed.

End Random.

(** ** Dependent nodes *)

Section Dependent_nodes.
Context {T : Type} `{TacsScalar T} {TACSBVecDistCtx : Type}.
Implicit Types v : TACSBVec T TACSBVecDistCtx.
Implicit Types dn : TACSBVecDepNodes T.

Lemma seqZ_snoc (m n : Z) : 0 <= n -> seqZ m (n + 1) = seqZ m n ++ [m + n].
Proof.
  intros Hn. rewrite seqZ_app by lia. f_equal.
Qed.

(** The loop that zeroes a block. *)
Lemma zero_block_spec (B : Z) (xd : list T) (z : Z) :
  0 <= B -> 0 <= z -> z + B <= Z.of_nat (length xd) ->
  exists xd', for_range 0 B (fun k xd => aset xd (z + k) zero) xd = Some xd' /\
    length xd' = length xd /\
    forall p, aget xd' p = if decide (z <= p < z + B) then Some zero
                           else aget xd p.
Proof.
  intros HB Hz Hl.
  destruct (for_range_inv (fun k (a : list T) =>
      length a = length xd /\
      forall p, aget a p = if decide (z <= p < z + k) then Some zero
                           else aget xd p)
    0 B (fun k xd => aset xd (z + k) zero) xd)
    as (xd' & Hrun & Hlen & Hget); [done| | |by eauto].
  - split; [done|]. intros p. by rewrite decide_False by lia.
  - intros k a Hk (Hlen & Hget).
    destruct (aset_is_Some a (z + k) zero) as [a' Ha']; [lia|].
    exists a'. split; [done|]. split; [by rewrite (aset_length _ _ _ _ Ha')|].
    intros p. rewrite (aget_aset _ _ _ _ p Ha'), Hget.
    repeat case_decide; try done; lia.
Qed.

(** The loop that adds a weighted parent block to a dependent block. *)
Lemma dep_gather_block_spec B weights jp w (a : list T) base (xd : list T) z :
  0 <= B -> aget weights jp = Some w ->
  0 <= base -> base + B <= Z.of_nat (length a) ->
  0 <= z -> z + B <= Z.of_nat (length xd) ->
  exists xd', dep_gather_block B weights jp a base xd z = Some xd' /\
    length xd' = length xd /\
    forall p, aget xd' p =
      if decide (z <= p < z + B)
      then zk ← aget xd p; yv ← aget a (base + (p - z)); Some (add zk (mul w yv))
      else aget xd p.
Proof.
  intros HB Hw Hb Hbl Hz Hzl. unfold dep_gather_block.
  loop_invariant (fun k (c : list T) =>
      length c = length xd /\
      forall p, aget c p =
        if decide (z <= p < z + k)
        then zk ← aget xd p; yv ← aget a (base + (p - z));
             Some (add zk (mul w yv))
        else aget xd p) Hloop.
  destruct Hloop as (xd' & Hrun & Hlen & Hget); [done| | |by eauto].
  - split; [done|]. intros p. by rewrite decide_False by lia.
  - intros k c Hk (Hlen & Hget).
    destruct (aget_is_Some xd (z + k)) as [zk Hzk]; [lia|].
    destruct (aget_is_Some a (base + k)) as [yv Hyv]; [lia|].
    rewrite Hget, decide_False, Hzk, Hw, Hyv by lia. simpl.
    destruct (aset_is_Some c (z + k) (add zk (mul w yv))) as [c' Hc']; [lia|].
    exists c'. split; [done|]. split; [by rewrite (aset_length _ _ _ _ Hc')|].
    intros p. rewrite (aget_aset _ _ _ _ p Hc'), Hget.
    destruct (decide (p = z + k)) as [->|].
    + rewrite decide_True by lia. rewrite Hzk. simpl.
      replace (base + (z + k - z)) with (base + k) by lia. by rewrite Hyv.
    + repeat case_decide; try done; lia.
Qed.

Lemma weighted_sum_snoc v dn lo hi k jps jp :
  weighted_sum v dn lo hi k (jps ++ [jp])
  = s ← weighted_sum v dn lo hi k jps; w ← aget (dep_weights dn) jp;
    c ← aget (dep_conn dn) jp; y ← parent_entry v lo hi c k;
    Some (add s (mul w y)).
Proof. unfold weighted_sum. by rewrite foldl_app. Qed.

(** The array and offset behind the block of a parent. *)
Lemma parent_block v lo hi c :
  parent_in_bounds v lo hi c ->
  exists src base,
    0 <= base /\ base + bsize v <= Z.of_nat (length src) /\
    (forall k, parent_entry v lo hi c k = aget src (base + k)) /\
    (if decide (lo <= c < hi) then src = x v /\ base = bsize v * (c - lo)
     else exists ei, ext_indices v = Some ei /\ x_ext v = Some src /\
                     base = bsize v * findIndex ei c).
Proof.
  unfold parent_in_bounds, parent_entry. case_decide.
  - intros [? ?]. exists (x v), (bsize v * (c - lo)). by split_and!.
  - intros (ei & xe & Hei & Hxe & ? & ?).
    exists xe, (bsize v * findIndex ei c). rewrite Hei, Hxe.
    split_and!; try done. by exists ei.
Qed.

(** The evaluation loop leaves in block [i] of the dependent array the
    weighted sum of the parents of node [i]. *)
Lemma evaluate_dependents_spec v dn lo hi xd :
  rank_owns v lo hi ->
  x_dep v = Some xd ->
  deps_in_bounds v dn lo hi (length xd) ->
  exists xd', evaluate_dependents dn v = Some (set_x_dep v xd') /\
    length xd' = length xd /\
    forall i k, 0 <= i < ndep_nodes dn -> 0 <= k < bsize v ->
      aget xd' (bsize v * i + k) = dep_value v dn lo hi i k.
Proof.
  intros (vm & Hvm & Hlo & Hhi) Hxd (HB & Hcap & Htab).
  unfold evaluate_dependents. rewrite Hvm. simpl. rewrite Hxd. simpl.
  set (B := bsize v) in *.
  destruct (Z_le_gt_dec 0 (ndep_nodes dn)) as [Hn|Hn].
  2:{ rewrite for_range_empty by lia. simpl. exists xd.
      split_and!; try done. intros; lia. }
  loop_invariant (fun i (a : list T) =>
      length a = length xd /\
      forall i' k, 0 <= i' < i -> 0 <= k < B ->
        aget a (B * i' + k) = dep_value v dn lo hi i' k) Hloop.
  destruct Hloop as (xd' & -> & Hlen & Hval); [done| | |by simpl; eauto].
  { split; [done|]. intros; lia. }
  intros i a Hi (Hlen & Hval).
  destruct (Htab i Hi) as (jp0 & jp1 & Hjp0 & Hjp1 & Hspan).
  destruct (zero_block_spec B a (B * i)) as (a1 & -> & Hl1 & Hg1);
    [done|nia|nia|].
  simpl. rewrite Hjp0. simpl. rewrite Hjp1. simpl.
  assert (forall k, 0 <= k < B ->
            dep_value v dn lo hi i k
            = weighted_sum v dn lo hi k (seqZ jp0 (jp1 - jp0))) as Hdv.
  { intros k Hk. unfold dep_value. by rewrite Hjp0, Hjp1. }
  assert (exists a2, for_range jp0 jp1 (fun jp xd0 =>
              c ← aget (dep_conn dn) jp;
              own ← owned (getOwnerRange vm) (comm_rank (comm v)) c;
              if own : bool then
                lo ← aget (getOwnerRange vm) (comm_rank (comm v));
                dep_gather_block B (dep_weights dn) jp (x v) (B * (c - lo))
                  xd0 (B * i)
              else
                ei ← ext_indices v; xe ← x_ext v;
                dep_gather_block B (dep_weights dn) jp xe
                  (B * findIndex ei c) xd0 (B * i)) a1 = Some a2 /\
            length a2 = length a1 /\
            (forall p, ~ (B * i <= p < B * i + B) -> aget a2 p = aget a1 p) /\
            forall k, 0 <= k < B ->
              aget a2 (B * i + k)
              = weighted_sum v dn lo hi k (seqZ jp0 (jp1 - jp0)))
    as (a2 & -> & Hl2 & Hout & Hin).
  { destruct (Z_le_gt_dec jp0 jp1) as [Hjp|Hjp].
    2:{ rewrite for_range_empty by lia. exists a1. split_and!; try done.
        intros k Hk. rewrite seqZ_nil by lia. rewrite Hg1.
        by rewrite decide_True by lia. }
    loop_invariant (fun jp (c : list T) =>
        length c = length a1 /\
        (forall p, ~ (B * i <= p < B * i + B) -> aget c p = aget a1 p) /\
        forall k, 0 <= k < B ->
          aget c (B * i + k)
          = weighted_sum v dn lo hi k (seqZ jp0 (jp - jp0))) Hinner.
    destruct Hinner as (a2 & Hrun & Hinv); [done| | |by eauto].
    { split_and!; try done. intros k Hk. rewrite Z.sub_diag. simpl.
      rewrite Hg1. by rewrite decide_True by lia. }
    intros jp c0 Hjpr (Hl0 & Hout & Hin).
    destruct (Hspan jp Hjpr) as (c & w & Hc & Hw & Hpar).
    rewrite Hc. simpl. rewrite (owned_spec _ _ lo hi c Hlo Hhi). simpl.
    destruct (parent_block v lo hi c Hpar)
      as (src & base & Hb0 & Hb1 & Hsrc & Hwhere).
    fold B in Hb1, Hwhere.
    destruct (dep_gather_block_spec B (dep_weights dn) jp w src base c0
                (B * i)) as (c1 & Hc1 & Hlc1 & Hgc1);
      [done|done|done|done|nia|nia|].
    exists c1. split.
    { case_bool_decide.
      - rewrite decide_True in Hwhere by done. destruct Hwhere as [-> ->].
        by rewrite Hlo.
      - rewrite decide_False in Hwhere by done.
        destruct Hwhere as (ei & -> & -> & ->). done. }
    split_and!; [congruence| |].
    - intros p Hp. by rewrite Hgc1, decide_False, Hout by done.
    - intros k Hk. rewrite Hgc1, decide_True by lia.
      replace (jp + 1 - jp0) with (jp - jp0 + 1) by lia.
      rewrite seqZ_snoc, weighted_sum_snoc by lia.
      replace (jp0 + (jp - jp0)) with jp by lia.
      rewrite Hin, Hw, Hc by done.
      destruct (weighted_sum _ _ _ _ _ _); simpl; [|done].
      rewrite Hsrc. by replace (base + (B * i + k - B * i)) with (base + k)
        by lia. }
  exists a2. split; [done|]. split; [congruence|].
  intros i' k Hi' Hk. destruct (decide (i' = i)) as [->|Hne].
  - by rewrite Hin, Hdv.
  - rewrite Hout by (apply block_apart; done).
    rewrite Hg1, decide_False by (apply block_apart; done).
    apply Hval; [lia|done].
Qed.

Lemma run_plan_set_x_dep v v1 other operation :
  run_plan v operation = Some v1 ->
  run_plan (set_x_dep v other) operation = Some (set_x_dep v1 other).
Proof.
  unfold run_plan. simpl. destruct (ext_dist v); [|by intros [= <-]].
  destruct (ext_ctx v); [|done]. destruct (x_ext v); [|done]. simpl.
  destruct (operation _ _ _ _) as [[c a] e]. by intros [= <-].
Qed.

(** C3. Once the forward exchange has left the vector in [v1],
    [endDistributeValues] sets entry [k] of every dependent node [i] to
    the weighted sum of entry [k] of its parents, read from the local
    array for owned parents and from the ghost array otherwise; the
    sum starts from zero, so the former contents of the dependent
    array do not matter. *)
Theorem endDistributeValues_evaluates_dependents v v1 dn lo hi xd :
  run_plan v endForward = Some v1 ->
  dep_nodes v1 = Some dn ->
  rank_owns v1 lo hi ->
  x_dep v1 = Some xd ->
  deps_in_bounds v1 dn lo hi (length xd) ->
  exists xd',
    endDistributeValues v = Some (set_x_dep v1 xd') /\
    length xd' = length xd /\
    (forall i k, 0 <= i < ndep_nodes dn -> 0 <= k < bsize v1 ->
       aget xd' (bsize v1 * i + k) = dep_value v1 dn lo hi i k) /\
    forall other, length other = length xd ->
      exists xd'',
        endDistributeValues (set_x_dep v other) = Some (set_x_dep v1 xd'') /\
        forall i k, 0 <= i < ndep_nodes dn -> 0 <= k < bsize v1 ->
          aget xd'' (bsize v1 * i + k) = aget xd' (bsize v1 * i + k).
Proof.
  intros Hplan Hdn Hrank Hxd Hwf.
  destruct (evaluate_dependents_spec v1 dn lo hi xd Hrank Hxd Hwf)
    as (xd' & Hrun & Hlen & Hval).
  exists xd'. split_and!; try done.
  - unfold endDistributeValues. rewrite Hplan. simpl. by rewrite Hdn.
  - intros other Hother.
    destruct (evaluate_dependents_spec (set_x_dep v1 other) dn lo hi other)
      as (xd'' & Hrun' & Hlen' & Hval'); [done|done|by rewrite Hother|].
    exists xd''. split.
    + unfold endDistributeValues.
      rewrite (run_plan_set_x_dep _ _ _ _ Hplan). simpl. by rewrite Hdn.
    + intros i k Hi Hk. rewrite Hval by done.
      exact (Hval' i k Hi Hk).
Qed.

(** *** Collapsing the dependent contributions *)

Lemma set_arrays_id v : set_arrays v (x v) (x_ext v) = v.
Proof. by destruct v. Qed.

Lemma parents_before_succ dn i :
  0 <= i ->
  parents_before dn (i + 1) = parents_before dn i ++ (pair i <$> span dn i).
Proof.
  intros Hi. unfold parents_before.
  rewrite seqZ_snoc, fmap_app, concat_app by done. simpl.
  by rewrite app_nil_r.
Qed.

(** The loop that adds a weighted dependent block to a parent block. *)
Lemma dep_scatter_block_spec B weights jp w (xd : list T) z (a : list T) base :
  0 <= B -> aget weights jp = Some w ->
  0 <= z -> z + B <= Z.of_nat (length xd) ->
  0 <= base -> base + B <= Z.of_nat (length a) ->
  exists a', dep_scatter_block B weights jp xd z a base = Some a' /\
    length a' = length a /\
    forall p, aget a' p =
      if decide (base <= p < base + B)
      then yv ← aget a p; zk ← aget xd (z + (p - base));
           Some (add yv (mul w zk))
      else aget a p.
Proof.
  intros HB Hw Hz Hzl Hb Hbl. unfold dep_scatter_block.
  loop_invariant (fun k (c : list T) =>
      length c = length a /\
      forall p, aget c p =
        if decide (base <= p < base + k)
        then yv ← aget a p; zk ← aget xd (z + (p - base));
             Some (add yv (mul w zk))
        else aget a p) Hloop.
  destruct Hloop as (a' & Hrun & Hlen & Hget); [done| | |by eauto].
  - split; [done|]. intros p. by rewrite decide_False by lia.
  - intros k c Hk (Hlen & Hget).
    destruct (aget_is_Some a (base + k)) as [yv Hyv]; [lia|].
    destruct (aget_is_Some xd (z + k)) as [zk Hzk]; [lia|].
    rewrite Hget, decide_False, Hyv, Hw, Hzk by lia. simpl.
    destruct (aset_is_Some c (base + k) (add yv (mul w zk))) as [c' Hc'];
      [lia|].
    exists c'. split; [done|]. split; [by rewrite (aset_length _ _ _ _ Hc')|].
    intros p. rewrite (aget_aset _ _ _ _ p Hc'), Hget.
    destruct (decide (p = base + k)) as [->|].
    + rewrite decide_True by lia. rewrite Hyv. simpl.
      replace (z + (base + k - base)) with (z + k) by lia. by rewrite Hzk.
    + repeat case_decide; try done; lia.
Qed.

Lemma collapsed_snoc v dn lo hi xd to_local p pairs ijp init :
  collapsed v dn lo hi xd to_local p (pairs ++ [ijp]) init
  = accumulate v dn lo hi xd to_local p
      (collapsed v dn lo hi xd to_local p pairs init) ijp.
Proof. unfold collapsed. by rewrite foldl_app. Qed.

Lemma collapse_dependents_spec v dn vm lo hi xd :
  var_map v = Some vm ->
  aget (getOwnerRange vm) (comm_rank (comm v)) = Some lo ->
  aget (getOwnerRange vm) (comm_rank (comm v) + 1) = Some hi ->
  x_dep v = Some xd ->
  deps_in_bounds v dn lo hi (length xd) ->
  exists v', collapse_dependents dn vm v = Some v' /\
    collapsed_state v dn lo hi xd (parents_before dn (ndep_nodes dn)) v'.
Proof.
  intros Hvm Hlo Hhi Hxd (HB & Hcap & Htab).
  unfold collapse_dependents. simpl. rewrite Hxd. simpl.
  set (B := bsize v) in *.
  assert (collapsed_state v dn lo hi xd [] v) as Hinit.
  { exists (x v), (x_ext v). by rewrite set_arrays_id. }
  destruct (Z_le_gt_dec 0 (ndep_nodes dn)) as [Hn|Hn].
  2:{ rewrite for_range_empty by lia. exists v. split; [done|].
      unfold parents_before. by rewrite seqZ_nil by lia. }
  loop_invariant (fun i (v' : TACSBVec T TACSBVecDistCtx) =>
      collapsed_state v dn lo hi xd (parents_before dn i) v') Hloop.
  destruct Hloop as (v' & Hrun & Hst); [done|done| |by eauto].
  intros i v1 Hi Hv1.
  assert (bsize v1 = B) as -> by (by destruct Hv1 as (? & ? & -> & _)).
  destruct (Htab i Hi) as (jp0 & jp1 & Hjp0 & Hjp1 & Hspan).
  rewrite Hjp0. simpl. rewrite Hjp1. simpl.
  rewrite parents_before_succ by lia. unfold span. rewrite Hjp0, Hjp1.
  destruct (Z_le_gt_dec jp0 jp1) as [Hjp|Hjp].
  2:{ rewrite for_range_empty by lia. exists v1. split; [done|].
      rewrite seqZ_nil by lia. simpl. by rewrite app_nil_r. }
  loop_invariant (fun jp (v' : TACSBVec T TACSBVecDistCtx) =>
      collapsed_state v dn lo hi xd
        (parents_before dn i ++ (pair i <$> seqZ jp0 (jp - jp0))) v') Hinner.
  destruct Hinner as (v2 & Hrun & Hst); [done| | |by eauto].
  { rewrite Z.sub_diag. simpl. by rewrite app_nil_r. }
  intros jp v2 Hjpr (a & e & -> & Hla & Hle & Hent).
  destruct (Hspan jp Hjpr) as (c & w & Hc & Hw & Hpar).
  rewrite Hc. simpl. rewrite (owned_spec _ _ lo hi c Hlo Hhi). simpl.
  replace (jp + 1 - jp0) with (jp - jp0 + 1) by lia.
  rewrite seqZ_snoc, fmap_app, app_assoc by lia. simpl.
  replace (jp0 + (jp - jp0)) with jp by lia.
  set (pairs := parents_before dn i ++ (pair i <$> seqZ jp0 (jp - jp0))) in *.
  unfold parent_in_bounds in Hpar. fold B in Hpar.
  cbn [set_arrays bsize x x_ext ext_indices]. fold B.
  case_bool_decide as Hown.
  - rewrite decide_True in Hpar by done. destruct Hpar as [Hb0 Hb1].
    rewrite Hlo. simpl.
    destruct (dep_scatter_block_spec B (dep_weights dn) jp w xd (B * i) a
                (B * (c - lo))) as (a' & -> & Hla' & Hga');
      [done|done|nia|nia|done|lia|].
    simpl. eexists. split; [done|].
    exists a', e. split_and!; [done|congruence|done|].
    intros p. destruct (Hent p) as [Hl Hg].
    rewrite !collapsed_snoc. unfold accumulate. simpl. rewrite Hc. simpl.
    unfold parent_base. rewrite decide_True by done. fold B. split.
    + rewrite Hga'. case_decide.
      * rewrite decide_True by done. rewrite Hl, Hw.
        destruct (collapsed _ _ _ _ _ _ _ _ _); simpl; [|done].
        by destruct (aget xd _).
      * rewrite decide_False by tauto. done.
    + rewrite decide_False by (intros [? _]; done). done.
  - rewrite decide_False in Hpar by done.
    destruct Hpar as (ei & xe0 & Hei & Hxe0 & Hb0 & Hb1). simpl.
    rewrite Hei. simpl. rewrite Hxe0 in Hle.
    destruct e as [xe|]; [|done]. simpl in Hle. injection Hle as Hle. simpl.
    destruct (dep_scatter_block_spec B (dep_weights dn) jp w xd (B * i) xe
                (B * findIndex ei c)) as (xe' & -> & Hle' & Hge');
      [done|done|nia|nia|done|lia|].
    simpl. eexists. split; [done|].
    exists a, (Some xe'). split_and!; [done|done| |].
    { rewrite Hxe0. simpl. congruence. }
    intros p. destruct (Hent p) as [Hl Hg]. simpl in Hg.
    rewrite !collapsed_snoc. unfold accumulate. simpl. rewrite Hc. simpl.
    unfold parent_base. rewrite decide_False by done. rewrite Hei. simpl.
    fold B. split; [done|].
    rewrite Hge'. case_decide.
    + rewrite decide_True by done. rewrite Hg, Hw.
      destruct (collapsed _ _ _ _ _ _ _ _ _); simpl; [|done].
      by destruct (aget xd _).
    + rewrite decide_False by tauto. done.
Qed.

(** C2. [beginSetValues] with [ADD_VALUES] hands to the reverse
    exchange the arrays in which every dependent node has been added
    to its parents: entry [p] of the local array has received
    [dep_weights[jp]*dep[B*i + k]] for every parent entry [jp] of
    every dependent node [i] whose parent is owned and has [p] as
    entry [k] of its block, and entry [p] of the ghost array the same
    for the parents that are not owned, whose blocks start at
    [B*findIndex]. With [INSERT_VALUES] the exchange receives the
    arrays as they are. *)
Theorem beginSetValues_collapses_dependents v dn lo hi xd :
  dep_nodes v = Some dn ->
  rank_owns v lo hi ->
  x_dep v = Some xd ->
  deps_in_bounds v dn lo hi (length xd) ->
  (exists v',
     collapsed_state v dn lo hi xd (parents_before dn (ndep_nodes dn)) v' /\
     beginSetValues ADD_VALUES v
     = run_plan v' (fun d ctx x xe => beginReverse d ctx xe x ADD_VALUES)) /\
  beginSetValues INSERT_VALUES v
  = run_plan v (fun d ctx x xe => beginReverse d ctx xe x INSERT_VALUES).
Proof.
  intros Hdn (vm & Hvm & Hlo & Hhi) Hxd Hwf. split.
  - destruct (collapse_dependents_spec v dn vm lo hi xd)
      as (v' & Hrun & Hst); try done.
    exists v'. split; [done|].
    unfold beginSetValues. rewrite Hvm, Hdn. simpl. by rewrite Hrun.
  - unfold beginSetValues. rewrite Hvm, Hdn. done.
Qed.

End Dependent_nodes.

(** ** The rest state of the three arrays *)

Section Rest_state.
Context {T : Type} `{TacsScalar T} {TACSBVecDistCtx : Type}.
Implicit Types v : TACSBVec T TACSBVecDistCtx.

Lemma replicate_zeroed (n : Z) (rest : list T) :
  zeroed (replicate (Z.to_nat n) zero ++ rest) n.
Proof.
  intros j Hj. unfold aget. rewrite decide_True by lia.
  rewrite lookup_app_l by (rewrite length_replicate; lia).
  apply lookup_replicate_2. lia.
Qed.

Lemma new_zeroed_zeroed n a : new_zeroed n = Some a -> zeroed a n.
Proof.
  unfold new_zeroed. case_decide; [|done]. intros [= <-].
  rewrite <- (app_nil_r (replicate _ _)). apply replicate_zeroed.
Qed.

Lemma memset_zero_zeroed a n a' : memset_zero a n = Some a' -> zeroed a' n.
Proof.
  unfold memset_zero. case_decide; [|done]. intros [= <-].
  apply replicate_zeroed.
Qed.

(** Whenever they return, the constructors, [zeroEntries] and
    [endSetValues] leave the ghost array zero. *)
Lemma TACSBVec_new_ghost_zero map B bc ed dn v :
  TACSBVec_new map B bc ed dn = Some v -> ghost_zero v.
Proof.
  unfold TACSBVec_new, ghost_zero. intros Hnew.
  destruct (getDim map) as [dim|]; [|done]. simpl in Hnew.
  destruct (new_zeroed (B * dim)) as [a|]; [|done]. simpl in Hnew.
  destruct ed as [d|]; simpl in Hnew;
    [destruct (new_zeroed (B * dist_getDim d)) as [e|] eqn:He; [|done];
     simpl in Hnew|];
    (destruct dn as [dn|]; simpl in Hnew;
     [destruct (new_zeroed (B * ndep_nodes dn)); [|done]; simpl in Hnew|]);
    injection Hnew as <-; simpl; intros xe [= <-].
  all: by apply new_zeroed_zeroed.
Qed.

Lemma TACSBVec_new_comm_ghost_zero c n B v :
  TACSBVec_new_comm c n B = Some v -> ghost_zero v.
Proof.
  unfold TACSBVec_new_comm, ghost_zero. intros Hnew.
  destruct (new_zeroed n); [|done]. simpl in Hnew. by injection Hnew as <-.
Qed.

Lemma zeroEntries_zero v v' :
  zeroEntries v = Some v' -> ghost_zero v' /\ local_zero v' /\ dep_zero v'.
Proof.
  unfold zeroEntries, ghost_zero, local_zero, dep_zero. intros Hz.
  destruct (memset_zero (x v) (size v)) as [a|] eqn:Ha; [|done].
  apply memset_zero_zeroed in Ha. simpl in Hz.
  destruct (x_ext v) as [e|] eqn:He; simpl in Hz.
  - destruct (memset_zero e (ext_size v)) as [e'|] eqn:He'; [|done].
    apply memset_zero_zeroed in He'. simpl in Hz.
    destruct (x_dep v) as [d|] eqn:Hd; simpl in Hz.
    + destruct (memset_zero d (dep_size v)) as [d'|] eqn:Hd'; [|done].
      apply memset_zero_zeroed in Hd'. simpl in Hz. injection Hz as <-.
      simpl. split_and!; [by intros ? [= <-]|done|by intros ? [= <-]].
    + injection Hz as <-. simpl. rewrite Hd.
      split_and!; [by intros ? [= <-]|done|done].
  - destruct (x_dep v) as [d|] eqn:Hd; simpl in Hz.
    + destruct (memset_zero d (dep_size v)) as [d'|] eqn:Hd'; [|done].
      apply memset_zero_zeroed in Hd'. simpl in Hz. injection Hz as <-.
      simpl. rewrite He. split_and!; [done|done|by intros ? [= <-]].
    + injection Hz as <-. simpl. rewrite He, Hd. by split_and!.
Qed.

Lemma endSetValues_ghost_zero op v v' :
  endSetValues op v = Some v' -> ghost_zero v'.
Proof.
  unfold endSetValues, ghost_zero. intros Hend.
  destruct (run_plan v _) as [v1|] eqn:Hplan; [|done]. simpl in Hend.
  destruct (x_ext v1) as [e|] eqn:He.
  - destruct (memset_zero e (ext_size v1)) eqn:Hm; [|done]. simpl in Hend.
    injection Hend as <-. simpl. intros xe [= <-].
    by apply (memset_zero_zeroed e).
  - injection Hend as <-. congruence.
Qed.

Lemma memset_zero_defined (a : list T) n :
  0 <= n <= Z.of_nat (length a) -> is_Some (memset_zero a n).
Proof. intros Hn. unfold memset_zero. by rewrite decide_True. Qed.

Lemma zeroEntries_defined v : sized v -> is_Some (zeroEntries v).
Proof.
  intros (Hx & He & Hd). unfold zeroEntries.
  destruct (memset_zero_defined (x v) (size v) Hx) as [a ->]. simpl.
  destruct (x_ext v) as [e|]; simpl.
  - destruct (memset_zero_defined e (ext_size v) (He e eq_refl)) as [e' ->].
    simpl. destruct (x_dep v) as [d|]; simpl; [|done].
    by destruct (memset_zero_defined d (dep_size v) (Hd d eq_refl)) as [d' ->].
  - destruct (x_dep v) as [d|]; simpl; [|done].
    by destruct (memset_zero_defined d (dep_size v) (Hd d eq_refl)) as [d' ->].
Qed.

Lemma memset_zero_cleared a n a' :
  memset_zero a n = Some a' -> cleared n a a'.
Proof.
  unfold memset_zero. case_decide as Hn; [|done]. intros [= <-]. split.
  - rewrite length_app, length_replicate, length_drop. lia.
  - intros p. destruct (decide (0 <= p < n)) as [Hp|Hp].
    + by apply replicate_zeroed.
    + unfold aget. destruct (decide (0 <= p)) as [Hp0|]; [|done].
      rewrite lookup_app_r by (rewrite length_replicate; lia).
      rewrite length_replicate, lookup_drop. f_equal. lia.
Qed.

(** The constructors leave the ghost array the plan asks for, all
    zero, and no ghost array without a plan. *)
Lemma TACSBVec_new_fresh_ghosts map B bc ed dn v :
  TACSBVec_new map B bc ed dn = Some v -> fresh_ghosts B ed v.
Proof.
  unfold TACSBVec_new, fresh_ghosts. intros Hnew.
  destruct (getDim map) as [dim|]; [|done]. simpl in Hnew.
  destruct (new_zeroed (B * dim)) as [a|]; [|done]. simpl in Hnew.
  destruct ed as [d|]; simpl in Hnew.
  - destruct (new_zeroed (B * dist_getDim d)) as [e|] eqn:He; [|done].
    unfold new_zeroed in He. case_decide; [|done]. injection He as <-.
    simpl in Hnew.
    destruct dn as [dn|]; simpl in Hnew;
      [destruct (new_zeroed (B * ndep_nodes dn)); [|done]; simpl in Hnew|];
      by injection Hnew as <-.
  - destruct dn as [dn|]; simpl in Hnew;
      [destruct (new_zeroed (B * ndep_nodes dn)); [|done]; simpl in Hnew|];
      by injection Hnew as <-.
Qed.

(** [zeroEntries] changes the three arrays only, each in the part the
    vector counts as its entries. *)
Lemma zeroEntries_frame v v' :
  zeroEntries v = Some v' ->
  same_frame v v' /\ cleared (size v) (x v) (x v') /\
  cleared_opt (ext_size v) (x_ext v) (x_ext v') /\
  cleared_opt (dep_size v) (x_dep v) (x_dep v').
Proof.
  unfold zeroEntries, same_frame, cleared_opt. intros Hz.
  destruct (memset_zero (x v) (size v)) as [a|] eqn:Ha; [|done].
  apply memset_zero_cleared in Ha. simpl in Hz.
  destruct (x_ext v) as [e|] eqn:He; simpl in Hz.
  - destruct (memset_zero e (ext_size v)) as [e'|] eqn:He'; [|done].
    apply memset_zero_cleared in He'. simpl in Hz.
    destruct (x_dep v) as [d|] eqn:Hd; simpl in Hz.
    + destruct (memset_zero d (dep_size v)) as [d'|] eqn:Hd'; [|done].
      apply memset_zero_cleared in Hd'. simpl in Hz. injection Hz as <-.
      by unfold set_x_dep, set_x_ext, set_x.
    + injection Hz as <-. unfold set_x_ext, set_x. simpl. by rewrite Hd.
  - destruct (x_dep v) as [d|] eqn:Hd; simpl in Hz.
    + destruct (memset_zero d (dep_size v)) as [d'|] eqn:Hd'; [|done].
      apply memset_zero_cleared in Hd'. simpl in Hz. injection Hz as <-.
      unfold set_x_dep, set_x. simpl. by rewrite He.
    + injection Hz as <-. unfold set_x. simpl. by rewrite He, Hd.
Qed.

(** [endSetValues] changes, in the state the exchange leaves, the
    ghost array only. *)
Lemma endSetValues_frame op v v1 v' :
  run_plan v (fun d ctx x xe => endReverse d ctx xe x op) = Some v1 ->
  endSetValues op v = Some v' ->
  same_frame v1 v' /\ x v' = x v1 /\ x_dep v' = x_dep v1 /\
  cleared_opt (ext_size v1) (x_ext v1) (x_ext v').
Proof.
  unfold endSetValues, same_frame, cleared_opt. intros -> Hend.
  simpl in Hend. destruct (x_ext v1) as [e|] eqn:He.
  - destruct (memset_zero e (ext_size v1)) as [e'|] eqn:Hm; [|done].
    apply memset_zero_cleared in Hm. simpl in Hend.
    injection Hend as <-. by unfold set_x_ext.
  - injection Hend as <-. destruct v1. simpl in *. by subst.
Qed.

(** C6. Every ghost entry is zero after either constructor, after
    [zeroEntries] and after [endSetValues], which zeroes the ghost
    array once the reverse exchange has left the vector in [v1];
    [zeroEntries] also leaves every local and every dependent entry
    zero. The entries are those the vector had before the call: the
    constructors make the ghost array the plan asks for, and the two
    methods keep the sizes and every other field, and change nothing
    but the entries they zero. *)
Theorem ghost_zero_at_rest :
  (forall map B bc ed dn v,
     TACSBVec_new map B bc ed dn = Some v ->
     ghost_zero v /\ fresh_ghosts B ed v) /\
  (forall c n B v,
     TACSBVec_new_comm c n B = Some v ->
     ghost_zero v /\ fresh_ghosts B None v) /\
  (forall v, sized v ->
     exists v', zeroEntries v = Some v' /\
       (ghost_zero v' /\ local_zero v' /\ dep_zero v') /\
       same_frame v v' /\ cleared (size v) (x v) (x v') /\
       cleared_opt (ext_size v) (x_ext v) (x_ext v') /\
       cleared_opt (dep_size v) (x_dep v) (x_dep v')) /\
  (forall op v v1,
     run_plan v (fun d ctx x xe => endReverse d ctx xe x op) = Some v1 ->
     holds (x_ext v1) (ext_size v1) ->
     exists v', endSetValues op v = Some v' /\ ghost_zero v' /\
       same_frame v1 v' /\ x v' = x v1 /\ x_dep v' = x_dep v1 /\
       cleared_opt (ext_size v1) (x_ext v1) (x_ext v')).
Proof.
  split_and!.
  - intros map B bc ed dn v Hnew. split.
    + by apply (TACSBVec_new_ghost_zero map B bc ed dn).
    + by apply (TACSBVec_new_fresh_ghosts map B bc ed dn).
  - intros c n B v Hnew. split.
    + by apply (TACSBVec_new_comm_ghost_zero c n B).
    + unfold TACSBVec_new_comm in Hnew.
      destruct (new_zeroed n); [|done]. simpl in Hnew.
      by injection Hnew as <-.
  - intros v Hv. destruct (zeroEntries_defined v Hv) as [v' Hv'].
    exists v'. split; [done|]. split; [by apply (zeroEntries_zero v)|].
    by apply zeroEntries_frame.
  - intros op v v1 Hplan Hroom.
    assert (is_Some (endSetValues op v)) as [v' Hv'].
    { unfold endSetValues. rewrite Hplan. simpl.
      destruct (x_ext v1) as [e|]; [|done].
      by destruct (memset_zero_defined e (ext_size v1) (Hroom e eq_refl))
        as [e' ->]. }
    exists v'. split; [done|].
    split; [by apply (endSetValues_ghost_zero op v)|].
    by apply (endSetValues_frame op v v1).
Qed.

End Rest_state.

(** ** Peers of the wrong class or size *)

Section Peer_mismatch.
Context {T : Type} `{TacsScalar T} {TACSBVecDistCtx : Type}.
Implicit Types v : TACSBVec T TACSBVecDistCtx.
Implicit Types tvec : TACSVec T TACSBVecDistCtx.

(** C8. With a mismatched peer, [dot] returns zero before any
    reduction, on the rank and in the collective call, and [axpy],
    [axpby] and [copyValues] return the vector as it was. The peer is
    an input only: no method of the embedding returns a new state for
    it. *)
Theorem mismatched_peer_is_inert use_complex v tvec alpha beta :
  mismatched v tvec ->
  dot_local use_complex v tvec = Some (dot_return zero) /\
  (forall world r steps,
     mapM (fun p => dot_local use_complex p.1 p.2) world = Some steps ->
     aget world r = Some (v, tvec) ->
     dot use_complex world r = Some zero) /\
  axpy alpha tvec v = Some v /\
  axpby alpha beta tvec v = Some v /\
  copyValues tvec v = Some v.
Proof.
  intros Hmis. unfold mismatched in Hmis.
  assert (Hloc : dot_local use_complex v tvec = Some (dot_return zero)).
  { unfold dot_local. destruct (dynamic_cast tvec); [|done].
    by rewrite decide_True. }
  split; [done|]. split.
  - intros world r steps Hsteps Hr. unfold dot. rewrite Hsteps. simpl.
    unfold aget in *. case_decide; [|done].
    rewrite mapM_Some in Hsteps.
    destruct (Forall2_lookup_l _ _ _ _ _ Hsteps Hr) as (st & -> & Hst).
    simpl in *. rewrite Hloc in Hst. by injection Hst as <-.
  - unfold axpy, axpby, copyValues.
    destruct (dynamic_cast tvec); [|done]. by rewrite !decide_True.
Qed.

End Peer_mismatch.

(** ** Norm and dot product in exact arithmetic *)

Section Norm_dot.
Context {TACSBVecDistCtx : Type}.
Implicit Types v : TACSBVec R TACSBVecDistCtx.

(** A rank whose array holds its [size] scalars contributes to [norm]. *)
Lemma norm_res_defined use_complex v :
  size v <= Z.of_nat (length (x v)) -> is_Some (norm_res use_complex v).
Proof.
  intros Hsz. unfold norm_res. destruct use_complex.
  - destruct (Z_le_gt_dec 0 (size v)) as [Hpos|Hneg].
    + assert (0 < 4) as H4 by lia.
      pose proof (Z.rem_bound_pos (size v) 4 Hpos H4) as Hrem.
      pose proof (Z.rem_mod_nonneg (size v) 4 Hpos H4) as Hmod.
      pose proof (Z.mod_le (size v) 4 Hpos H4) as Hle.
      destruct (for_range_inv (fun _ (_ : R) => True) 0 (Z.rem (size v) 4)
                  (fun i res => y0 ← aget (x v) i; Some (add res (mul y0 y0)))
                  zero) as (r1 & -> & _); [lia|done| |].
      { intros i s Hi _. destruct (aget_is_Some (x v) i) as [y ->]; [lia|].
        simpl. eauto. }
      simpl. unfold for_range4.
      edestruct (for_iter_inv (fun (_ : Z) (_ : R) => True) 4) as (r2 & -> & _);
        [done| |done].
      intros m s Hm _.
      assert (Z.rem (size v) 4 + Z.of_nat m * 4 + 3 < size v) as Hin.
      { rewrite Z.max_r in Hm by lia.
        pose proof (Z.div_mod (size v) 4 ltac:(lia)) as Hdm.
        rewrite Hmod in *.
        replace (size v - size v `mod` 4 + 3)
          with (3 + (size v `div` 4) * 4) in Hm by lia.
        rewrite Z.div_add in Hm by lia.
        change (3 `div` 4) with 0%Z in Hm. lia. }
      rewrite Z.max_r by lia.
      destruct (aget_is_Some (x v) (Z.rem (size v) 4 + Z.of_nat m * 4))
        as [y0 ->]; [lia|].
      destruct (aget_is_Some (x v) (Z.rem (size v) 4 + Z.of_nat m * 4 + 1))
        as [y1 ->]; [lia|].
      destruct (aget_is_Some (x v) (Z.rem (size v) 4 + Z.of_nat m * 4 + 2))
        as [y2 ->]; [lia|].
      destruct (aget_is_Some (x v) (Z.rem (size v) 4 + Z.of_nat m * 4 + 3))
        as [y3 ->]; [lia|].
      simpl. eauto.
    + assert (Z.rem (size v) 4 <= 0) as Hrem.
      { apply Z.rem_nonpos; lia. }
      rewrite for_range_empty by done. simpl. unfold for_range4.
      replace (Z.to_nat _) with O; [done|].
      rewrite Z.max_l by lia.
      assert ((size v - 0 + 3) `div` 4 < 1); [|lia].
      apply Z.div_lt_upper_bound; lia.
  - unfold BLASnrm2, BLASdot.
    destruct (Z_le_gt_dec 0 (size v)) as [Hpos|Hneg].
    + destruct (for_range_inv (fun _ (_ : R) => True) 0 (size v)
                  (fun i res => ai ← aget (x v) i; bi ← aget (x v) i;
                                Some (add res (mul ai bi)))
                  zero) as (r1 & -> & _); [lia|done| |done].
      intros i s Hi _. destruct (aget_is_Some (x v) i) as [y ->]; [lia|].
      simpl. eauto.
    + rewrite for_range_empty by lia. done.
Qed.

Local Open Scope R_scope.

Lemma for_iter_preserves {St} (P : St -> Prop) step body n i (s s' : St) :
  for_iter n i step body s = Some s' ->
  P s ->
  (forall j t t', P t -> body j t = Some t' -> P t') ->
  P s'.
Proof.
  intros Hrun Hs Hstep.
  apply (for_iter_partial (fun _ => P) step body n i s s' Hrun Hs).
  intros m t t' _ Ht Hb. by apply (Hstep (i + Z.of_nat m * step)%Z t).
Qed.

Lemma BLASdot_self_nonneg n (a : list R) d : BLASdot n a a = Some d -> 0 <= d.
Proof.
  unfold BLASdot, for_range. intros Hrun.
  apply (for_iter_preserves (fun d => 0 <= d) _ _ _ _ _ _ Hrun).
  - simpl. lra.
  - intros j t t' Ht Hb. destruct (aget a j) as [aj|]; [|done].
    simpl in Hb. injection Hb as <-. nra.
Qed.

(** The contribution of a rank to [norm] is its contribution to
    [v.dot(v)], and it is not negative. *)
Lemma option_bind_ext {A B} (m1 m2 : option A) (k1 k2 : A -> option B) :
  m1 = m2 -> (forall a, k1 a = k2 a) -> m1 ≫= k1 = m2 ≫= k2.
Proof. intros -> Hk. destruct m2; simpl; [apply Hk|done]. Qed.

Lemma norm_res_dot_local use_complex v res :
  norm_res use_complex v = Some res ->
  dot_local use_complex v (BVec v) = Some (dot_allreduce res) /\ 0 <= res.
Proof.
  unfold norm_res, dot_local. cbn [dynamic_cast].
  rewrite decide_False by tauto.
  destruct use_complex.
  - intros Hrun. split.
    + match goal with |- ?d ≫= _ = _ => assert (d = Some res) as ->; [|done] end.
      rewrite <- Hrun. apply option_bind_ext.
      * apply for_iter_ext. intros i s. by destruct (aget (x v) i).
      * intros a. apply for_iter_ext. intros i s.
        destruct (aget (x v) i); [|done]. simpl.
        destruct (aget (x v) (i + 1)); [|done]. simpl.
        destruct (aget (x v) (i + 2)); [|done]. simpl.
        by destruct (aget (x v) (i + 3)).
    + match type of Hrun with
      | context [for_range 0 ?h ?b ?z ≫= _] =>
          destruct (for_range 0 h b z) as [r1|] eqn:H1; [|done]
      end.
      simpl in Hrun.
      assert (0 <= r1).
      { apply (for_iter_preserves (fun d => 0 <= d) _ _ _ _ _ _ H1).
        - simpl. lra.
        - intros j t t' Ht Hb. destruct (aget (x v) j); [|done].
          simpl in Hb. injection Hb as <-. nra. }
      apply (for_iter_preserves (fun d => 0 <= d) _ _ _ _ _ _ Hrun); [done|].
      intros j t t' Ht Hb.
      destruct (aget (x v) j); [|done]. simpl in Hb.
      destruct (aget (x v) (j + 1)); [|done]. simpl in Hb.
      destruct (aget (x v) (j + 2)); [|done]. simpl in Hb.
      destruct (aget (x v) (j + 3)); [|done]. simpl in Hb.
      injection Hb as <-. nra.
  - unfold BLASnrm2. intros Hrun.
    destruct (BLASdot (size v) (x v) (x v)) as [d|] eqn:Hd; [|done].
    simpl in Hrun. injection Hrun as <-.
    pose proof (BLASdot_self_nonneg _ _ _ Hd) as Hnn.
    rewrite sqrt_sqrt by done. done.
Qed.

Lemma Allreduce_SUM_nonneg (contributions : list R) :
  Forall (fun c => 0 <= c) contributions ->
  0 <= MPI_Allreduce_SUM contributions.
Proof.
  unfold MPI_Allreduce_SUM. intros Hall.
  assert (forall acc : R, 0 <= acc -> 0 <= foldl add acc contributions) as Hgen.
  { induction Hall as [|c cs Hc _ IH]; intros acc Hacc; simpl; [done|].
    apply IH. lra. }
  apply Hgen. simpl. lra.
Qed.

(** C9. In exact real arithmetic, on any number of ranks and in either
    build, the square of [v.norm()] is the value [v.dot(v)] returns on
    every rank: both reduce the per-rank sums of squares with SUM, and
    [norm] takes the root of the total. *)
Theorem norm_squared_is_dot use_complex world :
  Forall (fun v => (size v <= Z.of_nat (length (x v)))%Z) world ->
  exists nrm,
    norm use_complex world = Some nrm /\
    forall r, (0 <= r < Z.of_nat (length world))%Z ->
      dot use_complex (with_itself <$> world) r = Some (nrm * nrm).
Proof.
  intros Hsz.
  assert (exists ress, mapM (norm_res use_complex) world = Some ress)
    as [ress Hress].
  { apply (mapM_is_Some_2 (norm_res use_complex) world).
    eapply Forall_impl; [exact Hsz|]. intros v Hv. by apply norm_res_defined. }
  unfold norm. rewrite Hress. simpl. eexists. split; [done|].
  intros r Hr. rewrite mapM_Some in Hress.
  assert (Forall (fun c => 0 <= c) ress) as Hnn.
  { apply Forall_forall. intros c Hc.
    apply list_elem_of_lookup in Hc as [i Hi].
    destruct (Forall2_lookup_r _ _ _ _ _ Hress Hi) as (v & _ & Hv).
    by apply norm_res_dot_local in Hv as [_ ?]. }
  assert (mapM (fun p => dot_local use_complex p.1 p.2) (with_itself <$> world)
          = Some (dot_allreduce <$> ress)) as Hsteps.
  { apply mapM_Some. apply Forall2_fmap. simpl.
    eapply Forall2_impl; [exact Hress|]. intros v c Hv. simpl.
    by apply norm_res_dot_local in Hv as [? _]. }
  unfold dot. rewrite Hsteps. simpl.
  pose proof (Forall2_length _ _ _ Hress) as Hlen.
  destruct (aget_is_Some (dot_allreduce <$> ress) r) as [st Hst].
  { rewrite length_fmap. lia. }
  rewrite Hst. simpl. unfold aget in Hst. case_decide; [|done].
  rewrite list_lookup_fmap in Hst.
  destruct (ress !! Z.to_nat r) as [c|]; [|done]. injection Hst as <-.
  assert (mapM (fun s => match s with
                         | dot_allreduce res => Some res
                         | dot_return _ => None
                         end) (dot_allreduce <$> ress) = Some ress) as ->.
  { apply mapM_Some. apply Forall2_fmap_l. by apply Forall_Forall2_diag, Forall_forall. }
  simpl. by rewrite sqrt_sqrt by by apply Allreduce_SUM_nonneg.
Qed.

End Norm_dot.

(** ** Reading a file of the wrong length *)

Section File_input.
Context {T : Type} `{TacsScalar T} {TACSBVecDistCtx : Type}.
Implicit Types v : TACSBVec T TACSBVecDistCtx.

(** A file that cannot be opened makes [readFromFile] return 1 and
    leaves the vector alone. *)
Lemma readFromFile_unopened fs sizes filename v res :
  fs filename = None ->
  readFromFile fs sizes filename v = Some res ->
  res = (1, v).
Proof.
  intros Hfs. unfold readFromFile. rewrite Hfs.
  destruct (for_range _ _ _ _); simpl; [|done]. by intros [= <-].
Qed.

End File_input.

(** C4. The file was written by a vector of 10 scalars and the vector
    holds 8: [readFromFile] zeroes the array, but then it reads the
    first 8 scalars of the file into it all the same, and returns 0. *)
Theorem readFromFile_wrong_length_is_read :
  readFromFile
    (fun _ => Some {| file_header := Some 10;
                      file_values := [1; 2; 3; 4; 5; 6; 7; 8; 9; 10]%float |})
    [8] "v" (Scenario.alone [0; 0; 0; 0; 0; 0; 0; 0]%float)
  = Some (0, Scenario.alone [1; 2; 3; 4; 5; 6; 7; 8]%float).
Proof. vm_compute. reflexivity. Qed.

(** ** Inserting at a ghost node *)

(** C1. [INSERT_VALUES] on a ghost node adds: two blocks inserted at
    the ghost node 3 of a fresh vector leave their sum there, not the
    second block. *)
Theorem setValues_insert_adds_to_ghost :
  x_ext <$> setValues 2 [3; 3] [1; 1; 2; 2]%float INSERT_VALUES
              (Scenario.rank0 (Scenario.zeros 4) (Scenario.zeros 2)
                 (Scenario.zeros 2))
  = Some (Some [3; 3]%float).
Proof. vm_compute. reflexivity. Qed.

(** ** The scenario, checked *)

Example scenario_pin :
  addBC 1 1 [0] (Some [7%float]) 1 (TACSBcMap_new 0) = Some Scenario.pin.
Proof. reflexivity. Qed.

Example scenario_construction :
  TACSBVec_new (Scenario.map 0) 2 (Some Scenario.pin)
    (Some (Scenario.idle_plan 3)) (Some Scenario.deps)
  = Some (Scenario.rank0 (Scenario.zeros 4) (Scenario.zeros 2)
            (Scenario.zeros 2)).
Proof. reflexivity. Qed.

Lemma ghost_zero_at_rest_witness :
  (ghost_zero (Scenario.rank0 (Scenario.zeros 4) (Scenario.zeros 2)
                 (Scenario.zeros 2)) /\
   fresh_ghosts 2 (Some (Scenario.idle_plan 3))
     (Scenario.rank0 (Scenario.zeros 4) (Scenario.zeros 2)
        (Scenario.zeros 2))) /\
  (exists v',
     zeroEntries (Scenario.rank0 [1; 2; 3; 4]%float [5; 6]%float
                    [7; 8]%float) = Some v' /\
     (ghost_zero v' /\ local_zero v' /\ dep_zero v') /\
     same_frame (Scenario.rank0 [1; 2; 3; 4]%float [5; 6]%float
                   [7; 8]%float) v' /\
     cleared 4 [1; 2; 3; 4]%float (x v') /\
     cleared_opt 2 (Some [5; 6]%float) (x_ext v') /\
     cleared_opt 2 (Some [7; 8]%float) (x_dep v')) /\
  exists v', endSetValues ADD_VALUES
               (Scenario.rank0 [1; 2; 3; 4]%float [5; 6]%float
                  [7; 8]%float) = Some v' /\
             ghost_zero v' /\
             same_frame (Scenario.rank0 [1; 2; 3; 4]%float [5; 6]%float
                           [7; 8]%float) v' /\
             x v' = [1; 2; 3; 4]%float /\ x_dep v' = Some [7; 8]%float /\
             cleared_opt 2 (Some [5; 6]%float) (x_ext v').
Proof.
  split_and!.
  - apply (proj1 ghost_zero_at_rest (Scenario.map 0) 2 (Some Scenario.pin)
             (Some (Scenario.idle_plan 3)) (Some Scenario.deps)).
    reflexivity.
  - apply (proj1 ghost_zero_at_rest (Scenario.map 0) 2 (Some Scenario.pin)
             (Some (Scenario.idle_plan 3)) (Some Scenario.deps)).
    reflexivity.
  - apply (proj1 (proj2 (proj2 ghost_zero_at_rest))
             (Scenario.rank0 [1; 2; 3; 4]%float [5; 6]%float [7; 8]%float)).
    split_and!; [simpl; lia|simpl; lia|..];
      intros l [= <-]; simpl; lia.
  - apply (proj2 (proj2 (proj2 ghost_zero_at_rest)) ADD_VALUES
             (Scenario.rank0 [1; 2; 3; 4]%float [5; 6]%float [7; 8]%float)
             (Scenario.rank0 [1; 2; 3; 4]%float [5; 6]%float [7; 8]%float)).
    + reflexivity.
    + intros l [= <-]. simpl. lia.
Defined.

Lemma mismatched_peer_is_inert_witness :
  mismatched (Scenario.rank0 [1; 2; 3; 4]%float [0; 0]%float [0; 0]%float)
    (BVec Scenario.short) /\
  axpy 2%float (BVec Scenario.short)
    (Scenario.rank0 [1; 2; 3; 4]%float [0; 0]%float [0; 0]%float)
  = Some (Scenario.rank0 [1; 2; 3; 4]%float [0; 0]%float [0; 0]%float).
Proof.
  split; [vm_compute; lia|].
  apply (mismatched_peer_is_inert false
           (Scenario.rank0 [1; 2; 3; 4]%float [0; 0]%float [0; 0]%float)
           (BVec Scenario.short) 2%float 3%float).
  vm_compute. lia.
Defined.

Lemma norm_squared_is_dot_witness :
  exists nrm,
    norm false [Scenario.real_rank 0 [1; 2; 3; 4]%R;
                Scenario.real_rank 1 [5; 6; 7; 8]%R] = Some nrm /\
    forall r, 0 <= r < 2 ->
      dot false (with_itself <$> [Scenario.real_rank 0 [1; 2; 3; 4]%R;
                                  Scenario.real_rank 1 [5; 6; 7; 8]%R]) r
      = Some (nrm * nrm)%R.
Proof.
  apply (norm_squared_is_dot false
           [Scenario.real_rank 0 [1; 2; 3; 4]%R;
            Scenario.real_rank 1 [5; 6; 7; 8]%R]).
  repeat constructor; simpl; lia.
Defined.

(** The scenario satisfies the side conditions of the theorems. *)
Lemma scenario_rank_owns l e d : rank_owns (Scenario.rank0 l e d) 0 2.
Proof. exists (Scenario.map 0). by split_and!. Qed.

Lemma scenario_deps_in_bounds l e d :
  length l = 4%nat -> length e = 2%nat ->
  deps_in_bounds (Scenario.rank0 l e d) Scenario.deps 0 2 2.
Proof.
  intros Hl He. split_and!; [done|done|]. simpl. intros i Hi.
  assert (i = 0) as -> by lia. exists 0, 2. split_and!; [done|done|].
  intros jp Hjp. assert (jp = 0 \/ jp = 1) as [-> | ->] by lia.
  - exists 0, 0.5%float. split_and!; [done|done|].
    unfold parent_in_bounds. simpl. rewrite Hl. lia.
  - exists 3, 0.5%float. split_and!; [done|done|].
    unfold parent_in_bounds. simpl.
    exists (Scenario.ghost_of 3), e. simpl. rewrite He. by split_and!.
Qed.

Lemma scenario_partition : partition [0; 2; 4] 2.
Proof.
  split_and!; [done|done|]. intros k a b Ha Hb.
  pose proof (aget_Some_lt _ _ _ Ha) as Hk.
  pose proof (aget_Some_lt _ _ _ Hb) as Hk'. simpl in Hk, Hk'.
  assert (k = 0 \/ k = 1) as [-> | ->] by lia;
    vm_compute in Ha, Hb; injection Ha as <-; injection Hb as <-; lia.
Qed.

Example scenario_S3 :
  x_dep <$> endDistributeValues
              (Scenario.rank0 [2; 2; 1; 1]%float [2; 2]%float [9; 9]%float)
  = Some (Some [2; 2]%float).
Proof. vm_compute. reflexivity. Qed.

Example scenario_S4 :
  (fun v => (x v, x_ext v)) <$>
    beginSetValues ADD_VALUES
      (Scenario.rank0 [1; 1; 1; 1]%float [0; 0]%float [4; 4]%float)
  = Some ([3; 3; 1; 1]%float, Some [2; 2]%float).
Proof. vm_compute. reflexivity. Qed.

Example scenario_S6 :
  x <$> applyBCs (Scenario.rank0 [1; 2; 3; 4]%float [0; 0]%float [0; 0]%float)
  = Some [1; 2; 0; 4]%float.
Proof. vm_compute. reflexivity. Qed.

Lemma beginSetValues_collapses_dependents_witness :
  let v := Scenario.rank0 [1; 1; 1; 1]%float [0; 0]%float [4; 4]%float in
  (exists v',
     collapsed_state v Scenario.deps 0 2 [4; 4]%float
       (parents_before Scenario.deps 1) v' /\
     beginSetValues ADD_VALUES v
     = run_plan v' (fun d ctx x xe => beginReverse d ctx xe x ADD_VALUES)) /\
  beginSetValues INSERT_VALUES v
  = run_plan v (fun d ctx x xe => beginReverse d ctx xe x INSERT_VALUES).
Proof.
  apply (beginSetValues_collapses_dependents
           (Scenario.rank0 [1; 1; 1; 1]%float [0; 0]%float [4; 4]%float)
           Scenario.deps 0 2 [4; 4]%float).
  - reflexivity.
  - apply scenario_rank_owns.
  - reflexivity.
  - apply scenario_deps_in_bounds; reflexivity.
Defined.

Lemma endDistributeValues_evaluates_dependents_witness :
  let v := Scenario.rank0 [2; 2; 1; 1]%float [2; 2]%float [9; 9]%float in
  exists xd',
    endDistributeValues v = Some (set_x_dep v xd') /\
    length xd' = 2%nat /\
    forall i k, 0 <= i < 1 -> 0 <= k < 2 ->
      aget xd' (2 * i + k) = dep_value v Scenario.deps 0 2 i k.
Proof.
  destruct (endDistributeValues_evaluates_dependents
              (Scenario.rank0 [2; 2; 1; 1]%float [2; 2]%float [9; 9]%float)
              (Scenario.rank0 [2; 2; 1; 1]%float [2; 2]%float [9; 9]%float)
              Scenario.deps 0 2 [9; 9]%float)
    as (xd' & Hrun & Hlen & Hval & _).
  - reflexivity.
  - reflexivity.
  - apply scenario_rank_owns.
  - reflexivity.
  - apply scenario_deps_in_bounds; reflexivity.
  - exists xd'. split_and!; [exact Hrun|exact Hlen|exact Hval].
Defined.

Lemma applyBCs_zeroes_constrained_witness :
  let v := Scenario.rank0 [1; 2; 3; 4]%float [0; 0]%float [0; 0]%float in
  exists a, applyBCs v = Some (set_x v a) /\
    (forall p, constrained v Scenario.pin 0 2 p -> aget a p = Some 0%float) /\
    (forall p, ~ constrained v Scenario.pin 0 2 p -> aget a p = aget (x v) p).
Proof.
  destruct (applyBCs_zeroes_constrained
              (Scenario.rank0 [1; 2; 3; 4]%float [0; 0]%float [0; 0]%float)
              Scenario.pin 0 2)
    as (a & Hrun & _ & Hz & Hf & _).
  - reflexivity.
  - apply scenario_rank_owns.
  - simpl. intros i Hi. assert (i = 0) as -> by (simpl in Hi; lia).
    exists 1. split; [reflexivity|]. intros _. exists 0, 1.
    split_and!; [reflexivity|reflexivity|]. intros k Hk.
    assert (k = 0) as -> by lia. exists 0. split; [reflexivity|].
    simpl. lia.
  - exists a. split_and!; [exact Hrun|exact Hz|exact Hf].
Defined.

Lemma getValues_after_insert_witness :
  exists v',
    setValues 3 [1; -1; 0] [1; 2; 3; 4; 5; 6]%float INSERT_VALUES
      (Scenario.rank0 (Scenario.zeros 4) (Scenario.zeros 2) (Scenario.zeros 2))
    = Some v' /\
    getValues 3 [1; -1; 0] (Scenario.zeros 6) v'
    = Some [1; 2; 3; 4; 5; 6]%float.
Proof.
  apply (getValues_after_insert
           (Scenario.rank0 (Scenario.zeros 4) (Scenario.zeros 2)
              (Scenario.zeros 2)) 0 2).
  - apply scenario_rank_owns.
  - simpl. lia.
  - simpl. lia.
  - reflexivity.
  - reflexivity.
  - reflexivity.
  - apply (bool_decide_unpack _). vm_compute. exact I.
  - apply Forall_cons_2; [left; lia|].
    apply Forall_cons_2.
    { right. split; [lia|]. eexists. split; [reflexivity|]. simpl. lia. }
    apply Forall_cons_2; [left; lia|]. apply Forall_nil_2.
Defined.

Lemma setRand_independent_of_ranks_witness :
  exists single' world',
    setRand Scenario.lcg Scenario.rand_max (-1)%float 1%float
      (Scenario.alone (Scenario.zeros 8)) 42
    = Some (single', advance Scenario.lcg (2 * 4) 42) /\
    Forall2 (fun v v' =>
               setRand Scenario.lcg Scenario.rand_max (-1)%float 1%float v 42
               = Some (v', advance Scenario.lcg (2 * 4) 42))
      [Scenario.rank0 (Scenario.zeros 4) (Scenario.zeros 2) (Scenario.zeros 2);
       Scenario.rank1 (Scenario.zeros 4) (Scenario.zeros 2)] world' /\
    concat (x <$> world') = x single'.
Proof.
  destruct (setRand_independent_of_ranks Scenario.lcg Scenario.rand_max
              2 [0; 2; 4] 2 4 (-1)%float 1%float 42
              [Scenario.rank0 (Scenario.zeros 4) (Scenario.zeros 2)
                 (Scenario.zeros 2);
               Scenario.rank1 (Scenario.zeros 4) (Scenario.zeros 2)]
              (Scenario.alone (Scenario.zeros 8)))
    as (single' & world' & Hs & Hw & Hcat & _).
  - lia.
  - apply scenario_partition.
  - reflexivity.
  - reflexivity.
  - intros r v Hv. pose proof (aget_Some_lt _ _ _ Hv) as Hr. simpl in Hr.
    assert (r = 0 \/ r = 1) as [-> | ->] by lia;
      vm_compute in Hv; injection Hv as <-.
    + exists (Scenario.map 0), 0, 2. by split_and!.
    + exists (Scenario.map 1), 2, 4. by split_and!.
  - exists Scenario.map1, 0, 4. by split_and!.
  - exists single', world'. split_and!; [exact Hs|exact Hw|exact Hcat].
Defined.

(** * Further properties of the code *)

(** ** Entry by entry loops *)

Section Elementwise.
Context {T : Type} `{TacsScalar T}.

(** A loop that replaces entry [i] by [g i] of its old value, for the
    first [n] entries. *)
Lemma elementwise_range (body : Z -> list T -> option (list T))
    (g : Z -> T -> option T) (n : Z) (a : list T) :
  (forall i y, body i y = yi ← aget y i; w ← g i yi; aset y i w) ->
  n <= Z.of_nat (length a) ->
  (forall i yi, 0 <= i < n -> is_Some (g i yi)) ->
  exists a', for_range 0 n body a = Some a' /\
    length a' = length a /\
    forall p, aget a' p = if decide (0 <= p < n)
                          then yi ← aget a p; g p yi else aget a p.
Proof.
  intros Hbody Hn Hg.
  destruct (Z_le_gt_dec 0 n) as [Hpos|Hneg].
  2:{ rewrite for_range_empty by lia. exists a. split_and!; try done.
      intros p. by rewrite decide_False by lia. }
  destruct (for_range_inv (fun i (c : list T) =>
      length c = length a /\
      forall p, aget c p = if decide (0 <= p < i)
                            then yi ← aget a p; g p yi else aget a p)
    0 n body a) as (a' & Hrun & Hinv); [done| | |by eauto].
  - split; [done|]. intros p. by rewrite decide_False by lia.
  - intros i c Hi (Hlen & Hget). rewrite Hbody, Hget, decide_False by lia.
    destruct (aget_is_Some a i) as [yi Hyi]; [lia|]. rewrite Hyi. simpl.
    destruct (Hg i yi Hi) as [w Hw]. rewrite Hw. simpl.
    destruct (aset_is_Some c i w) as [c' Hc']; [lia|].
    exists c'. split; [done|]. split; [by rewrite (aset_length _ _ _ _ Hc')|].
    intros p. rewrite (aget_aset _ _ _ _ p Hc'), Hget.
    destruct (decide (p = i)) as [->|].
    + rewrite decide_True by lia. rewrite Hyi. done.
    + repeat case_decide; try done; lia.
Qed.

(** The same loop unrolled by four, after a loop over the remainder of
    the length. The four steps of the unrolled body may come in any
    order: it is described by what it leaves. *)
Lemma elementwise_unrolled (body body4 : Z -> list T -> option (list T))
    (g : Z -> T -> option T) (n : Z) (a : list T) :
  (forall i y, body i y = yi ← aget y i; w ← g i yi; aset y i w) ->
  (forall i y, 0 <= i -> i + 3 < n -> n <= Z.of_nat (length y) ->
     exists y', body4 i y = Some y' /\ length y' = length y /\
       forall p, aget y' p = if decide (i <= p < i + 4)
                             then yi ← aget y p; g p yi else aget y p) ->
  n <= Z.of_nat (length a) ->
  (forall i yi, 0 <= i < n -> is_Some (g i yi)) ->
  exists a',
    (y ← for_range 0 (Z.rem n 4) body a;
     for_range4 (Z.max 0 (Z.rem n 4)) n body4 y) = Some a' /\
    length a' = length a /\
    forall p, aget a' p = if decide (0 <= p < n)
                          then yi ← aget a p; g p yi else aget a p.
Proof.
  intros Hbody Hbody4 Hn Hg.
  destruct (Z_le_gt_dec 0 n) as [Hpos|Hneg].
  2:{ assert (Z.rem n 4 <= 0) as Hrem by (apply Z.rem_nonpos; lia).
      rewrite for_range_empty by done. simpl. unfold for_range4.
      replace (Z.to_nat _) with O.
      - exists a. split_and!; try done. intros p.
        by rewrite decide_False by lia.
      - rewrite Z.max_l by lia.
        assert ((n - 0 + 3) `div` 4 < 1); [|lia].
        apply Z.div_lt_upper_bound; lia. }
  assert (0 < 4) as H4 by lia.
  pose proof (Z.rem_bound_pos n 4 Hpos H4) as Hrem.
  pose proof (Z.rem_mod_nonneg n 4 Hpos H4) as Hmod.
  pose proof (Z.mod_le n 4 Hpos H4) as Hle.
  pose proof (Z.div_mod n 4 ltac:(lia)) as Hdm.
  set (r := Z.rem n 4) in *.
  destruct (elementwise_range body g r a Hbody) as (a1 & -> & Hl1 & Hg1);
    [lia| |].
  { intros i yi Hi. apply Hg. lia. }
  simpl. rewrite Z.max_r by lia. unfold for_range4.
  assert (Z.of_nat (Z.to_nat ((n - r + 3) `div` 4)) * 4 = n - r) as Hcount.
  { replace (n - r + 3) with (3 + (n `div` 4) * 4) by lia.
    rewrite Z.div_add by lia. change (3 `div` 4) with 0.
    assert (0 <= n `div` 4) by (apply Z.div_pos; lia). lia. }
  destruct (for_iter_inv (fun i (c : list T) =>
      length c = length a /\
      forall p, aget c p = if decide (0 <= p < i)
                            then yi ← aget a p; g p yi else aget a p)
    4 body4 (Z.to_nat ((n - r + 3) `div` 4)) r a1) as (a' & Hrun & Hlen & Hget).
  - split; [congruence|]. done.
  - intros m c Hm (Hlen & Hget).
    assert (r + Z.of_nat m * 4 + 3 < n) as Hin by lia.
    destruct (Hbody4 (r + Z.of_nat m * 4) c) as (c' & Hc' & Hlc' & Hgc');
      [lia|lia|lia|].
    exists c'. split; [done|]. split; [congruence|].
    intros p. rewrite Hgc', Hget.
    repeat case_decide; try done; lia.
  - exists a'. split; [done|]. split; [done|].
    intros p. rewrite Hget. rewrite Hcount.
    replace (r + (n - r)) with n by lia. done.
Qed.

End Elementwise.

Section Elementwise_methods.
Context {T : Type} `{TacsScalar T} {TACSBVecDistCtx : Type}.
Implicit Types v vec : TACSBVec T TACSBVecDistCtx.

Lemma aset_None {A} (y : list A) i w : aget y i = None -> aset y i w = None.
Proof.
  unfold aget, aset. intros Hy.
  destruct (decide (0 <= i < Z.of_nat (length y))) as [Hi|Hi]; [|done].
  rewrite decide_True in Hy by lia.
  apply lookup_ge_None in Hy. lia.
Qed.

Lemma elementwise_step (body : Z -> list T -> option (list T))
    (g : Z -> T -> option T) i (y : list T) :
  (forall i y, body i y = yi ← aget y i; w ← g i yi; aset y i w) ->
  0 <= i < Z.of_nat (length y) ->
  (forall yi, is_Some (g i yi)) ->
  exists y', body i y = Some y' /\ length y' = length y /\
    forall p, aget y' p = if decide (p = i) then yi ← aget y p; g p yi
                          else aget y p.
Proof.
  intros Hbody Hi Hg. rewrite Hbody.
  destruct (aget_is_Some y i Hi) as [yi Hyi]. rewrite Hyi. simpl.
  destruct (Hg yi) as [w Hw]. rewrite Hw. simpl.
  destruct (aset_is_Some y i w Hi) as [y' Hy'].
  exists y'. split; [done|]. split; [by rewrite (aset_length _ _ _ _ Hy')|].
  intros p. rewrite (aget_aset _ _ _ _ p Hy').
  case_decide as Hp; [|done]. subst p. by rewrite Hyi.
Qed.

(** Four steps on four neighbouring entries, upwards or downwards. *)
Lemma four_steps (body : Z -> list T -> option (list T))
    (g : Z -> T -> option T) (i i0 i1 i2 i3 : Z) (y : list T) :
  (forall i y, body i y = yi ← aget y i; w ← g i yi; aset y i w) ->
  (i0 = i /\ i1 = i + 1 /\ i2 = i + 2 /\ i3 = i + 3) \/
  (i0 = i + 3 /\ i1 = i + 2 /\ i2 = i + 1 /\ i3 = i) ->
  0 <= i -> i + 3 < Z.of_nat (length y) ->
  (forall j yi, i <= j < i + 4 -> is_Some (g j yi)) ->
  exists y', (y ← body i0 y; y ← body i1 y; y ← body i2 y; body i3 y)
             = Some y' /\
    length y' = length y /\
    forall p, aget y' p = if decide (i <= p < i + 4)
                          then yi ← aget y p; g p yi else aget y p.
Proof.
  intros Hbody Horder Hi Hl Hg.
  destruct (elementwise_step body g i0 y Hbody) as (y0 & -> & Hl0 & Hg0);
    [lia|intros; apply Hg; lia|]. simpl.
  destruct (elementwise_step body g i1 y0 Hbody) as (y1 & -> & Hl1 & Hg1);
    [lia|intros; apply Hg; lia|]. simpl.
  destruct (elementwise_step body g i2 y1 Hbody) as (y2 & -> & Hl2 & Hg2);
    [lia|intros; apply Hg; lia|]. simpl.
  destruct (elementwise_step body g i3 y2 Hbody) as (y3 & -> & Hl3 & Hg3);
    [lia|intros; apply Hg; lia|].
  exists y3. split; [done|]. split; [congruence|].
  intros p. rewrite Hg3.
  destruct (decide (p = i3)) as [->|H3].
  { rewrite Hg2, Hg1, Hg0. repeat case_decide; try done; lia. }
  rewrite Hg2. destruct (decide (p = i2)) as [->|H2].
  { rewrite Hg1, Hg0. repeat case_decide; try done; lia. }
  rewrite Hg1. destruct (decide (p = i1)) as [->|H1].
  { rewrite Hg0. repeat case_decide; try done; lia. }
  rewrite Hg0. repeat case_decide; try done; lia.
Qed.

(** The loop of [axpby] over the remainder and its loop unrolled by
    four together visit each of the [size] entries once. *)
Lemma axpby_spec alpha beta v vec :
  matched v vec ->
  exists a', axpby alpha beta (BVec vec) v = Some (set_x v a') /\
    replaced_prefix
      (fun p => yi ← aget (x v) p; zi ← aget (x vec) p;
                Some (add (mul beta yi) (mul alpha zi)))
      (size v) (x v) a'.
Proof.
  intros (Hsz & Hlv & Hlz). unfold axpby. cbn [dynamic_cast].
  rewrite decide_False by (intros ?; done). cbv zeta.
  set (upd := fun (i : Z) (y : list T) =>
                yi ← aget y i; zi ← aget (x vec) i;
                aset y i (add (mul beta yi) (mul alpha zi))).
  set (g := fun (i : Z) (yi : T) =>
              zi ← aget (x vec) i;
              Some (add (mul beta yi) (mul alpha zi))).
  assert (forall i y, upd i y = yi ← aget y i; w ← g i yi; aset y i w)
    as Hupd.
  { intros i y. unfold upd, g. destruct (aget y i); [|done]. simpl.
    by destruct (aget (x vec) i). }
  assert (forall i yi, 0 <= i < size v -> is_Some (g i yi)) as Hg.
  { intros i yi Hi. unfold g.
    destruct (aget_is_Some (x vec) i) as [zi ->]; [lia|]. by eexists. }
  destruct (elementwise_unrolled upd
              (fun i y => y ← upd i y; y ← upd (i + 1) y;
                          y ← upd (i + 2) y; upd (i + 3) y)
              g (size v) (x v) Hupd) as (a' & Hrun & Hlen & Hget);
    [|done|done|].
  { intros i y Hi Hin Hly.
    apply (four_steps upd g i i (i + 1) (i + 2) (i + 3)); try done;
      [by left|lia|]. intros j yi Hj. apply Hg. lia. }
  exists a'. split.
  - destruct (for_range 0 (Z.rem (size v) 4) upd (x v)) as [y1|]; [|done].
    exact (f_equal (fun m => y ← m; Some (set_x v y)) Hrun).
  - split; [done|]. intros p. rewrite Hget. case_decide; [|done].
    unfold g. by destruct (aget (x v) p).
Qed.

Lemma axpy_spec alpha v vec :
  matched v vec ->
  exists a', axpy alpha (BVec vec) v = Some (set_x v a') /\
    if is_zero alpha then a' = x v
    else replaced_prefix
           (fun p => yi ← aget (x v) p; zi ← aget (x vec) p;
                     Some (add (mul alpha zi) yi))
           (size v) (x v) a'.
Proof.
  intros (Hsz & Hlv & Hlz). unfold axpy. cbn [dynamic_cast].
  rewrite decide_False by (intros ?; done). unfold BLASaxpy.
  destruct (is_zero alpha); [by exists (x v)|].
  destruct (elementwise_range
              (fun i y => ai ← aget (x vec) i; yi ← aget y i;
                          aset y i (add (mul alpha ai) yi))
              (fun i yi => zi ← aget (x vec) i; Some (add (mul alpha zi) yi))
              (size v) (x v)) as (a' & Hrun & Hlen & Hget); [|done| |].
  { intros i y. by destruct (aget (x vec) i), (aget y i). }
  { intros i yi Hi.
    destruct (aget_is_Some (x vec) i) as [zi ->]; [lia|]. by eexists. }
  exists a'. split; [by rewrite Hrun|]. split; [done|].
  intros p. rewrite Hget. case_decide; [|done]. by destruct (aget (x v) p).
Qed.

Lemma copyValues_spec v vec :
  matched v vec ->
  exists a', copyValues (BVec vec) v = Some (set_x v a') /\
    replaced_prefix (aget (x vec)) (size v) (x v) a'.
Proof.
  intros (Hsz & Hlv & Hlz). unfold copyValues. cbn [dynamic_cast].
  rewrite decide_False by (intros ?; done). unfold BLAScopy.
  destruct (elementwise_range
              (fun i y => ai ← aget (x vec) i; aset y i ai)
              (fun i (_ : T) => aget (x vec) i)
              (size v) (x v)) as (a' & Hrun & Hlen & Hget); [|done| |].
  { intros i y. destruct (aget y i) eqn:Hy; [done|]. simpl.
    destruct (aget (x vec) i); [|done]. simpl. by apply aset_None. }
  { intros i yi Hi. apply aget_is_Some. lia. }
  exists a'. split; [by rewrite Hrun|]. split; [done|].
  intros p. rewrite Hget. case_decide; [|done].
  by destruct (aget_is_Some (x v) p) as [yi ->]; [lia|].
Qed.

Lemma scale_spec alpha v :
  size v <= Z.of_nat (length (x v)) ->
  exists a', scale alpha v = Some (set_x v a') /\
    replaced_prefix (fun p => yi ← aget (x v) p; Some (mul alpha yi))
      (size v) (x v) a'.
Proof.
  intros Hlv. unfold scale, BLASscal.
  destruct (elementwise_range
              (fun i y => ai ← aget y i; aset y i (mul alpha ai))
              (fun (_ : Z) yi => Some (mul alpha yi))
              (size v) (x v)) as (a' & Hrun & Hlen & Hget);
    [done|done|by eexists|].
  exists a'. split; [by rewrite Hrun|]. by split.
Qed.

(** X1. With a peer of the same size, [axpby] replaces every local
    entry [y] by [beta*y + alpha*z], [z] being the entry of the peer:
    the loop over the remainder and the loop unrolled by four together
    visit each of the [size] entries once. Nothing else changes. *)
Theorem axpby_entries alpha beta v vec :
  matched v vec ->
  exists a', axpby alpha beta (BVec vec) v = Some (set_x v a') /\
    replaced_prefix
      (fun p => yi ← aget (x v) p; zi ← aget (x vec) p;
                Some (add (mul beta yi) (mul alpha zi)))
      (size v) (x v) a'.
Proof. apply axpby_spec. Qed.

(** X2. [set] stores the value in each of the first [size] entries of
    the local array, whatever [size] modulo four is, and in no other
    entry. *)
Theorem set_entries val v :
  size v <= Z.of_nat (length (x v)) ->
  exists a', set val v = Some (set_x v a') /\
    replaced_prefix (fun _ => Some val) (size v) (x v) a'.
Proof.
  intros Hlv. unfold set. cbv zeta.
  set (upd := fun (i : Z) (y : list T) => aset y i val).
  set (g := fun (_ : Z) (_ : T) => Some val).
  assert (forall i y, upd i y = yi ← aget y i; w ← g i yi; aset y i w)
    as Hupd.
  { intros i y. unfold upd, g. destruct (aget y i) eqn:Hy; [done|].
    simpl. by apply aset_None. }
  destruct (elementwise_unrolled upd
              (fun i y => y ← upd (i + 3) y; y ← upd (i + 2) y;
                          y ← upd (i + 1) y; upd i y)
              g (size v) (x v) Hupd) as (a' & Hrun & Hlen & Hget);
    [|done|by eexists|].
  { intros i y Hi Hin Hly.
    apply (four_steps upd g i (i + 3) (i + 2) (i + 1) i);
      [done|by right|done|lia|by eexists]. }
  exists a'. split.
  - destruct (for_range 0 (Z.rem (size v) 4) upd (x v)) as [y1|]; [|done].
    exact (f_equal (fun m => y ← m; Some (set_x v y)) Hrun).
  - split; [done|]. intros p. rewrite Hget. case_decide; [|done].
    by destruct (aget_is_Some (x v) p) as [yi ->]; [lia|].
Qed.

(** X3. With a peer of the same size, [axpy] replaces every local entry
    [y] by [alpha*z + y] when [alpha] is not zero. When [alpha] is
    zero it leaves the local array as it is, whatever the peer holds:
    the BLAS routine returns before it reads an entry. *)
Theorem axpy_entries alpha v vec :
  matched v vec ->
  exists a', axpy alpha (BVec vec) v = Some (set_x v a') /\
    if is_zero alpha then a' = x v
    else replaced_prefix
           (fun p => yi ← aget (x v) p; zi ← aget (x vec) p;
                     Some (add (mul alpha zi) yi))
           (size v) (x v) a'.
Proof. apply axpy_spec. Qed.

(** X4. With a peer of the same size, [copyValues] makes the first
    [size] local entries those of the peer. *)
Theorem copyValues_entries v vec :
  matched v vec ->
  exists a', copyValues (BVec vec) v = Some (set_x v a') /\
    replaced_prefix (aget (x vec)) (size v) (x v) a'.
Proof. apply copyValues_spec. Qed.

(** X5. [scale] multiplies each of the first [size] local entries by
    [alpha], from the left. *)
Theorem scale_entries alpha v :
  size v <= Z.of_nat (length (x v)) ->
  exists a', scale alpha v = Some (set_x v a') /\
    replaced_prefix (fun p => yi ← aget (x v) p; Some (mul alpha yi))
      (size v) (x v) a'.
Proof. apply scale_spec. Qed.

End Elementwise_methods.

Lemma axpby_entries_witness :
  exists a',
    axpby 2%float 3%float (BVec (Scenario.alone [8; 7; 6; 5; 4; 3; 2; 1]%float))
      (Scenario.alone [1; 2; 3; 4; 5; 6; 7; 8]%float)
    = Some (set_x (Scenario.alone [1; 2; 3; 4; 5; 6; 7; 8]%float) a') /\
    replaced_prefix
      (fun p => yi ← aget [1; 2; 3; 4; 5; 6; 7; 8]%float p;
                zi ← aget [8; 7; 6; 5; 4; 3; 2; 1]%float p;
                Some (add (mul 3%float yi) (mul 2%float zi)))
      8 [1; 2; 3; 4; 5; 6; 7; 8]%float a'.
Proof.
  apply (axpby_entries 2%float 3%float
           (Scenario.alone [1; 2; 3; 4; 5; 6; 7; 8]%float)
           (Scenario.alone [8; 7; 6; 5; 4; 3; 2; 1]%float)).
  split_and!; [reflexivity|simpl; lia|simpl; lia].
Defined.

Lemma set_entries_witness :
  exists a',
    set 9%float (Scenario.rank1 [1; 2; 3; 4; 5]%float [0; 0]%float)
    = Some (set_x (Scenario.rank1 [1; 2; 3; 4; 5]%float [0; 0]%float) a') /\
    replaced_prefix (fun _ => Some 9%float) 4 [1; 2; 3; 4; 5]%float a'.
Proof.
  apply (set_entries 9%float
           (Scenario.rank1 [1; 2; 3; 4; 5]%float [0; 0]%float)).
  simpl. lia.
Defined.

Lemma axpy_entries_witness :
  exists a',
    axpy 2%float (BVec (Scenario.alone [8; 7; 6; 5; 4; 3; 2; 1]%float))
      (Scenario.alone [1; 2; 3; 4; 5; 6; 7; 8]%float)
    = Some (set_x (Scenario.alone [1; 2; 3; 4; 5; 6; 7; 8]%float) a') /\
    replaced_prefix
      (fun p => yi ← aget [1; 2; 3; 4; 5; 6; 7; 8]%float p;
                zi ← aget [8; 7; 6; 5; 4; 3; 2; 1]%float p;
                Some (add (mul 2%float zi) yi))
      8 [1; 2; 3; 4; 5; 6; 7; 8]%float a'.
Proof.
  assert (matched (Scenario.alone [1; 2; 3; 4; 5; 6; 7; 8]%float)
            (Scenario.alone [8; 7; 6; 5; 4; 3; 2; 1]%float)) as Hm.
  { split_and!; [reflexivity|simpl; lia|simpl; lia]. }
  exact (axpy_entries 2%float
           (Scenario.alone [1; 2; 3; 4; 5; 6; 7; 8]%float)
           (Scenario.alone [8; 7; 6; 5; 4; 3; 2; 1]%float) Hm).
Defined.

(** With [alpha = 0] the peer is not read: its infinities and NaNs do
    not reach the vector. *)
Example axpy_zero_alpha :
  axpy 0%float
    (BVec (Scenario.alone
             [PrimFloat.infinity; PrimFloat.nan; 1; 1; 1; 1; 1; 1]%float))
    (Scenario.alone [1; 2; 3; 4; 5; 6; 7; 8]%float)
  = Some (Scenario.alone [1; 2; 3; 4; 5; 6; 7; 8]%float).
Proof. reflexivity. Qed.

Lemma copyValues_entries_witness :
  exists a',
    copyValues (BVec (Scenario.rank1 [5; 6; 7; 8]%float [0; 0]%float))
      (Scenario.rank1 [1; 2; 3; 4]%float [0; 0]%float)
    = Some (set_x (Scenario.rank1 [1; 2; 3; 4]%float [0; 0]%float) a') /\
    replaced_prefix (aget [5; 6; 7; 8]%float) 4 [1; 2; 3; 4]%float a'.
Proof.
  apply (copyValues_entries
           (Scenario.rank1 [1; 2; 3; 4]%float [0; 0]%float)
           (Scenario.rank1 [5; 6; 7; 8]%float [0; 0]%float)).
  split_and!; [reflexivity|simpl; lia|simpl; lia].
Defined.

Lemma scale_entries_witness :
  exists a',
    scale 2%float (Scenario.rank1 [1; 2; 3; 4]%float [0; 0]%float)
    = Some (set_x (Scenario.rank1 [1; 2; 3; 4]%float [0; 0]%float) a') /\
    replaced_prefix
      (fun p => yi ← aget [1; 2; 3; 4]%float p; Some (mul 2%float yi))
      4 [1; 2; 3; 4]%float a'.
Proof.
  apply (scale_entries 2%float
           (Scenario.rank1 [1; 2; 3; 4]%float [0; 0]%float)).
  simpl. lia.
Defined.

(** ** [axpby] and the other updates, in exact arithmetic *)

Section Real_identities.
Context {TACSBVecDistCtx : Type}.
Implicit Types v vec : TACSBVec R TACSBVecDistCtx.

(** Two replacements of the same prefix by the same values give the
    same array. *)
Lemma replaced_prefix_unique {T} (f f' : Z -> option T) n (a a1 a2 : list T) :
  replaced_prefix f n a a1 -> replaced_prefix f' n a a2 ->
  (forall p, 0 <= p < n -> f p = f' p) -> a1 = a2.
Proof.
  intros [Hl1 H1] [Hl2 H2] Hf. apply aget_ext; [congruence|].
  intros p. rewrite H1, H2. case_decide; [by apply Hf|done].
Qed.

(** X6. Over the reals, [axpby] has the other three updates as special
    cases, for a peer of the same size: with [beta = 1] it is [axpy],
    with [alpha = 1] and [beta = 0] it is [copyValues], and with
    [alpha = 0] it is [scale] by [beta]. *)
Theorem axpby_special_cases (alpha beta : R) v vec :
  matched v vec ->
  axpby alpha 1%R (BVec vec) v = axpy alpha (BVec vec) v /\
  axpby 1%R 0%R (BVec vec) v = copyValues (BVec vec) v /\
  axpby 0%R beta (BVec vec) v = scale beta v.
Proof.
  intros Hm. pose proof Hm as (Hsz & Hlv & Hlz). split_and!.
  - destruct (axpby_spec alpha 1%R v vec Hm) as (a1 & -> & H1).
    destruct (axpy_spec alpha v vec Hm) as (a2 & -> & H2).
    do 2 f_equal. cbn [is_zero real_scalar] in H2.
    destruct (Req_dec_T alpha 0) as [->|Hne].
    + subst a2. destruct H1 as [Hl1 H1]. apply aget_ext; [done|].
      intros p. rewrite H1. case_decide as Hp; [|done].
      destruct (aget_is_Some (x v) p) as [yi ->]; [lia|].
      destruct (aget_is_Some (x vec) p) as [zi ->]; [lia|].
      simpl. f_equal. lra.
    + apply (replaced_prefix_unique _ _ _ _ _ _ H1 H2).
      intros p Hp. destruct (aget (x v) p), (aget (x vec) p); try done.
      simpl. f_equal. lra.
  - destruct (axpby_spec 1%R 0%R v vec Hm) as (a1 & -> & H1).
    destruct (copyValues_spec v vec Hm) as (a2 & -> & H2).
    do 2 f_equal. apply (replaced_prefix_unique _ _ _ _ _ _ H1 H2).
    intros p Hp. destruct (aget_is_Some (x v) p) as [yi ->]; [lia|].
    destruct (aget (x vec) p); [|done]. simpl. f_equal. lra.
  - destruct (axpby_spec 0%R beta v vec Hm) as (a1 & -> & H1).
    destruct (scale_spec beta v Hlv) as (a2 & -> & H2).
    do 2 f_equal. apply (replaced_prefix_unique _ _ _ _ _ _ H1 H2).
    intros p Hp. destruct (aget_is_Some (x vec) p) as [zi ->]; [lia|].
    destruct (aget (x v) p); [|done]. simpl. f_equal. lra.
Qed.

End Real_identities.

Lemma axpby_special_cases_witness :
  axpby 2%R 1%R (BVec (Scenario.real_rank 0 [5; 6; 7; 8]%R))
    (Scenario.real_rank 0 [1; 2; 3; 4]%R)
  = axpy 2%R (BVec (Scenario.real_rank 0 [5; 6; 7; 8]%R))
      (Scenario.real_rank 0 [1; 2; 3; 4]%R).
Proof.
  apply (axpby_special_cases 2%R 3%R
           (Scenario.real_rank 0 [1; 2; 3; 4]%R)
           (Scenario.real_rank 0 [5; 6; 7; 8]%R)).
  split_and!; [reflexivity|simpl; lia|simpl; lia].
Defined.

(** ** The boundary condition map *)

Section Bc_map.
Context {T : Type} `{TacsScalar T}.
Implicit Types bc : TACSBcMap T.

Lemma awrite_end {A} (a : list A) (i : Z) (w : A) :
  i = Z.of_nat (length a) -> awrite a i w = Some (a ++ [w]).
Proof. intros Hi. unfold awrite. by rewrite decide_True. Qed.

Lemma record_values_succ (bc_vals : option (list T)) (k : Z) (val : T) :
  0 <= k ->
  match bc_vals with
  | Some vals => aget vals k
  | None => Some zero
  end = Some val ->
  record_values bc_vals (k + 1) = record_values bc_vals k ++ [val].
Proof.
  intros Hk Hval. unfold record_values.
  replace (Z.to_nat (k + 1)) with (S (Z.to_nat k)) by lia.
  destruct bc_vals as [vals|].
  - unfold aget in Hval. rewrite decide_True in Hval by done.
    by rewrite (take_S_r _ _ _ Hval).
  - injection Hval as <-. by rewrite replicate_S, replicate_cons_app.
Qed.

(** X7. On a consistent map, [addBC] puts the new record behind the
    existing ones and leaves those as they are: the node numbers are
    appended, [var_ptr] gets one more entry, and the first [nvals]
    variable numbers are appended together with their values, or with
    zeros when no values are given. The map is consistent again. *)
Theorem addBC_appends_record local_var global_var bc_nums bc_vals nvals bc :
  well_formed bc ->
  0 <= nvals <= Z.of_nat (length bc_nums) ->
  (forall vals, bc_vals = Some vals -> nvals <= Z.of_nat (length vals)) ->
  addBC local_var global_var bc_nums bc_vals nvals bc
  = Some (with_record bc local_var global_var
            (take (Z.to_nat nvals) bc_nums) (record_values bc_vals nvals)) /\
  well_formed (with_record bc local_var global_var
                 (take (Z.to_nat nvals) bc_nums)
                 (record_values bc_vals nvals)).
Proof.
  intros (Hn & Hl & Hg & Hp & Hlast & Hv) Hnv Hvals.
  assert (forall k, 0 <= k <= nvals ->
            length (record_values bc_vals k) = Z.to_nat k) as Hrl.
  { intros k Hk. unfold record_values. destruct bc_vals as [vals|].
    - rewrite length_take. specialize (Hvals vals eq_refl). lia.
    - by rewrite length_replicate. }
  split.
  - unfold addBC.
    rewrite (awrite_end (bc_local bc)) by done. cbn [mbind option_bind].
    rewrite (awrite_end (bc_global bc)) by done. cbn [mbind option_bind].
    rewrite Hlast. cbn [mbind option_bind].
    rewrite (awrite_end (var_ptr bc)) by lia. cbn [mbind option_bind].
    loop_invariant
      (fun (k : Z) (st : list Z * list T) =>
         0 <= k /\ st = (vars bc ++ take (Z.to_nat k) bc_nums,
                         values bc ++ record_values bc_vals k)) Hloop.
    destruct Hloop as ([vs vals'] & -> & Hk & Hst); [lia| | |].
    + split; [lia|]. unfold record_values. f_equal.
      * by rewrite take_0, app_nil_r.
      * destruct bc_vals; by rewrite ?take_0, app_nil_r.
    + intros k [vs vals'] Hk (_ & Hst). injection Hst as -> ->.
      destruct (aget_is_Some bc_nums k) as [num Hnum]; [lia|].
      rewrite Hnum. cbn [mbind option_bind].
      rewrite awrite_end
        by (rewrite length_app, length_take; lia).
      cbn [mbind option_bind].
      assert (exists val, match bc_vals with
                          | Some vals => aget vals k
                          | None => Some zero
                          end = Some val) as [val Hval].
      { destruct bc_vals as [vals|]; [|by eexists].
        apply aget_is_Some. specialize (Hvals vals eq_refl). lia. }
      rewrite Hval. cbn [mbind option_bind].
      rewrite awrite_end.
      2:{ rewrite length_app, Hv, Hrl by lia. lia. }
      cbn [mbind option_bind]. eexists. split; [done|]. split; [lia|].
      f_equal.
      * replace (Z.to_nat (k + 1)) with (S (Z.to_nat k)) by lia.
        unfold aget in Hnum. rewrite decide_True in Hnum by lia.
        by rewrite (take_S_r _ _ _ Hnum), app_assoc.
      * assert (0 <= k) as Hk0 by lia.
        by rewrite (record_values_succ _ _ _ Hk0 Hval), app_assoc.
    + injection Hst as -> ->. cbn [mbind option_bind]. unfold with_record.
      replace (Z.of_nat (length (vars bc ++ take (Z.to_nat nvals) bc_nums)))
        with (Z.of_nat (length (vars bc)) + nvals); [done|].
      rewrite length_app, length_take. lia.
  - unfold well_formed, with_record. cbn.
    rewrite !length_app. cbn [length]. split_and!; try lia.
    + unfold aget. rewrite decide_True by lia.
      replace (Z.to_nat (nbcs bc + 1)) with (length (var_ptr bc)) by lia.
      by rewrite lookup_app_r, Nat.sub_diag.
    + rewrite Hrl, length_take by lia. lia.
Qed.

End Bc_map.

Lemma addBC_appends_record_witness :
  addBC 1 1 [0] (Some [7%float]) 1 (TACSBcMap_new 4) = Some Scenario.pin.
Proof.
  apply (addBC_appends_record 1 1 [0] (Some [7%float]) 1 (TACSBcMap_new 4)).
  - unfold well_formed. by split_and!.
  - simpl. lia.
  - intros vals [= <-]. simpl. lia.
Defined.

(** ** Files *)

Section Files.
Context {T : Type} `{TacsScalar T} {TACSBVecDistCtx : Type}.
Implicit Types v u : TACSBVec T TACSBVecDistCtx.
Implicit Types world : list (TACSBVec T TACSBVecDistCtx).
Implicit Types fp : TacsFile T.

Lemma foldl_add_shift (a : Z) (l : list Z) :
  foldl Z.add a l = a + foldl Z.add 0 l.
Proof.
  revert a. induction l as [|n l IH]; intros a; cbn [foldl]; [lia|].
  rewrite (IH (a + n)), (IH (0 + n)). lia.
Qed.

Lemma file_offset_succ sizes k n :
  0 <= k -> aget sizes k = Some n ->
  file_offset sizes (k + 1) = file_offset sizes k + n.
Proof.
  intros Hk Hn. unfold file_offset, aget in *.
  rewrite decide_True in Hn by done.
  replace (Z.to_nat (k + 1)) with (S (Z.to_nat k)) by lia.
  by rewrite (take_S_r _ _ _ Hn), foldl_app.
Qed.

Lemma file_offset_nonneg sizes k :
  Forall (fun n => 0 <= n) sizes -> 0 <= file_offset sizes k.
Proof.
  intros Hs. unfold file_offset.
  assert (Forall (fun n => 0 <= n) (take (Z.to_nat k) sizes)) as Ht
    by by apply Forall_take.
  induction Ht as [|n l Hn _ IH]; simpl; [done|].
  rewrite foldl_add_shift. lia.
Qed.

Lemma aget_cons {A} (a : A) (l : list A) k :
  0 <= k -> aget (a :: l) (k + 1) = aget l k.
Proof.
  intros Hk. unfold aget. rewrite !decide_True by lia.
  by replace (Z.to_nat (k + 1)) with (S (Z.to_nat k)) by lia.
Qed.

(** The loop that turns the gathered sizes into the offsets of the
    ranks. *)
Lemma range_spec sizes P :
  P = Z.of_nat (length sizes) ->
  exists range,
    for_range 0 P (fun i range =>
      a ← aget range (i + 1); b ← aget range i;
      aset range (i + 1) (a + b)) (0 :: sizes) = Some range /\
    forall k, 0 <= k <= P -> aget range k = Some (file_offset sizes k).
Proof.
  intros HP.
  loop_invariant (fun i (range : list Z) =>
      length range = S (length sizes) /\
      (forall k, 0 <= k <= i -> aget range k = Some (file_offset sizes k)) /\
      (forall k, i < k -> aget range k = aget (0 :: sizes) k)) Hloop.
  destruct Hloop as (range & Hrun & _ & Hget & _); [lia| | |by eauto].
  - split_and!; [done| |done]. intros k Hk.
    by replace k with 0 by lia.
  - intros i range Hi (Hlen & Hlow & Hhigh).
    destruct (aget_is_Some sizes i) as [n Hn]; [lia|].
    rewrite (Hhigh (i + 1)), aget_cons, Hn by lia. cbn [mbind option_bind].
    rewrite (Hlow i) by lia. cbn [mbind option_bind].
    destruct (aset_is_Some range (i + 1) (n + file_offset sizes i))
      as [range' Hset]; [lia|].
    exists range'. split; [done|].
    split_and!; [by rewrite (aset_length _ _ _ _ Hset)| |].
    + intros k Hk. rewrite (aget_aset _ _ _ _ k Hset).
      destruct (decide (k = i + 1)) as [->|Hne].
      * assert (0 <= i) as Hi0 by lia.
        rewrite (file_offset_succ _ _ _ Hi0 Hn). f_equal. lia.
      * apply Hlow. lia.
    + intros k Hk. rewrite (aget_aset _ _ _ _ k Hset).
      rewrite decide_False by lia. apply Hhigh. lia.
Qed.

Lemma gathered_bounds sizes v :
  gathered sizes v ->
  0 <= comm_rank (comm v) < comm_size (comm v) /\ 0 <= size v /\
  0 <= file_offset sizes (comm_rank (comm v)).
Proof.
  intros (Hn & Hr & Hs). pose proof (aget_Some_lt _ _ _ Hr) as Hlt.
  split_and!; [lia|lia| |by apply file_offset_nonneg].
  unfold aget in Hr. rewrite decide_True in Hr by lia.
  by apply (Forall_lookup_1 _ _ _ _ Hs Hr).
Qed.

(** [readFromFile] on a file whose header is the total size. *)
Lemma readFromFile_spec fs sizes filename u fp :
  fs filename = Some fp ->
  gathered sizes u ->
  size u <= Z.of_nat (length (x u)) ->
  file_header fp = Some (file_offset sizes (comm_size (comm u))) ->
  readFromFile fs sizes filename u
  = Some (0, set_x u
               (take (Z.to_nat (size u))
                  (drop (Z.to_nat (file_offset sizes (comm_rank (comm u))))
                     (file_values fp))
                ++ drop (length
                           (take (Z.to_nat (size u))
                              (drop (Z.to_nat (file_offset sizes
                                                 (comm_rank (comm u))))
                                 (file_values fp))))
                        (x u))).
Proof.
  intros Hfs Hg Hlu Hhead.
  destruct (gathered_bounds _ _ Hg) as (Hr & Hsz & Hoff).
  destruct Hg as (Hn & _ & _).
  unfold readFromFile.
  destruct (range_spec sizes (comm_size (comm u)) Hn) as (range & -> & Hget).
  cbn [mbind option_bind]. rewrite Hfs, Hhead. cbn [default].
  rewrite (Hget (comm_size (comm u))) by lia. cbn [mbind option_bind].
  rewrite decide_False by (intros ?; done). cbn [mbind option_bind].
  rewrite (Hget (comm_rank (comm u))) by lia. cbn [mbind option_bind].
  unfold MPI_File_read_at_all. by rewrite decide_True by lia.
Qed.

(** [writeToFile] on one rank, into a file that could be opened. *)
Lemma writeToFile_spec fs sizes filename v fp :
  fs filename = Some fp ->
  gathered sizes v ->
  size v <= Z.of_nat (length (x v)) ->
  writeToFile fs sizes filename v
  = Some (0, Some
      {| file_header :=
           if decide (comm_rank (comm v) = 0)
           then Some (file_offset sizes (comm_size (comm v)))
           else file_header fp;
         file_values :=
           take (Z.to_nat (file_offset sizes (comm_rank (comm v))))
             (file_values fp
              ++ replicate (Z.to_nat (file_offset sizes (comm_rank (comm v)))
                            - length (file_values fp)) zero)
           ++ slab v
           ++ drop (Z.to_nat (file_offset sizes (comm_rank (comm v))
                              + size v))
                (file_values fp) |}).
Proof.
  intros Hfs Hg Hlv.
  destruct (gathered_bounds _ _ Hg) as (Hr & Hsz & Hoff).
  destruct Hg as (Hn & _ & _).
  unfold writeToFile.
  destruct (range_spec sizes (comm_size (comm v)) Hn) as (range & -> & Hget).
  cbn [mbind option_bind]. rewrite Hfs.
  rewrite (Hget (comm_size (comm v))) by lia. cbn [mbind option_bind].
  destruct (decide (comm_rank (comm v) = 0)) as [H0|H0];
    cbn [mbind option_bind];
    rewrite (Hget (comm_rank (comm v))) by lia; cbn [mbind option_bind];
    unfold MPI_File_write_at_all; by rewrite decide_True by lia.
Qed.

Lemma length_slabs world :
  Forall (fun v => 0 <= size v <= Z.of_nat (length (x v))) world ->
  Z.of_nat (length (concat (slab <$> world)))
  = foldl Z.add 0 (size <$> world).
Proof.
  induction 1 as [|v l Hv _ IH]; [done|].
  rewrite !fmap_cons. cbn [concat foldl]. rewrite foldl_add_shift, <- IH.
  rewrite length_app. unfold slab at 1. rewrite length_take. lia.
Qed.

Lemma ranked_sizes world :
  ranked world ->
  Forall (fun v => 0 <= size v <= Z.of_nat (length (x v))) world.
Proof.
  intros Hw. apply Forall_lookup_2. intros r v Hv. by apply (Hw r v).
Qed.

Lemma ranked_gathered world r v :
  ranked world -> world !! r = Some v -> gathered (size <$> world) v.
Proof.
  intros Hw Hv. destruct (Hw r v Hv) as (Hr & Hn & _). split_and!.
  - by rewrite length_fmap.
  - unfold aget. rewrite Hr, decide_True, Nat2Z.id by lia.
    by rewrite list_lookup_fmap, Hv.
  - apply Forall_fmap. eapply Forall_impl; [by apply ranked_sizes|].
    simpl. intros; lia.
Qed.

(** The offset of a rank is the length of what the ranks before it
    write. *)
Lemma file_offset_slabs (done rest : list (TACSBVec T TACSBVecDistCtx)) :
  ranked (done ++ rest) ->
  file_offset (size <$> done ++ rest) (Z.of_nat (length done))
  = Z.of_nat (length (concat (slab <$> done))).
Proof.
  intros Hw. apply ranked_sizes in Hw. apply Forall_app in Hw as [Hd _].
  rewrite (length_slabs _ Hd). unfold file_offset.
  rewrite Nat2Z.id, fmap_app.
  by rewrite take_app_length' by by rewrite length_fmap.
Qed.

(** The ranks behind [done] write their parts behind those of
    [done]. *)
Lemma writeToFile_ranks_spec filename (old : list T) world :
  ranked world ->
  forall rest done fp,
  world = done ++ rest ->
  file_values fp
  = concat (slab <$> done) ++ drop (length (concat (slab <$> done))) old ->
  (done ≠ [] ->
   file_header fp
   = Some (file_offset (size <$> world) (Z.of_nat (length world)))) ->
  exists fp',
    writeToFile_ranks (size <$> world) filename rest fp = Some fp' /\
    file_values fp'
    = concat (slab <$> world) ++ drop (length (concat (slab <$> world))) old /\
    (world ≠ [] ->
     file_header fp'
     = Some (file_offset (size <$> world) (Z.of_nat (length world)))).
Proof.
  intros Hw rest. induction rest as [|v rest IH]; intros done fp Hcat Hval Hh.
  { rewrite app_nil_r in Hcat. subst done. exists fp. by split_and!. }
  assert (world !! length done = Some v) as Hv.
  { subst world. by rewrite lookup_app_r, Nat.sub_diag by lia. }
  pose proof (ranked_gathered _ _ _ Hw Hv) as Hg.
  destruct (Hw _ _ Hv) as (Hr & Hn & Hsz).
  cbn [writeToFile_ranks].
  rewrite (writeToFile_spec _ _ _ _ fp eq_refl Hg) by lia.
  cbn [mbind option_bind].
  pose proof (file_offset_slabs done (v :: rest)) as Hoff.
  rewrite <- Hcat in Hoff. specialize (Hoff Hw).
  rewrite Hr, Hoff, Nat2Z.id.
  apply (IH (done ++ [v])).
  - by rewrite <- app_assoc.
  - cbn [file_values]. rewrite Hval.
    rewrite fmap_app, concat_app. cbn [fmap list_fmap concat].
    rewrite app_nil_r, <- !app_assoc. f_equal.
    + by rewrite take_app_length.
    + f_equal. rewrite length_app.
      replace (Z.to_nat (Z.of_nat (length (concat (slab <$> done))) + size v))
        with (length (concat (slab <$> done)) + length (slab v))%nat.
      2:{ unfold slab. rewrite length_take. lia. }
      rewrite drop_app_add', drop_drop by done. f_equal.
  - intros _. cbn [file_header]. case_decide as H0; [|apply Hh].
    + by rewrite Hn.
    + intros ->. simpl in H0. lia.
Qed.

(** X8. Written by all ranks, the file holds the total size in its
    header and then the vectors of the ranks one after the other, in
    rank order: its contents depend on the vector and not on how it is
    split over the ranks. What a longer file held behind that stays. *)
Theorem writeToFile_all_contents filename world fp :
  ranked world -> world ≠ [] ->
  writeToFile_all filename world fp
  = Some {| file_header :=
              Some (file_offset (size <$> world) (Z.of_nat (length world)));
            file_values :=
              concat (slab <$> world)
              ++ drop (length (concat (slab <$> world))) (file_values fp) |}.
Proof.
  intros Hw Hne. unfold writeToFile_all.
  destruct (writeToFile_ranks_spec filename (file_values fp) world Hw
              world [] fp) as ([h vals] & -> & Hvals & Hhead); try done.
  simpl in *. by rewrite Hvals, Hhead.
Qed.

(** X9. When the header of the file is the total size, [readFromFile]
    returns 0 and has replaced the front of the local array by the
    scalars the file holds from the offset of the rank on, the sum of
    the sizes of the ranks before it: as many as the rank has entries,
    or as the file still has. *)
Theorem readFromFile_loads_slab fs sizes filename u fp :
  fs filename = Some fp ->
  gathered sizes u ->
  size u <= Z.of_nat (length (x u)) ->
  file_header fp = Some (file_offset sizes (comm_size (comm u))) ->
  readFromFile fs sizes filename u
  = Some (0, set_x u
               (take (Z.to_nat (size u))
                  (drop (Z.to_nat (file_offset sizes (comm_rank (comm u))))
                     (file_values fp))
                ++ drop (length
                           (take (Z.to_nat (size u))
                              (drop (Z.to_nat (file_offset sizes
                                                 (comm_rank (comm u))))
                                 (file_values fp))))
                        (x u))).
Proof. apply readFromFile_spec. Qed.

(** X10. What [writeToFile] wrote, [readFromFile] reads back: a vector
    of the size and on the rank of [v] gets the entries of [v], and
    the call returns 0, whatever the file held before. *)
Theorem read_after_write filename world fp (r : nat) v u :
  ranked world ->
  world !! r = Some v ->
  comm u = comm v -> size u = size v ->
  size u <= Z.of_nat (length (x u)) ->
  exists fp',
    writeToFile_all filename world fp = Some fp' /\
    readFromFile (fun _ => Some fp') (size <$> world) filename u
    = Some (0, set_x u (slab v ++ drop (Z.to_nat (size v)) (x u))).
Proof.
  intros Hw Hv Hcomm Hsize Hlu.
  destruct (writeToFile_ranks_spec filename (file_values fp) world Hw
              world [] fp) as (fp' & Hrun & Hvals & Hhead); try done.
  exists fp'. split; [done|].
  pose proof (ranked_gathered _ _ _ Hw Hv) as Hg.
  destruct (Hw _ _ Hv) as (Hr & Hn & Hsz).
  assert (gathered (size <$> world) u) as Hgu.
  { unfold gathered. by rewrite Hcomm, Hsize. }
  rewrite (readFromFile_spec _ _ _ _ fp' eq_refl Hgu Hlu).
  2:{ rewrite Hcomm, Hn. apply Hhead. intros ->. done. }
  pose proof (take_drop_middle _ _ _ Hv) as Hsplit.
  assert (r = length (take r world)) as Hlen.
  { rewrite length_take. apply lookup_lt_Some in Hv. lia. }
  set (done := take r world) in *. set (rest := drop (S r) world) in *.
  clearbody done rest. subst world r.
  rewrite Hcomm, Hr, (file_offset_slabs done (v :: rest) Hw), Nat2Z.id.
  rewrite Hvals, fmap_app, concat_app, fmap_cons. cbn [concat].
  rewrite <- !app_assoc, drop_app_length, Hsize.
  assert (length (slab v) = Z.to_nat (size v)) as Hls.
  { unfold slab. rewrite length_take. lia. }
  by rewrite <- Hls, take_app_length.
Qed.

(** X11. When the file cannot be opened, both calls return 1:
    [readFromFile] leaves the vector as it is, and [writeToFile]
    leaves no file. *)
Theorem unopened_file_fails fs sizes filename v :
  fs filename = None ->
  comm_size (comm v) = Z.of_nat (length sizes) ->
  readFromFile fs sizes filename v = Some (1, v) /\
  writeToFile fs sizes filename v = Some (1, None).
Proof.
  intros Hfs Hn. unfold readFromFile, writeToFile.
  destruct (range_spec sizes (comm_size (comm v)) Hn) as (range & -> & _).
  cbn [mbind option_bind]. by rewrite Hfs.
Qed.

End Files.

Lemma scenario_ranked :
  ranked [Scenario.rank0 [1; 2; 3; 4]%float [0; 0]%float [0; 0]%float;
          Scenario.rank1 [5; 6; 7; 8]%float [0; 0]%float].
Proof.
  intros [|[|r]] v Hv; [| |done]; injection Hv as <-; simpl; lia.
Qed.

Lemma writeToFile_all_contents_witness :
  writeToFile_all "vec.bin"%string
    [Scenario.rank0 [1; 2; 3; 4]%float [0; 0]%float [0; 0]%float;
     Scenario.rank1 [5; 6; 7; 8]%float [0; 0]%float]
    {| file_header := Some 2; file_values := [9; 9; 9; 9; 9; 9; 9; 9; 9]%float |}
  = Some {| file_header := Some 8;
            file_values := [1; 2; 3; 4; 5; 6; 7; 8; 9]%float |}.
Proof.
  apply (writeToFile_all_contents "vec.bin"%string
           [Scenario.rank0 [1; 2; 3; 4]%float [0; 0]%float [0; 0]%float;
            Scenario.rank1 [5; 6; 7; 8]%float [0; 0]%float]
           {| file_header := Some 2;
              file_values := [9; 9; 9; 9; 9; 9; 9; 9; 9]%float |}).
  - apply scenario_ranked.
  - done.
Defined.

Lemma readFromFile_loads_slab_witness :
  readFromFile
    (fun _ => Some {| file_header := Some 8;
                      file_values := [1; 2; 3; 4; 5; 6; 7; 8]%float |})
    [4; 4] "vec.bin"%string
    (Scenario.rank1 (Scenario.zeros 4) (Scenario.zeros 2))
  = Some (0, Scenario.rank1 [5; 6; 7; 8]%float (Scenario.zeros 2)).
Proof.
  apply (readFromFile_loads_slab
           (fun _ => Some {| file_header := Some 8;
                             file_values := [1; 2; 3; 4; 5; 6; 7; 8]%float |})
           [4; 4] "vec.bin"%string
           (Scenario.rank1 (Scenario.zeros 4) (Scenario.zeros 2))
           {| file_header := Some 8;
              file_values := [1; 2; 3; 4; 5; 6; 7; 8]%float |}).
  - reflexivity.
  - split_and!; [reflexivity|reflexivity|].
    apply Forall_cons_2; [lia|]. apply Forall_cons_2; [lia|].
    apply Forall_nil_2.
  - simpl. lia.
  - reflexivity.
Defined.

Lemma read_after_write_witness :
  exists fp',
    writeToFile_all "vec.bin"%string
      [Scenario.rank0 [1; 2; 3; 4]%float [0; 0]%float [0; 0]%float;
       Scenario.rank1 [5; 6; 7; 8]%float [0; 0]%float]
      {| file_header := None; file_values := [] |}
    = Some fp' /\
    readFromFile (fun _ => Some fp') [4; 4] "vec.bin"%string
      (Scenario.rank1 (Scenario.zeros 4) (Scenario.zeros 2))
    = Some (0, Scenario.rank1 [5; 6; 7; 8]%float (Scenario.zeros 2)).
Proof.
  apply (read_after_write "vec.bin"%string
           [Scenario.rank0 [1; 2; 3; 4]%float [0; 0]%float [0; 0]%float;
            Scenario.rank1 [5; 6; 7; 8]%float [0; 0]%float]
           {| file_header := None; file_values := [] |} 1%nat
           (Scenario.rank1 [5; 6; 7; 8]%float [0; 0]%float)
           (Scenario.rank1 (Scenario.zeros 4) (Scenario.zeros 2))).
  - apply scenario_ranked.
  - reflexivity.
  - reflexivity.
  - reflexivity.
  - simpl. lia.
Defined.

Lemma unopened_file_fails_witness :
  readFromFile (fun _ => None) [4; 4] "vec.bin"%string
    (Scenario.rank1 [5; 6; 7; 8]%float [0; 0]%float)
  = Some (1, Scenario.rank1 [5; 6; 7; 8]%float [0; 0]%float) /\
  writeToFile (fun _ => None) [4; 4] "vec.bin"%string
    (Scenario.rank1 [5; 6; 7; 8]%float [0; 0]%float)
  = Some (1, None).
Proof.
  apply (unopened_file_fails (fun _ => None) [4; 4] "vec.bin"%string
           (Scenario.rank1 [5; 6; 7; 8]%float [0; 0]%float)).
  - reflexivity.
  - reflexivity.
Defined.

(** ** The interval of the random values *)

Section Random_interval.
Context {TACSBVecDistCtx : Type}.
Context {RandState : Type} (rand : RandState -> Z * RandState).
Variable RAND_MAX : Z.
Implicit Types v : TACSBVec R TACSBVecDistCtx.
Implicit Types s : RandState.



End Random_interval.



(** ** Adding values *)

Section Add_values.
Context {T : Type} `{TacsScalar T} {TACSBVecDistCtx : Type}.
Implicit Types v : TACSBVec T TACSBVecDistCtx.

(** What [setValues] with [ADD_VALUES] leaves behind when every index
    is a distinct owned or dependent node: block [j] of [vals] added
    to the block of node [index[j]]. *)
Lemma setValues_add_spec v lo hi n index vals :
  rank_owns v lo hi ->
  0 <= bsize v ->
  bsize v * (hi - lo) <= Z.of_nat (length (x v)) ->
  Z.of_nat (length index) = n ->
  Z.of_nat (length vals) = n * bsize v ->
  NoDup index ->
  Forall (owned_or_dependent v lo hi) index ->
  exists v', setValues n index vals ADD_VALUES v = Some v' /\
    comm v' = comm v /\ var_map v' = var_map v /\ bsize v' = bsize v /\
    length (x v') = length (x v) /\
    length <$> x_dep v' = length <$> x_dep v /\
    forall j k g, 0 <= k < bsize v -> aget index j = Some g ->
      node_entry v' lo hi g k
      = yv ← node_entry v lo hi g k; val ← aget vals (j * bsize v + k);
        Some (add yv val).
Proof.
  intros (vm & Hvm & Hlo & Hhi) HB Hx Hn Hvals Hnd Hok.
  unfold setValues. rewrite Hvm. simpl.
  set (B := bsize v) in *.
  loop_invariant (fun i (s : TACSBVec T TACSBVecDistCtx * Z) =>
      s.2 = i * B /\ comm s.1 = comm v /\ var_map s.1 = var_map v /\
      bsize s.1 = B /\ length (x s.1) = length (x v) /\
      length <$> x_dep s.1 = length <$> x_dep v /\
      forall j k g, 0 <= k < B -> aget index j = Some g ->
        node_entry s.1 lo hi g k
        = if decide (j < i)
          then yv ← node_entry v lo hi g k; val ← aget vals (j * B + k);
               Some (add yv val)
          else node_entry v lo hi g k) Hloop.
  destruct Hloop as ([v' vp'] & Hrun & Hinv); [lia| | |].
  - simpl. split_and!; try done. intros j k g Hk Hg.
    apply aget_Some_lt in Hg. rewrite decide_False by lia.
    unfold node_entry. by fold B.
  - intros i [v1 vp] Hi (Hvp & Hc & Hm & Hb & Hlx & Hld & Hent).
    simpl in *. subst vp.
    destruct (aget_is_Some index i) as [g Hg]; [lia|]. rewrite Hg. simpl.
    rewrite (owned_spec _ _ lo hi g Hlo Hhi). simpl.
    assert (owned_or_dependent v lo hi g) as Hokg.
    { rewrite Forall_forall in Hok. apply Hok.
      unfold aget in Hg. case_decide; [|done].
      by apply list_elem_of_lookup_2 in Hg. }
    assert (forall j g', j ≠ i -> aget index j = Some g' -> g' ≠ g)
      as Hfresh.
    { intros j g' Hj Hg' ->. pose proof (aget_Some_lt _ _ _ Hg') as Hjn.
      unfold aget in Hg, Hg'.
      rewrite decide_True in Hg by lia. rewrite decide_True in Hg' by lia.
      pose proof (NoDup_lookup _ _ _ _ Hnd Hg Hg'). lia. }
    rewrite Hb. case_bool_decide as Hown.
    + rewrite Hlo. simpl.
      destruct (block_add_spec B vals (x v1) (B * (g - lo)) (i * B))
        as (y & Hy & Hly & Hgy); [lia|nia|nia|nia|nia|].
      rewrite Hy. simpl. eexists. split; [done|]. simpl.
      split; [lia|]. split_and!; try done; [congruence|].
      intros j k g' Hk Hg'. pose proof (Hent j k g' Hk Hg') as Hold.
      unfold node_entry in *. simpl. rewrite Hb in *.
      destruct (decide (lo <= g' < hi)) as [Hown'|Hown'].
      * rewrite Hgy. destruct (decide (j = i)) as [->|Hji].
        -- assert (g' = g) as -> by congruence.
           rewrite decide_True by lia. rewrite decide_True by lia.
           rewrite decide_False in Hold by lia. rewrite Hold.
           replace (i * B + (B * (g - lo) + k - B * (g - lo)))
             with (i * B + k) by lia. done.
        -- assert (g' ≠ g) by by apply (Hfresh j).
           rewrite decide_False by (apply block_apart; [done|lia]).
           rewrite Hold. destruct (decide (j < i)), (decide (j < i + 1));
             try done; lia.
      * assert (j ≠ i) as Hji by (intros ->; congruence).
        rewrite Hold. destruct (decide (j < i)), (decide (j < i + 1));
          try done; lia.
    + destruct Hokg as [?|(Hneg & xd0 & Hxd0 & Hcap)]; [done|].
      rewrite decide_True by done.
      destruct (x_dep v1) as [xd|] eqn:Hxd; [|by rewrite Hxd0 in Hld].
      rewrite Hxd0 in Hld. simpl in Hld. injection Hld as Hld. simpl.
      destruct (block_add_spec B vals xd (- B * (g + 1)) (i * B))
        as (y & Hy & Hly & Hgy); [lia|nia|nia|nia|nia|].
      rewrite Hy. simpl. eexists. split; [done|]. simpl.
      split; [lia|]. split_and!; try done.
      { rewrite Hxd0. simpl. congruence. }
      intros j k g' Hk Hg'. pose proof (Hent j k g' Hk Hg') as Hold.
      unfold node_entry in *. simpl. rewrite Hb in *.
      destruct (decide (lo <= g' < hi)) as [Hown'|Hown'].
      * assert (j ≠ i) as Hji by (intros ->; congruence).
        rewrite Hold. destruct (decide (j < i)), (decide (j < i + 1));
          try done; lia.
      * rewrite Hxd in Hold. simpl in Hold. rewrite Hgy.
        destruct (decide (j = i)) as [->|Hji].
        -- assert (g' = g) as -> by congruence.
           rewrite decide_True by lia. rewrite decide_True by lia.
           rewrite decide_False in Hold by lia. rewrite Hold.
           replace (i * B + (- B * (g + 1) + k - - B * (g + 1)))
             with (i * B + k) by lia. done.
        -- rewrite decide_False.
           2:{ replace (- B * (g' + 1)) with (B * (- g' - 1)) by lia.
               replace (- B * (g + 1)) with (B * (- g - 1)) by lia.
               apply block_apart; [done|].
               assert (g' ≠ g) by by apply (Hfresh j). lia. }
           rewrite Hold. destruct (decide (j < i)), (decide (j < i + 1));
             try done; lia.
  - destruct Hinv as (Hvp & Hc & Hm & Hb & Hlx & Hld & Hent). simpl in *.
    rewrite Hrun. simpl. eexists. split; [done|].
    split_and!; try done; [congruence|].
    intros j k g Hk Hg. rewrite (Hent j k g Hk Hg).
    apply aget_Some_lt in Hg. by rewrite decide_True by lia.
Qed.

(** X13. For distinct indices that are owned or dependent, [getValues]
    after [setValues] with [ADD_VALUES] returns, entry by entry, what
    [getValues] returned before plus the value that was added. *)
Theorem getValues_after_add v lo hi n index vals out :
  rank_owns v lo hi ->
  0 <= bsize v ->
  bsize v * (hi - lo) <= Z.of_nat (length (x v)) ->
  Z.of_nat (length index) = n ->
  Z.of_nat (length vals) = n * bsize v ->
  Z.of_nat (length out) = n * bsize v ->
  NoDup index ->
  Forall (owned_or_dependent v lo hi) index ->
  exists before v' after,
    getValues n index out v = Some before /\
    setValues n index vals ADD_VALUES v = Some v' /\
    getValues n index out v' = Some after /\
    length after = length vals /\
    forall p, aget after p
              = o ← aget before p; w ← aget vals p; Some (add o w).
Proof.
  intros Hrank HB Hx Hn Hvals Hout Hnd Hok.
  destruct (getValues_spec v lo hi n index out)
    as (before & Hget0 & Hlen0 & Hread0); try done.
  destruct (setValues_add_spec v lo hi n index vals)
    as (v' & Hset & Hc & Hm & Hb & Hlx & Hld & Hent); try done.
  destruct (getValues_spec v' lo hi n index out)
    as (after & Hget & Hlen & Hread).
  - destruct Hrank as (vm & ? & ? & ?). exists vm. by rewrite Hm, Hc.
  - lia.
  - by rewrite Hb, Hlx.
  - done.
  - by rewrite Hb.
  - eapply Forall_impl; [exact Hok|]. intros g [?|(Hneg & xd & Hxd & Hcap)].
    + by left.
    + right. split; [done|]. rewrite Hxd in Hld.
      destruct (x_dep v') as [xd'|]; [|done]. injection Hld as Hld.
      exists xd'. split; [done|]. rewrite Hb. lia.
  - exists before, v', after. split_and!; try done; [lia|].
    intros p. rewrite Hb in Hread.
    destruct (decide (0 <= p < n * bsize v)) as [Hp|Hp].
    + assert (0 < bsize v) as Hpos by nia.
      assert (bsize v ≠ 0) as Hnz by lia.
      pose proof (Z.div_mod p (bsize v) Hnz) as Hdm.
      pose proof (Z.mod_pos_bound p (bsize v) Hpos) as Hmod.
      assert (0 <= p `div` bsize v < n) as Hdiv.
      { split; [apply Z.div_pos; lia|].
        apply Z.div_lt_upper_bound; [done|]. lia. }
      destruct (aget_is_Some index (p `div` bsize v)) as [g Hg]; [lia|].
      replace p with (p `div` bsize v * bsize v + p `mod` bsize v) by lia.
      rewrite (Hread (p `div` bsize v) (p `mod` bsize v) g Hmod Hg).
      rewrite (Hread0 (p `div` bsize v) (p `mod` bsize v) g Hmod Hg).
      by rewrite (Hent (p `div` bsize v) (p `mod` bsize v) g Hmod Hg).
    + rewrite (aget_outside after), (aget_outside before) by lia. done.
Qed.

End Add_values.

Lemma getValues_after_add_witness :
  exists before v' after,
    getValues 3 [1; -1; 0] (Scenario.zeros 6)
      (Scenario.rank0 [1; 1; 1; 1]%float (Scenario.zeros 2) [2; 2]%float)
    = Some before /\
    setValues 3 [1; -1; 0] [1; 2; 3; 4; 5; 6]%float ADD_VALUES
      (Scenario.rank0 [1; 1; 1; 1]%float (Scenario.zeros 2) [2; 2]%float)
    = Some v' /\
    getValues 3 [1; -1; 0] (Scenario.zeros 6) v' = Some after /\
    length after = 6%nat /\
    forall p, aget after p
              = o ← aget before p;
                w ← aget [1; 2; 3; 4; 5; 6]%float p; Some (add o w).
Proof.
  apply (getValues_after_add
           (Scenario.rank0 [1; 1; 1; 1]%float (Scenario.zeros 2) [2; 2]%float)
           0 2).
  - apply scenario_rank_owns.
  - simpl. lia.
  - simpl. lia.
  - reflexivity.
  - reflexivity.
  - reflexivity.
  - apply (bool_decide_unpack _). vm_compute. exact I.
  - apply Forall_cons_2; [left; lia|].
    apply Forall_cons_2.
    { right. split; [lia|]. eexists. split; [reflexivity|]. simpl. lia. }
    apply Forall_cons_2; [left; lia|]. apply Forall_nil_2.
Defined.

Lemma setValues_ghost_insert_is_add_witness :
  setValues 1 [3] [1; 2]%float INSERT_VALUES
    (Scenario.rank0 (Scenario.zeros 4) [5; 5]%float (Scenario.zeros 2))
  = setValues 1 [3] [1; 2]%float ADD_VALUES
      (Scenario.rank0 (Scenario.zeros 4) [5; 5]%float (Scenario.zeros 2)).
Proof.
  apply (setValues_ghost_insert_is_add 1 [3] [1; 2]%float
           (Scenario.rank0 (Scenario.zeros 4) [5; 5]%float
              (Scenario.zeros 2))).
  intros vm i g Hvm Hg. injection Hvm as <-.
  pose proof (aget_Some_lt _ _ _ Hg) as Hi. simpl in Hi.
  assert (i = 0) as -> by lia. injection Hg as <-.
  split; [reflexivity|lia].
Defined.

(** ** Several dot products at once *)

Section Multiple_dots.
Context {T : Type} `{TacsScalar T} {TACSBVecDistCtx : Type}.
Variable use_complex : bool.
Implicit Types v vec : TACSBVec T TACSBVecDistCtx.
Implicit Types tv : TACSVec T TACSBVecDistCtx.

(** The two loops of an unrolled reduction run through when each step
    does. *)
Lemma unrolled_defined {St} (body1 body4 : Z -> St -> option St) n (s : St) :
  (forall i s, 0 <= i < n -> is_Some (body1 i s)) ->
  (forall i s, 0 <= i -> i + 3 < n -> is_Some (body4 i s)) ->
  is_Some (s1 ← for_range 0 (Z.rem n 4) body1 s;
           for_range4 (Z.max 0 (Z.rem n 4)) n body4 s1).
Proof.
  intros H1 H4.
  destruct (Z_le_gt_dec 0 n) as [Hpos|Hneg].
  - assert (0 < 4) as Hfour by lia.
    pose proof (Z.rem_bound_pos n 4 Hpos Hfour) as Hrem.
    pose proof (Z.rem_mod_nonneg n 4 Hpos Hfour) as Hmod.
    pose proof (Z.mod_le n 4 Hpos Hfour) as Hle.
    destruct (for_range_inv (fun _ (_ : St) => True) 0 (Z.rem n 4) body1 s)
      as (s1 & -> & _); [lia|done| |].
    { intros i t Hi _. destruct (H1 i t) as [t' ->]; [lia|]. eauto. }
    cbn [mbind option_bind]. unfold for_range4.
    edestruct (for_iter_inv (fun (_ : Z) (_ : St) => True) 4 body4)
      as (s2 & -> & _); [done| |done].
    intros m t Hm _. rewrite Z.max_r in * by lia.
    assert (Z.rem n 4 + Z.of_nat m * 4 + 3 < n) as Hin.
    { assert (4 ≠ 0) as Hnz by lia.
      pose proof (Z.div_mod n 4 Hnz) as Hdm. rewrite Hmod in *.
      replace (n - n `mod` 4 + 3) with (3 + (n `div` 4) * 4) in Hm by lia.
      rewrite Z.div_add in Hm by lia.
      change (3 `div` 4) with 0 in Hm. lia. }
    destruct (H4 (Z.rem n 4 + Z.of_nat m * 4) t) as [t' ->]; [lia|lia|].
    eauto.
  - assert (Z.rem n 4 <= 0) as Hrem by (apply Z.rem_nonpos; lia).
    rewrite for_range_empty by done. cbn [mbind option_bind].
    unfold for_range4. replace (Z.to_nat _) with O; [done|].
    rewrite Z.max_l by lia.
    assert ((n - 0 + 3) `div` 4 < 1); [|lia].
    apply Z.div_lt_upper_bound; lia.
Qed.

(** The local part of a dot product is defined when the vector, and
    the peer if it has the size of the vector, hold their scalars. *)
Lemma dot_local_defined v tv :
  size v <= Z.of_nat (length (x v)) ->
  (forall vec, tv = BVec vec -> size vec = size v ->
     size v <= Z.of_nat (length (x vec))) ->
  is_Some (dot_local use_complex v tv).
Proof.
  intros Hv Hvec. unfold dot_local. destruct tv as [vec|]; cbn; [|eauto].
  case_decide as Hsz; [eauto|].
  assert (size v <= Z.of_nat (length (x vec))) as Hz.
  { apply Hvec; [done|]. by destruct (decide (size vec = size v)). }
  match goal with
  | |- is_Some (?m ≫= _) => assert (is_Some m) as [res ->]; [|by eauto]
  end.
  destruct use_complex.
  - apply unrolled_defined.
    + intros i s Hi. destruct (aget_is_Some (x v) i) as [y0 ->]; [lia|].
      destruct (aget_is_Some (x vec) i) as [z0 ->]; [lia|]. by eexists.
    + intros i s Hi Hin.
      destruct (aget_is_Some (x v) i) as [y0 ->]; [lia|].
      destruct (aget_is_Some (x vec) i) as [z0 ->]; [lia|].
      destruct (aget_is_Some (x v) (i + 1)) as [y1 ->]; [lia|].
      destruct (aget_is_Some (x vec) (i + 1)) as [z1 ->]; [lia|].
      destruct (aget_is_Some (x v) (i + 2)) as [y2 ->]; [lia|].
      destruct (aget_is_Some (x vec) (i + 2)) as [z2 ->]; [lia|].
      destruct (aget_is_Some (x v) (i + 3)) as [y3 ->]; [lia|].
      destruct (aget_is_Some (x vec) (i + 3)) as [z3 ->]; [lia|].
      by eexists.
  - unfold BLASdot. destruct (Z_le_gt_dec 0 (size v)) as [Hpos|Hneg].
    + destruct (for_range_inv (fun _ (_ : T) => True) 0 (size v)
                  (fun i res => ai ← aget (x v) i; bi ← aget (x vec) i;
                                Some (add res (mul ai bi)))
                  zero) as (r1 & -> & _); [lia|done| |done].
      intros i s Hi _. destruct (aget_is_Some (x v) i) as [y ->]; [lia|].
      destruct (aget_is_Some (x vec) i) as [z ->]; [lia|]. simpl. eauto.
    + rewrite for_range_empty by lia. done.
Qed.

(** One round of the loop of [mdot]: entry [k] becomes what [dot]
    computes locally for peer [k], and zero where [dot] gives up. *)
Lemma mdot_round v tv (ans : list T) k :
  0 <= k < Z.of_nat (length ans) ->
  (ans ← aset ans k zero;
   match dynamic_cast tv with
   | Some vec =>
       if decide (size vec ≠ size v) then Some ans
       else
         res ← (if use_complex then
                  let rem := Z.rem (size v) 4 in
                  res ← for_range 0 rem (fun i res =>
                           y0 ← aget (x v) i; z0 ← aget (x vec) i;
                           Some (add res (mul y0 z0))) zero;
                  for_range4 (Z.max 0 rem) (size v) (fun i res =>
                    y0 ← aget (x v) i; z0 ← aget (x vec) i;
                    y1 ← aget (x v) (i + 1); z1 ← aget (x vec) (i + 1);
                    y2 ← aget (x v) (i + 2); z2 ← aget (x vec) (i + 2);
                    y3 ← aget (x v) (i + 3); z3 ← aget (x vec) (i + 3);
                    Some (add res (add (add (add (mul y0 z0) (mul y1 z1))
                                            (mul y2 z2)) (mul y3 z3)))) res
                else BLASdot (size v) (x v) (x vec));
         aset ans k res
   | None => Some ans
   end)
  = c ← local_product use_complex v tv; aset ans k c.
Proof.
  intros Hk. destruct (aset_is_Some ans k zero Hk) as [ans0 Hans0].
  rewrite Hans0. cbn [mbind option_bind].
  unfold local_product, dot_local. destruct tv as [vec|]; cbn [dynamic_cast].
  - case_decide; [done|].
    match goal with
    | |- (?m ≫= _) = _ => destruct m as [res|]; [|done]
    end.
    cbn [mbind option_bind]. unfold aset in *.
    rewrite decide_True in Hans0 by done. injection Hans0 as <-.
    rewrite length_insert, !decide_True by done.
    by rewrite list_insert_insert_eq.
  - done.
Qed.

Lemma mdot_local_spec v (tvec : list (TACSVec T TACSBVecDistCtx))
    (ans : list T) nvecs :
  mdot_ready nvecs (v, tvec, ans) ->
  exists buf, mdot_local use_complex v tvec ans nvecs = Some buf /\
    length buf = length ans /\
    forall k, aget buf k = if decide (0 <= k < nvecs)
                           then tv ← aget tvec k; local_product use_complex v tv
                           else aget ans k.
Proof.
  intros (Htv & Hans & Hv & Hvec). cbn [fst snd] in *. unfold mdot_local.
  destruct (Z_le_gt_dec 0 nvecs) as [Hpos|Hneg].
  2:{ rewrite for_range_empty by lia. exists ans. split_and!; try done.
      intros k. by rewrite decide_False by lia. }
  loop_invariant (fun i (buf : list T) =>
      length buf = length ans /\
      forall k, aget buf k = if decide (0 <= k < i)
                             then tv ← aget tvec k;
                                  local_product use_complex v tv
                             else aget ans k) Hloop.
  destruct Hloop as (buf & Hrun & Hlen & Hget); [done| | |by eauto].
  { split; [done|]. intros k. by rewrite decide_False by lia. }
  intros i buf Hi (Hlen & Hget).
  destruct (aget_is_Some tvec i) as [tv Htvi]; [lia|].
  assert (0 <= i < Z.of_nat (length buf)) as Hib by lia.
  pose proof (mdot_round v tv buf i Hib) as Hround.
  rewrite Htvi. cbn [mbind option_bind] in *. rewrite Hround.
  destruct (dot_local_defined v tv Hv) as [step Hstep].
  { intros vec ->. by apply (Hvec i). }
  unfold local_product at 1. rewrite Hstep. cbn [mbind option_bind].
  destruct (aset_is_Some buf i
              match step with
              | dot_allreduce res => res
              | dot_return sum => sum
              end Hib) as [buf' Hset].
  exists buf'. split; [done|].
  split; [by rewrite (aset_length _ _ _ _ Hset)|].
  intros k. rewrite (aget_aset _ _ _ _ k Hset), Hget.
  destruct (decide (k = i)) as [->|Hne].
  - rewrite decide_True by lia. rewrite Htvi. cbn [mbind option_bind].
    unfold local_product. by rewrite Hstep.
  - destruct (decide (0 <= k < i)), (decide (0 <= k < i + 1)); try done; lia.
Qed.

Lemma mapM_Forall2_ext {A B C} (f : A -> option C) (g : B -> option C)
    (l1 : list A) (l2 : list B) :
  Forall2 (fun a b => f a = g b) l1 l2 -> mapM f l1 = mapM g l2.
Proof.
  induction 1 as [|a b l1 l2 Hab _ IH]; [done|].
  cbn [mapM]. by rewrite Hab, IH.
Qed.

Lemma aget_app {A} (l1 l2 : list A) k :
  aget (l1 ++ l2) k
  = if decide (k < Z.of_nat (length l1)) then aget l1 k
    else aget l2 (k - Z.of_nat (length l1)).
Proof.
  unfold aget. destruct (decide (0 <= k)) as [Hk|Hk].
  - case_decide.
    + by rewrite lookup_app_l by lia.
    + rewrite decide_True by lia. rewrite lookup_app_r by lia.
      f_equal. lia.
  - case_decide; [done|]. by rewrite decide_False by lia.
Qed.

Lemma aget_drop {A} (l : list A) (n : nat) k :
  0 <= k -> aget (drop n l) k = aget l (Z.of_nat n + k).
Proof.
  intros Hk. unfold aget. rewrite !decide_True by lia.
  rewrite lookup_drop. f_equal. lia.
Qed.

(** The reduction of [n] entries is defined when every rank has as
    many, and sums them column by column. *)
Lemma Allreduce_SUM_n_spec n (bufs : list (list T)) :
  Forall (fun buf => n <= Z.of_nat (length buf)) bufs ->
  exists sums, MPI_Allreduce_SUM_n n bufs = Some sums /\
    length sums = Z.to_nat n /\
    forall k, 0 <= k < n ->
      aget sums k = column ← mapM (fun buf => aget buf k) bufs;
                    Some (MPI_Allreduce_SUM column).
Proof.
  intros Hbufs. unfold MPI_Allreduce_SUM_n.
  set (f := fun k => column ← mapM (fun buf : list T => aget buf k) bufs;
                     Some (MPI_Allreduce_SUM column)).
  assert (is_Some (mapM f (seqZ 0 n))) as [sums Hsums].
  { apply mapM_is_Some_2. apply Forall_forall. intros k Hk.
    apply elem_of_seqZ in Hk.
    change (is_Some (column ← mapM (fun buf : list T => aget buf k) bufs;
                     Some (MPI_Allreduce_SUM column))).
    assert (is_Some (mapM (fun buf : list T => aget buf k) bufs))
      as [column ->]; [|by eexists].
    apply mapM_is_Some_2. eapply Forall_impl; [exact Hbufs|].
    intros buf Hb. cbv beta in Hb. apply (aget_is_Some buf k). lia. }
  exists sums. split; [done|]. apply mapM_Some in Hsums.
  pose proof (Forall2_length _ _ _ Hsums) as Hlen.
  rewrite length_seqZ in Hlen. split; [done|].
  intros k Hk.
  assert (seqZ 0 n !! Z.to_nat k = Some k) as Hseq.
  { rewrite lookup_seqZ. split; lia. }
  destruct (Forall2_lookup_l _ _ _ _ _ Hsums Hseq) as (c & Hc & Hfc).
  fold (f k). rewrite Hfc. unfold aget. by rewrite decide_True by lia.
Qed.

(** X15. [mdot] replaces the first [nvecs] entries of the output array
    by the sums over the ranks of what each rank contributes for the
    peer of that number: its local product, or zero where its peer is
    not a block vector of its size. Such a rank still takes part in
    the one reduction. The entries behind stay, and where every rank
    has a peer of its size, the entry is what [dot] returns for those
    peers. *)
Theorem mdot_entries world nvecs r v tvec ans :
  Forall (mdot_ready nvecs) world ->
  aget world r = Some (v, tvec, ans) ->
  exists res, mdot use_complex world nvecs r = Some res /\
    length res = length ans /\
    (forall k, aget res k
       = if decide (0 <= k < nvecs)
         then contribs ← mapM (fun p => tv ← aget p.1.2 k;
                                         local_product use_complex p.1.1 tv)
                            world;
              Some (MPI_Allreduce_SUM contribs)
         else aget ans k) /\
    (forall k peers, 0 <= k < nvecs -> peers_of world k = Some peers ->
       Forall (fun q => exists vec, q.2 = BVec vec /\ size vec = size q.1)
         peers ->
       dot use_complex peers r = aget res k).
Proof.
  intros Hready Hr.
  assert (exists bufs,
            mapM (fun p => mdot_local use_complex p.1.1 p.1.2 p.2 nvecs) world
            = Some bufs) as [bufs Hbufs].
  { apply mapM_is_Some_2. eapply Forall_impl; [exact Hready|].
    intros [[v0 tv0] a0] Hp.
    destruct (mdot_local_spec v0 tv0 a0 nvecs Hp) as (buf & Hb & _).
    by exists buf. }
  pose proof Hbufs as Hall. apply mapM_Some in Hall.
  assert (Forall2 (fun p buf =>
            length buf = length p.2 /\
            forall k, aget buf k
                      = if decide (0 <= k < nvecs)
                        then tv ← aget p.1.2 k;
                             local_product use_complex p.1.1 tv
                        else aget p.2 k) world bufs) as Hspec.
  { apply Forall2_same_length_lookup_2; [by eapply Forall2_length|].
    intros i [[v0 tv0] a0] buf Hp Hb.
    pose proof (Forall_lookup_1 _ _ _ _ Hready Hp) as Hrd.
    destruct (mdot_local_spec v0 tv0 a0 nvecs Hrd) as (buf' & Hb' & Hl & Hg).
    pose proof (Forall2_lookup_lr _ _ _ _ _ _ Hall Hp Hb) as Hrun.
    cbn [fst snd] in Hrun. assert (buf' = buf) as -> by congruence. done. }
  destruct (Allreduce_SUM_n_spec nvecs bufs) as (sums & Hsums & Hls & Hcol).
  { apply Forall_forall. intros buf Hin.
    apply list_elem_of_lookup in Hin as [i Hi].
    destruct (Forall2_lookup_r _ _ _ _ _ Hspec Hi) as (p & Hp & Hl & _).
    pose proof (Forall_lookup_1 _ _ _ _ Hready Hp) as (_ & Hans & _). lia. }
  pose proof (aget_Some_lt _ _ _ Hr) as Hrlt.
  assert (world !! Z.to_nat r = Some (v, tvec, ans)) as Hr'.
  { unfold aget in Hr. by rewrite decide_True in Hr by lia. }
  destruct (Forall2_lookup_l _ _ _ _ _ Hspec Hr') as (buf & Hbuf & Hlb & Hgb).
  pose proof (Forall_lookup_1 _ _ _ _ Hready Hr') as (_ & Hans & _).
  cbn [fst snd] in *.
  unfold mdot. rewrite Hbufs. cbn [mbind option_bind]. rewrite Hsums.
  cbn [mbind option_bind].
  assert (aget bufs r = Some buf) as ->.
  { unfold aget. by rewrite decide_True by lia. }
  cbn [mbind option_bind]. eexists. split; [done|].
  assert (forall k, 0 <= k < nvecs ->
            mapM (fun b : list T => aget b k) bufs
            = mapM (fun p => tv ← aget p.1.2 k;
                             local_product use_complex p.1.1 tv) world)
    as Hcols.
  { intros k Hk. symmetry. apply mapM_Forall2_ext.
    eapply Forall2_impl; [exact Hspec|]. intros p b (_ & Hg).
    cbv beta. by rewrite Hg, decide_True. }
  assert (forall k, aget (sums ++ drop (length sums) buf) k
            = if decide (0 <= k < nvecs)
              then contribs ← mapM (fun p => tv ← aget p.1.2 k;
                                     local_product use_complex p.1.1 tv)
                                 world;
                   Some (MPI_Allreduce_SUM contribs)
              else aget ans k) as Hentries.
  { intros k. rewrite aget_app. destruct (decide (0 <= k < nvecs)) as [Hk|Hk].
    - rewrite decide_True by lia. rewrite Hcol by done. by rewrite Hcols.
    - destruct (decide (k < Z.of_nat (length sums))) as [Hlt|Hge].
      + rewrite !aget_outside; [done|lia|lia].
      + rewrite aget_drop by lia.
        replace (Z.of_nat (length sums) + (k - Z.of_nat (length sums)))
          with k by lia.
        by rewrite Hgb, decide_False. }
  split_and!.
  - rewrite length_app, length_drop. lia.
  - exact Hentries.
  - intros k peers Hk Hpeers Hmatch. rewrite Hentries, decide_True by done.
    destruct (mapM (fun p => tv ← aget p.1.2 k;
                             local_product use_complex p.1.1 tv) world)
      as [contribs|] eqn:Hc.
    2:{ rewrite <- Hcols in Hc by done. specialize (Hcol k Hk).
        rewrite Hc in Hcol. destruct (aget_is_Some sums k) as [c Hsome]; [lia|].
        by rewrite Hsome in Hcol. }
    cbn [mbind option_bind]. apply mapM_Some in Hc.
    unfold peers_of in Hpeers. apply mapM_Some in Hpeers.
    pose proof (Forall2_length _ _ _ Hc) as Hlc.
    pose proof (Forall2_length _ _ _ Hpeers) as Hlp.
    assert (mapM (fun q => dot_local use_complex q.1 q.2) peers
            = Some (dot_allreduce <$> contribs)) as Hsteps.
    { apply mapM_Some, Forall2_fmap_r.
      apply Forall2_same_length_lookup_2; [lia|].
      intros i q c Hq Hci.
      destruct (Forall2_lookup_r _ _ _ _ _ Hpeers Hq) as (p & Hp & Hpq).
      pose proof (Forall2_lookup_lr _ _ _ _ _ _ Hc Hp Hci) as Hpc.
      pose proof (Forall_lookup_1 _ _ _ _ Hmatch Hq) as (vec & Hvec & Hsz).
      destruct p as [[v0 tv0] a0]. cbn [fst snd] in *.
      destruct (aget tv0 k) as [tv|]; [|done]. cbn [mbind option_bind] in *.
      injection Hpq as <-. cbn [fst snd] in *. subst tv.
      unfold local_product in Hpc.
      destruct (dot_local use_complex v0 (BVec vec)) as [step|] eqn:Hstep;
        [|done].
      cbn [mbind option_bind] in Hpc. injection Hpc as <-.
      f_equal. unfold dot_local in Hstep. cbn [dynamic_cast] in Hstep.
      rewrite decide_False in Hstep by (intros ?; done).
      match type of Hstep with
      | (?m ≫= _) = _ => destruct m as [res|]; [|done]
      end.
      cbn [mbind option_bind] in Hstep. by injection Hstep as <-. }
    unfold dot. rewrite Hsteps. cbn [mbind option_bind].
    destruct (aget_is_Some (dot_allreduce <$> contribs) r) as [st Hst].
    { rewrite length_fmap. lia. }
    rewrite Hst. cbn [mbind option_bind]. unfold aget in Hst.
    rewrite decide_True in Hst by lia. rewrite list_lookup_fmap in Hst.
    destruct (contribs !! Z.to_nat r) as [c|]; [|done]. injection Hst as <-.
    assert (mapM (fun s => match s with
                           | dot_allreduce res => Some res
                           | dot_return _ => None
                           end) (dot_allreduce <$> contribs) = Some contribs)
      as ->; [|done].
    apply mapM_Some. apply Forall2_fmap_l.
    by apply Forall_Forall2_diag, Forall_forall.
Qed.

End Multiple_dots.

Lemma mdot_entries_witness :
  exists res,
    mdot false
      [(Scenario.rank0 [1; 2; 3; 4]%float [0; 0]%float [0; 0]%float,
        [BVec (Scenario.rank0 [1; 1; 1; 1]%float [0; 0]%float [0; 0]%float);
         BVec Scenario.short; ForeignVec],
        [9; 9; 9; 9]%float);
       (Scenario.rank1 [5; 6; 7; 8]%float [0; 0]%float,
        [BVec (Scenario.rank1 [1; 1; 1; 1]%float [0; 0]%float);
         BVec (Scenario.rank1 [2; 2; 2; 2]%float [0; 0]%float);
         BVec (Scenario.rank1 [3; 3; 3; 3]%float [0; 0]%float)],
        [9; 9; 9]%float)] 3 0
    = Some res /\
    length res = 4%nat.
Proof.
  destruct (mdot_entries false
      [(Scenario.rank0 [1; 2; 3; 4]%float [0; 0]%float [0; 0]%float,
        [BVec (Scenario.rank0 [1; 1; 1; 1]%float [0; 0]%float [0; 0]%float);
         BVec Scenario.short; ForeignVec],
        [9; 9; 9; 9]%float);
       (Scenario.rank1 [5; 6; 7; 8]%float [0; 0]%float,
        [BVec (Scenario.rank1 [1; 1; 1; 1]%float [0; 0]%float);
         BVec (Scenario.rank1 [2; 2; 2; 2]%float [0; 0]%float);
         BVec (Scenario.rank1 [3; 3; 3; 3]%float [0; 0]%float)],
        [9; 9; 9]%float)] 3 0
      (Scenario.rank0 [1; 2; 3; 4]%float [0; 0]%float [0; 0]%float)
      [BVec (Scenario.rank0 [1; 1; 1; 1]%float [0; 0]%float [0; 0]%float);
       BVec Scenario.short; ForeignVec]
      [9; 9; 9; 9]%float) as (res & Hres & Hlen & _).
  - apply Forall_cons_2; [|apply Forall_cons_2; [|apply Forall_nil_2]];
      (split_and!; [simpl; lia|simpl; lia|simpl; lia|]);
      intros k vec Hk Hs; pose proof (aget_Some_lt _ _ _ Hk) as Hlt;
      simpl in Hlt;
      (assert (k = 0 \/ k = 1 \/ k = 2) as [->|[->| ->]] by lia);
      vm_compute in Hk; try discriminate; injection Hk as <-;
      simpl in *; lia.
  - reflexivity.
  - exists res. split; [exact Hres|exact Hlen].
Defined.

(** ** Construction *)

Section Construction.
Context {T : Type} `{TacsScalar T} {TACSBVecDistCtx : Type}.
Implicit Types v : TACSBVec T TACSBVecDistCtx.

(** X16. The constructor with a map returns a vector in the state the
    methods expect: the rank owns the nodes of its range, [getSize] is
    the block size times their number, the local array returned by
    [getArray] is that many zeros, and the ghost and dependent arrays
    hold exactly their sizes, all zero. *)
Theorem TACSBVec_new_ready map B bc
    (ed : option (TACSBVecDistribute T TACSBVecDistCtx))
    (dn : option (TACSBVecDepNodes T)) lo hi :
  aget (getOwnerRange map) (comm_rank (getMPIComm map)) = Some lo ->
  aget (getOwnerRange map) (comm_rank (getMPIComm map) + 1) = Some hi ->
  0 <= B * (hi - lo) ->
  (forall d, ed = Some d -> 0 <= B * dist_getDim d) ->
  (forall n, dn = Some n -> 0 <= B * ndep_nodes n) ->
  exists v, TACSBVec_new map B bc ed dn = Some v /\
    rank_owns v lo hi /\ bsize v = B /\
    getSize v = B * (hi - lo) /\
    getArray v = (replicate (Z.to_nat (B * (hi - lo))) zero, B * (hi - lo)) /\
    sized v /\ ghost_zero v /\ dep_zero v /\
    (forall xe, x_ext v = Some xe -> Z.of_nat (length xe) = ext_size v) /\
    (forall xd, x_dep v = Some xd -> Z.of_nat (length xd) = dep_size v).
Proof.
  intros Hlo Hhi Hsz Hed Hdn. unfold TACSBVec_new, getDim.
  rewrite Hlo, Hhi. cbn [mbind option_bind].
  assert (forall n, 0 <= n ->
            new_zeroed n = Some (replicate (Z.to_nat n) (zero : T))) as Hnew.
  { intros n Hn. unfold new_zeroed. by rewrite decide_True. }
  rewrite (Hnew _ Hsz). cbn [mbind option_bind].
  assert (forall n, 0 <= n ->
            Z.of_nat (length (replicate (Z.to_nat n) (zero : T))) = n) as Hlen.
  { intros n Hn. rewrite length_replicate. lia. }
  assert (forall n, zeroed (replicate (Z.to_nat n) (zero : T)) n) as Hzero.
  { intros n. pose proof (replicate_zeroed n []) as Hz.
    by rewrite app_nil_r in Hz. }
  assert (forall d, ed = Some d ->
            new_zeroed (B * dist_getDim d)
            = Some (replicate (Z.to_nat (B * dist_getDim d)) (zero : T)))
    as Hnew_e.
  { intros d Hd. apply Hnew. by apply Hed. }
  assert (forall n, dn = Some n ->
            new_zeroed (B * ndep_nodes n)
            = Some (replicate (Z.to_nat (B * ndep_nodes n)) (zero : T)))
    as Hnew_d.
  { intros n Hn. apply Hnew. by apply Hdn. }
  destruct ed as [d|], dn as [n|]; cbn [getDepNodes];
    rewrite ?(Hnew_e _ eq_refl), ?(Hnew_d _ eq_refl);
    cbn [mbind option_bind];
    (eexists; split; [done|]);
    unfold rank_owns, getSize, getArray, sized, holds, ghost_zero, dep_zero;
    cbn [var_map comm bsize size x x_ext ext_size x_dep dep_size];
    split_and!;
    first
      [ done
      | by exists map
      | rewrite Hlen by done; lia
      | intros ? [= <-]; try specialize (Hed _ eq_refl);
        try specialize (Hdn _ eq_refl);
        first [apply Hzero | rewrite Hlen; lia | by apply Hlen] ].
Qed.

End Construction.

Lemma TACSBVec_new_ready_witness :
  exists v,
    TACSBVec_new (Scenario.map 0) 2 (Some Scenario.pin)
      (Some (Scenario.idle_plan 3)) (Some Scenario.deps) = Some v /\
    rank_owns v 0 2 /\ bsize v = 2 /\ getSize v = 4 /\
    getArray v = (Scenario.zeros 4, 4).
Proof.
  destruct (TACSBVec_new_ready (Scenario.map 0) 2 (Some Scenario.pin)
              (Some (Scenario.idle_plan 3)) (Some Scenario.deps) 0 2)
    as (v & Hnew & Hown & HB & Hsize & Harr & _).
  - reflexivity.
  - reflexivity.
  - lia.
  - intros d [= <-]. simpl. lia.
  - intros n [= <-]. simpl. lia.
  - exists v. split_and!; [exact Hnew|exact Hown|exact HB|exact Hsize|exact Harr].
Defined.

(** ** The two builds *)

Section Builds.
Context {TACSBVecDistCtx : Type}.
Implicit Types v vec : TACSBVec R TACSBVecDistCtx.
Implicit Types a b : list R.

Lemma for_iter_snoc {St} (body : Z -> St -> option St) step n :
  forall i s,
  for_iter (S n) i step body s
  = s' ← for_iter n i step body s; body (i + Z.of_nat n * step) s'.
Proof.
  induction n as [|n IH]; intros i s.
  - cbn [for_iter mbind option_bind].
    replace (i + Z.of_nat 0 * step) with i by lia.
    by destruct (body i s).
  - change (for_iter (S (S n)) i step body s)
      with (s1 ← body i s; for_iter (S n) (i + step) step body s1).
    change (for_iter (S n) i step body s)
      with (s1 ← body i s; for_iter n (i + step) step body s1).
    destruct (body i s) as [s1|]; [|done].
    cbn [mbind option_bind]. rewrite (IH (i + step) s1).
    by replace (i + Z.of_nat (S n) * step)
      with (i + step + Z.of_nat n * step) by lia.
Qed.

Lemma for_range_snoc {St} (body : Z -> St -> option St) lo hi s :
  lo <= hi ->
  for_range lo (hi + 1) body s = s' ← for_range lo hi body s; body hi s'.
Proof.
  intros Hle. unfold for_range.
  replace (Z.to_nat (hi + 1 - lo)) with (S (Z.to_nat (hi - lo))) by lia.
  rewrite for_iter_snoc.
  by replace (lo + Z.of_nat (Z.to_nat (hi - lo)) * 1) with hi by lia.
Qed.

Lemma BLASdot_succ a b i res y z :
  0 <= i -> BLASdot i a b = Some res ->
  aget a i = Some y -> aget b i = Some z ->
  BLASdot (i + 1) a b = Some (res + y * z)%R.
Proof.
  intros Hi Hres Hy Hz. unfold BLASdot in *.
  rewrite for_range_snoc by done. rewrite Hres. cbn [mbind option_bind].
  by rewrite Hy, Hz.
Qed.

(** The unrolled loops of the complex build compute the sum that
    [BLASdot] computes. *)
Lemma unrolled_is_BLASdot a b n :
  n <= Z.of_nat (length a) -> n <= Z.of_nat (length b) ->
  (res ← for_range 0 (Z.rem n 4) (fun i res =>
            y0 ← aget a i; z0 ← aget b i;
            Some (add res (mul y0 z0))) zero;
   for_range4 (Z.max 0 (Z.rem n 4)) n (fun i res =>
     y0 ← aget a i; z0 ← aget b i;
     y1 ← aget a (i + 1); z1 ← aget b (i + 1);
     y2 ← aget a (i + 2); z2 ← aget b (i + 2);
     y3 ← aget a (i + 3); z3 ← aget b (i + 3);
     Some (add res (add (add (add (mul y0 z0) (mul y1 z1))
                             (mul y2 z2)) (mul y3 z3)))) res)
  = BLASdot n a b.
Proof.
  intros Ha Hb. destruct (Z_le_gt_dec 0 n) as [Hpos|Hneg].
  2:{ assert (Z.rem n 4 <= 0) as Hrem by (apply Z.rem_nonpos; lia).
      unfold BLASdot. rewrite !for_range_empty by lia.
      cbn [mbind option_bind]. unfold for_range4.
      replace (Z.to_nat _) with O; [done|]. rewrite Z.max_l by lia.
      assert ((n - 0 + 3) `div` 4 < 1); [|lia].
      apply Z.div_lt_upper_bound; lia. }
  assert (0 < 4) as Hfour by lia. assert (4 ≠ 0) as Hnz by lia.
  pose proof (Z.rem_bound_pos n 4 Hpos Hfour) as Hrem.
  pose proof (Z.rem_mod_nonneg n 4 Hpos Hfour) as Hmod.
  pose proof (Z.div_mod n 4 Hnz) as Hdm.
  pose proof (Z.mod_le n 4 Hpos Hfour) as Hle.
  assert (forall m, 0 <= m <= n -> is_Some (BLASdot m a b)) as Hdef.
  { intros m Hm. unfold BLASdot.
    destruct (for_range_inv (fun _ (_ : R) => True) 0 m
                (fun i res => ai ← aget a i; bi ← aget b i;
                              Some (add res (mul ai bi)))
                zero) as (r1 & -> & _); [lia|done| |done].
    intros i s Hi _. destruct (aget_is_Some a i) as [y ->]; [lia|].
    destruct (aget_is_Some b i) as [z ->]; [lia|]. simpl. eauto. }
  change (for_range 0 (Z.rem n 4) _ zero) with (BLASdot (Z.rem n 4) a b).
  destruct (Hdef (Z.rem n 4)) as [r1 Hr1]; [lia|].
  rewrite Hr1. cbn [mbind option_bind]. rewrite Z.max_r by lia.
  unfold for_range4.
  edestruct (for_iter_inv (fun i (res : R) => BLASdot i a b = Some res) 4)
    as (r2 & -> & Hr2); [exact Hr1| |].
  - intros m res Hm Hres.
    set (i := Z.rem n 4 + Z.of_nat m * 4) in *.
    assert (0 <= i /\ i + 3 < n) as [Hi0 Hin].
    { rewrite Hmod in *.
      replace (n - n `mod` 4 + 3) with (3 + (n `div` 4) * 4) in Hm by lia.
      rewrite Z.div_add in Hm by lia.
      change (3 `div` 4) with 0 in Hm. lia. }
    destruct (aget_is_Some a i) as [y0 Hy0]; [lia|].
    destruct (aget_is_Some b i) as [z0 Hz0]; [lia|].
    destruct (aget_is_Some a (i + 1)) as [y1 Hy1]; [lia|].
    destruct (aget_is_Some b (i + 1)) as [z1 Hz1]; [lia|].
    destruct (aget_is_Some a (i + 2)) as [y2 Hy2]; [lia|].
    destruct (aget_is_Some b (i + 2)) as [z2 Hz2]; [lia|].
    destruct (aget_is_Some a (i + 3)) as [y3 Hy3]; [lia|].
    destruct (aget_is_Some b (i + 3)) as [z3 Hz3]; [lia|].
    rewrite Hy0, Hz0, Hy1, Hz1, Hy2, Hz2, Hy3, Hz3.
    cbn [mbind option_bind]. eexists. split; [done|].
    replace (Z.rem n 4 + Z.of_nat (S m) * 4) with (i + 1 + 1 + 1 + 1) by lia.
    assert (0 <= i + 1) as Hi1 by lia. assert (0 <= i + 2) as Hi2 by lia.
    assert (0 <= i + 3) as Hi3 by lia.
    pose proof (BLASdot_succ a b i _ _ _ Hi0 Hres Hy0 Hz0) as H1.
    pose proof (BLASdot_succ a b (i + 1) _ _ _ Hi1 H1 Hy1 Hz1) as H2.
    replace (i + 2) with (i + 1 + 1) in * by lia.
    pose proof (BLASdot_succ a b (i + 1 + 1) _ _ _ Hi2 H2 Hy2 Hz2) as H3.
    replace (i + 3) with (i + 1 + 1 + 1) in * by lia.
    pose proof (BLASdot_succ a b (i + 1 + 1 + 1) _ _ _ Hi3 H3 Hy3 Hz3) as H4.
    rewrite H4. f_equal. simpl. lra.
  - rewrite <- Hr2. f_equal.
    rewrite Hmod.
    replace (n - n `mod` 4 + 3) with (3 + (n `div` 4) * 4) by lia.
    rewrite Z.div_add by lia. change (3 `div` 4) with 0.
    rewrite Z2Nat.id; [lia|]. apply Z.add_nonneg_nonneg; [lia|].
    apply Z.div_pos; lia.
Qed.

Lemma dot_local_builds v (tv : TACSVec R TACSBVecDistCtx) :
  size v <= Z.of_nat (length (x v)) ->
  (forall vec, tv = BVec vec -> size vec = size v ->
     size v <= Z.of_nat (length (x vec))) ->
  dot_local true v tv = dot_local false v tv.
Proof.
  intros Hv Hvec. unfold dot_local. destruct tv as [vec|]; [|done].
  cbn [dynamic_cast]. case_decide as Hsz; [done|]. cbv zeta.
  rewrite unrolled_is_BLASdot; [done|done|].
  apply Hvec; [done|]. by destruct (decide (size vec = size v)).
Qed.

(** X17. Over the reals the two builds agree: the loops unrolled by
    four of the complex build add up the same products as the BLAS
    calls of the real build, so [norm] and [dot] return the same
    values in both. *)
Theorem builds_agree (world : list (TACSBVec R TACSBVecDistCtx))
    (peers : list (TACSBVec R TACSBVecDistCtx * TACSVec R TACSBVecDistCtx))
    r :
  Forall (fun v => size v <= Z.of_nat (length (x v))) world ->
  Forall (fun q => size q.1 <= Z.of_nat (length (x q.1)) /\
                   forall vec, q.2 = BVec vec -> size vec = size q.1 ->
                     size q.1 <= Z.of_nat (length (x vec))) peers ->
  norm true world = norm false world /\
  dot true peers r = dot false peers r.
Proof.
  intros Hworld Hpeers. split.
  - unfold norm.
    assert (mapM (norm_res true) world = mapM (norm_res false) world) as ->;
      [|done].
    apply mapM_Forall2_ext, Forall_Forall2_diag.
    eapply Forall_impl; [exact Hworld|]. intros v Hv. cbv beta in *.
    destruct (norm_res_defined true v Hv) as [r1 H1].
    destruct (norm_res_defined false v Hv) as [r2 H2].
    destruct (norm_res_dot_local true v r1 H1) as [D1 _].
    destruct (norm_res_dot_local false v r2 H2) as [D2 _].
    rewrite dot_local_builds in D1; [|done|by intros vec [= <-]].
    rewrite H1, H2. congruence.
  - unfold dot.
    assert (mapM (fun p => dot_local true p.1 p.2) peers
            = mapM (fun p => dot_local false p.1 p.2) peers) as ->; [|done].
    apply mapM_Forall2_ext, Forall_Forall2_diag.
    eapply Forall_impl; [exact Hpeers|]. intros q [Hq Hvec]. cbv beta.
    by apply dot_local_builds.
Qed.

End Builds.

Lemma builds_agree_witness :
  norm true [Scenario.real_rank 0 [1; 2; 3; 4]%R;
             Scenario.real_rank 1 [5; 6; 7; 8]%R]
  = norm false [Scenario.real_rank 0 [1; 2; 3; 4]%R;
                Scenario.real_rank 1 [5; 6; 7; 8]%R] /\
  dot true [(Scenario.real_rank 0 [1; 2; 3; 4]%R,
             BVec (Scenario.real_rank 0 [4; 3; 2; 1]%R));
            (Scenario.real_rank 1 [5; 6; 7; 8]%R,
             BVec (Scenario.real_rank 1 [8; 7; 6; 5]%R))] 0
  = dot false [(Scenario.real_rank 0 [1; 2; 3; 4]%R,
                BVec (Scenario.real_rank 0 [4; 3; 2; 1]%R));
               (Scenario.real_rank 1 [5; 6; 7; 8]%R,
                BVec (Scenario.real_rank 1 [8; 7; 6; 5]%R))] 0.
Proof.
  apply (builds_agree
           [Scenario.real_rank 0 [1; 2; 3; 4]%R;
            Scenario.real_rank 1 [5; 6; 7; 8]%R]
           [(Scenario.real_rank 0 [1; 2; 3; 4]%R,
             BVec (Scenario.real_rank 0 [4; 3; 2; 1]%R));
            (Scenario.real_rank 1 [5; 6; 7; 8]%R,
             BVec (Scenario.real_rank 1 [8; 7; 6; 5]%R))] 0).
  - repeat constructor; simpl; lia.
  - apply Forall_cons_2; [|apply Forall_cons_2; [|apply Forall_nil_2]];
      (split; [simpl; lia|]); intros vec [= <-] _; simpl; lia.
Defined.

(** ** Vectors without a map *)

Section Without_map.
Context {T : Type} `{TacsScalar T} {TACSBVecDistCtx : Type}.
Implicit Types v : TACSBVec T TACSBVecDistCtx.

(** X18. A vector made by the constructor without a map has no
    conditions, no plan and no dependent nodes, so [applyBCs],
    [endSetValues] and the two halves of the distribution leave it as
    it is. It has no map either, and [setValues], [getValues] and
    [beginSetValues] ask the map for the owner range before anything
    else: on such a vector they are undefined, whatever their
    arguments. *)
Theorem vector_without_map c size0 B v n index (vals : list T) op :
  TACSBVec_new_comm c size0 B = Some v ->
  (applyBCs v = Some v /\ endSetValues op v = Some v /\
   beginDistributeValues v = Some v /\ endDistributeValues v = Some v) /\
  (setValues n index vals op v = None /\
   getValues n index vals v = None /\
   beginSetValues op v = None).
Proof.
  unfold TACSBVec_new_comm. intros Hnew.
  destruct (new_zeroed size0) as [a|]; [|done].
  cbn [mbind option_bind] in Hnew. injection Hnew as <-.
  by split_and!.
Qed.

End Without_map.

Lemma vector_without_map_witness :
  (applyBCs (set_x Scenario.short (Scenario.zeros 2))
   = Some (set_x Scenario.short (Scenario.zeros 2)) /\
   endSetValues ADD_VALUES (set_x Scenario.short (Scenario.zeros 2))
   = Some (set_x Scenario.short (Scenario.zeros 2)) /\
   beginDistributeValues (set_x Scenario.short (Scenario.zeros 2))
   = Some (set_x Scenario.short (Scenario.zeros 2)) /\
   endDistributeValues (set_x Scenario.short (Scenario.zeros 2))
   = Some (set_x Scenario.short (Scenario.zeros 2))) /\
  (setValues 0 [] [] ADD_VALUES
     (set_x Scenario.short (Scenario.zeros 2)) = None /\
   getValues 0 [] [] (set_x Scenario.short (Scenario.zeros 2)) = None /\
   beginSetValues ADD_VALUES (set_x Scenario.short (Scenario.zeros 2))
   = None).
Proof.
  apply (vector_without_map (getMPIComm (Scenario.map 0)) 2 2
           (set_x Scenario.short (Scenario.zeros 2)) 0 [] [] ADD_VALUES).
  reflexivity.
Defined.
